(** * MemeDiffusion: the graph-analytics core of [src/analyze.py]

A shallow embedding of [build_bipartite_graph], [project_authors],
[compute_metrics], [top_influencers_by_centrality] and
[analyze_per_content], together with the parts of networkx (3.x) and
pandas they call.

Conventions.
- A Python [dict] is an association list in insertion order ([dict_set]
  keeps the position of a key that is already there).
- A [networkx.Graph] is the dict [node -> (attributes, neighbours)];
  [_node] and [_adj] always hold the same keys in the same order, so one
  list carries both.
- A Python [float] is an IEEE binary64, Rocq's primitive [float]; a
  Python [int] is a [Z].
- Exceptions are values of [exc]; [try ... except Exception] is a match
  on it.
- A Python [set] is enumerated in order of first occurrence (CPython
  leaves the order unspecified; nothing proved below depends on it).
- [int / int] and [np.mean] of ints divide the two ints converted to
  binary64, which is what Python returns while they stay below [2^53].
- networkx is the 3.x series: [weighted_projected_graph] refuses a node
  list that is not smaller than the graph. *)

From Stdlib Require Import List String ZArith Bool Lia Permutation Sorted Floats.
Import ListNotations.

Local Open Scope string_scope.
Local Open Scope list_scope.
Local Open Scope Z_scope.

(** ** Exceptions *)

Inductive exn : Type :=
| KeyError
| TypeError
| ValueError
| ZeroDivisionError
| NetworkXAlgorithmError
| NetworkXPointlessConcept
| NetworkXError.

Inductive exc (A : Type) : Type :=
| Ok (a : A)
| Raise (e : exn).

Arguments Ok {A} a.
Arguments Raise {A} e.

Definition bind {A B : Type} (m : exc A) (k : A -> exc B) : exc B :=
  match m with
  | Ok a => k a
  | Raise e => Raise e
  end.

Notation "x <- m ;; k" := (bind m (fun x => k))
  (at level 61, m at next level, right associativity).

(** ** Python values stored in the metrics dict *)

Inductive pyval : Type :=
| PNone
| PInt (z : Z)
| PFloat (f : float).

(** [float(int)], correctly rounded for [|z| < 2^63]. *)
Definition float_of_Z (z : Z) : float :=
  if z <? 0 then PrimFloat.opp (PrimFloat.of_uint63 (Uint63.of_Z (- z)))
  else PrimFloat.of_uint63 (Uint63.of_Z z).

(** [float(x)] on a metrics value. *)
Definition pyfloat (v : pyval) : exc float :=
  match v with
  | PNone => Raise TypeError
  | PInt z => Ok (float_of_Z z)
  | PFloat f => Ok f
  end.

(** [a / b] on two ints (true division). *)
Definition truediv (a b : Z) : exc float :=
  if b =? 0 then Raise ZeroDivisionError
  else Ok (PrimFloat.div (float_of_Z a) (float_of_Z b)).

Definition len {A : Type} (l : list A) : Z := Z.of_nat (List.length l).

(** ** Dicts with string keys *)

Definition node : Type := string.

Section Dict.
Context {V : Type}.

Definition dict : Type := list (string * V).

Fixpoint dict_get (d : dict) (k : string) : option V :=
  match d with
  | [] => None
  | (k', v) :: d' => if String.eqb k k' then Some v else dict_get d' k
  end.

Fixpoint dict_set (d : dict) (k : string) (v : V) : dict :=
  match d with
  | [] => [(k, v)]
  | (k', v') :: d' =>
      if String.eqb k k' then (k', v) :: d' else (k', v') :: dict_set d' k v
  end.

Definition dict_mem (d : dict) (k : string) : bool :=
  match dict_get d k with
  | Some _ => true
  | None => false
  end.

Definition keys (d : dict) : list string := map fst d.
Definition values (d : dict) : list V := map snd d.
End Dict.

Arguments dict V : clear implicits.

Definition mem (x : string) (l : list string) : bool :=
  existsb (String.eqb x) l.

(** ** networkx.Graph *)

Inductive role : Type := r_author | r_subreddit.

Definition role_eqb (a b : role) : bool :=
  match a, b with
  | r_author, r_author | r_subreddit, r_subreddit => true
  | _, _ => false
  end.

Record nodedata (W : Type) : Type := mkNode {
  bipartite : option role;   (* the node attribute "bipartite", when set *)
  adj : dict W               (* neighbour -> edge attribute "weight" *)
}.

Arguments mkNode {W}.
Arguments bipartite {W}.
Arguments adj {W}.

Definition Graph (W : Type) : Type := dict (nodedata W).

Section GraphOps.
Context {W : Type}.

Definition empty_graph : Graph W := [].

Definition has_node (G : Graph W) (n : node) : bool := dict_mem G n.

(** [G.add_node(n, bipartite=r)]; [r = None] is [G.add_node(n)]. *)
Definition add_node (G : Graph W) (n : node) (r : option role) : Graph W :=
  match dict_get G n with
  | None => dict_set G n (mkNode r [])
  | Some d =>
      match r with
      | None => G
      | Some _ => dict_set G n (mkNode r (adj d))
      end
  end.

(** [G._adj[u][v] = {"weight": w}] for a node [u] of the graph. *)
Definition set_adj (G : Graph W) (u v : node) (w : W) : Graph W :=
  match dict_get G u with
  | None => G
  | Some d => dict_set G u (mkNode (bipartite d) (dict_set (adj d) v w))
  end.

(** [G.add_edge(u, v, weight=w)] *)
Definition add_edge (G : Graph W) (u v : node) (w : W) : Graph W :=
  let G := add_node G u None in
  let G := add_node G v None in
  set_adj (set_adj G u v w) v u w.

(** [G[u]]: the neighbours of [u]. *)
Definition nbrs (G : Graph W) (u : node) : dict W :=
  match dict_get G u with
  | None => []
  | Some d => adj d
  end.

Definition neighbors (G : Graph W) (u : node) : list node := keys (nbrs G u).

Definition has_edge (G : Graph W) (u v : node) : bool := dict_mem (nbrs G u) v.

(** [G[u][v]["weight"]] *)
Definition edge_weight (G : Graph W) (u v : node) : option W :=
  dict_get (nbrs G u) v.

Definition nodes (G : Graph W) : list node := keys G.

Definition number_of_nodes (G : Graph W) : Z := len G.

(** [G.degree()]: a self-loop counts twice. *)
Definition degree_of (n : node) (d : nodedata W) : Z :=
  len (adj d) + (if dict_mem (adj d) n then 1 else 0).

Definition degree (G : Graph W) : dict Z :=
  map (fun nd => (fst nd, degree_of (fst nd) (snd nd))) G.

Definition sumZ (l : list Z) : Z := fold_left Z.add l 0.

(** [G.number_of_edges()] is [int(G.size())], half the sum of the degrees. *)
Definition number_of_edges (G : Graph W) : Z := sumZ (values (degree G)) / 2.

(** [G.subgraph(c)]: the subgraph induced by the nodes of [c]. *)
Definition subgraph (G : Graph W) (c : list node) : Graph W :=
  map (fun nd =>
         (fst nd,
          mkNode (bipartite (snd nd))
                 (filter (fun e => mem (fst e) c) (adj (snd nd)))))
      (filter (fun nd => mem (fst nd) c) G).
End GraphOps.

Arguments empty_graph {W}.

(** ** pandas rows *)

(** A cell of the [likeCount] column, as [build_bipartite_graph] sees it:
  [NA] when the column is absent or [pd.isna] holds, [Num w] when
  [float(cell)] returns [w], [NonNumeric] when [float(cell)] raises. *)
Inductive cell (W : Type) : Type :=
| NA
| Num (w : W)
| NonNumeric.

Arguments NA {W}.
Arguments Num {W} w.
Arguments NonNumeric {W}.

(** One row; [None] is a missing value (NaN/None). *)
Record Row (W : Type) : Type := mkRow {
  user_username : option string;
  subreddit : option string;
  likeCount : cell W;
  content_type : option string
}.

Arguments mkRow {W}.
Arguments user_username {W}.
Arguments subreddit {W}.
Arguments likeCount {W}.
Arguments content_type {W}.

Record DataFrame (W : Type) : Type := mkDF {
  has_content_type : bool;       (* "content_type" in df.columns *)
  iterrows : list (Row W)
}.

Arguments mkDF {W}.
Arguments has_content_type {W}.
Arguments iterrows {W}.

(** ** build_bipartite_graph (analyze.py, lines 47-67) *)

Section Builder.
Variable W : Type.
Variable wadd : W -> W -> W.   (* [+] on weights *)
Variable wone : W.             (* the literal [1.0] *)

(** [float(row["likeCount"])] *)
Definition float_cell (c : cell W) : exc W :=
  match c with
  | Num w => Ok w
  | _ => Raise ValueError
  end.

(** lines 57-62 *)
Definition row_weight (r : Row W) : W :=
  match likeCount r with
  | NA => wone
  | c =>
      match float_cell c with
      | Ok w => w
      | Raise _ => wone
      end
  end.

(** The body of the loop, lines 51-66. *)
Definition add_record (G : Graph W) (r : Row W) : Graph W :=
  match user_username r, subreddit r with
  | Some a, Some s =>
      let G := add_node G a (Some r_author) in
      let G := add_node G s (Some r_subreddit) in
      let weight := row_weight r in
      if has_edge G a s then
        match edge_weight G a s with
        | Some w0 =>
            let w' := wadd w0 weight in
            set_adj (set_adj G a s w') s a w'
        | None => G
        end
      else add_edge G a s weight
  | _, _ => G
  end.

Definition build_from (G : Graph W) (rows : list (Row W)) : Graph W :=
  fold_left add_record rows G.

Definition build_bipartite_graph (df : DataFrame W) : Graph W :=
  build_from empty_graph (iterrows df).
End Builder.

Arguments float_cell {W}.
Arguments row_weight {W}.
Arguments add_record {W}.
Arguments build_from {W}.
Arguments build_bipartite_graph {W}.

(** ** networkx *)

Module nx.

(** A Python [set] built from a sequence. *)
Definition set_of (l : list node) : list node := nodup string_dec l.

(** [bipartite.weighted_projected_graph(B, nodes)] with [ratio=False] on
    an undirected graph: the nodes are copied with their attributes, a
    node list that leaves no node on the other side is refused, and every
    node [u] is joined to each node [v] at distance two, with the number
    of common neighbours as weight. *)
Section Projection.
Context {W : Type}.

Definition common (B : Graph W) (u v : node) : list node :=
  filter (fun x => mem x (set_of (neighbors B v))) (set_of (neighbors B u)).

Definition nbrs2 (B : Graph W) (u : node) : list node :=
  remove string_dec u
    (set_of (flat_map (neighbors B) (set_of (neighbors B u)))).

Definition project_node (B : Graph W) (G : Graph Z) (u : node) : Graph Z :=
  fold_left (fun G v => add_edge G u v (len (common B u v))) (nbrs2 B u) G.

Definition copy_node (B : Graph W) (G : Graph Z) (n : node) : Graph Z :=
  match dict_get B n with
  | Some d => add_node G n (bipartite d)
  | None => add_node G n None
  end.

Definition weighted_projected_graph (B : Graph W) (ns : list node)
  : exc (Graph Z) :=
  let G := fold_left (copy_node B) ns empty_graph in
  let n_top := len B - len ns in
  if n_top <? 1 then Raise NetworkXAlgorithmError
  else Ok (fold_left (project_node B) ns G).
End Projection.

Section Metrics.
Context {W : Type}.

(** [nx.density(G)] for an undirected graph. *)
Definition density (G : Graph W) : exc pyval :=
  let n := number_of_nodes G in
  let m := number_of_edges G in
  if (m =? 0) || (n <=? 1) then Ok (PInt 0)
  else
    d <- truediv m (n * (n - 1)) ;;
    Ok (PFloat (PrimFloat.mul d 2)).

(** [nx.degree_centrality(G)].  For at most one node networkx stores the
    int [1]; every use below converts it with [float()] or compares it
    with its equals, so it is kept as [1.0].  [len(G) - 1.0] is zero
    exactly when [len(G) = 1], which is where the division is tested. *)
Definition degree_centrality (G : Graph W) : exc (dict float) :=
  if len G <=? 1 then Ok (map (fun nd => (fst nd, 1%float)) G)
  else
    if len G - 1 =? 0 then Raise ZeroDivisionError
    else
      let s := PrimFloat.div 1 (PrimFloat.sub (float_of_Z (len G)) 1) in
      Ok (map (fun nd => (fst nd, PrimFloat.mul (float_of_Z (snd nd)) s))
              (degree G)).

(** The inner loops of a breadth-first sweep: the nodes of [ws] not yet
    seen, in order of discovery. *)
Fixpoint scan (ws : list node) (seen : list node) : list node :=
  match ws with
  | [] => []
  | w :: ws' =>
      if mem w seen then scan ws' seen else w :: scan ws' (w :: seen)
  end.

Definition expand (G : Graph W) (thislevel seen : list node) : list node :=
  scan (flat_map (neighbors G) thislevel) seen.

(** [_plain_bfs]: the set of nodes reached from [thislevel]; one unit of
    fuel per level.  (The early return on [len(seen) == n] only saves
    work and is left out.) *)
Fixpoint plain_bfs (fuel : nat) (G : Graph W) (seen thislevel : list node)
  : list node :=
  match fuel with
  | O => seen
  | S fuel' =>
      match thislevel with
      | [] => seen
      | _ =>
          let nextlevel := expand G thislevel seen in
          plain_bfs fuel' G (seen ++ nextlevel) nextlevel
      end
  end.

Definition bfs_from (G : Graph W) (v : node) : list node :=
  plain_bfs (List.length G) G [v] [v].

Fixpoint cc_loop (G : Graph W) (vs : list node) (seen : list node)
  : list (list node) :=
  match vs with
  | [] => []
  | v :: vs' =>
      if mem v seen then cc_loop G vs' seen
      else
        let c := bfs_from G v in
        c :: cc_loop G vs' (seen ++ c)
  end.

(** [nx.connected_components(G)] *)
Definition connected_components (G : Graph W) : list (list node) :=
  cc_loop G (nodes G) [].

(** [nx.is_connected(G)] *)
Definition is_connected (G : Graph W) : exc bool :=
  match nodes G with
  | [] => Raise NetworkXPointlessConcept
  | v :: _ => Ok (len (bfs_from G v) =? len G)
  end.

(** [_single_shortest_path_length]: the nodes found after [thislevel],
    each with its level. *)
Fixpoint bfs_levels (fuel : nat) (G : Graph W) (seen thislevel : list node)
         (level : Z) : list (node * Z) :=
  match fuel with
  | O => []
  | S fuel' =>
      match thislevel with
      | [] => []
      | _ =>
          let nextlevel := expand G thislevel seen in
          map (fun w => (w, level + 1)) nextlevel
            ++ bfs_levels fuel' G (seen ++ nextlevel) nextlevel (level + 1)
      end
  end.

(** [nx.single_source_shortest_path_length(G, source)] *)
Definition single_source_shortest_path_length (G : Graph W) (source : node)
  : dict Z :=
  (source, 0) :: bfs_levels (List.length G) G [source] [source] 0.

(** [nx.average_shortest_path_length(G)], unweighted. *)
Definition average_shortest_path_length (G : Graph W) : exc pyval :=
  let n := len G in
  if n =? 0 then Raise NetworkXPointlessConcept
  else if n =? 1 then Ok (PInt 0)
  else
    c <- is_connected G ;;
    if negb c then Raise NetworkXError
    else
      let s :=
        sumZ (flat_map
                (fun u => values (single_source_shortest_path_length G u))
                (nodes G)) in
      a <- truediv s (n * (n - 1)) ;;
      Ok (PFloat a).

(** [_triangles_and_degree_iter]: for a node [v], the number of its
    neighbours other than itself and twice its number of triangles. *)
Definition vs_of (G : Graph W) (v : node) : list node :=
  remove string_dec v (set_of (neighbors G v)).

Definition triangles_and_degree (G : Graph W) (v : node) : Z * Z :=
  let vs := vs_of G v in
  (len vs,
   sumZ (map (fun w => len (filter (fun x => mem x (vs_of G w)) vs)) vs)).

(** [nx.clustering(G)] *)
Fixpoint clustering_of (G : Graph W) (vs : list node) : exc (list pyval) :=
  match vs with
  | [] => Ok []
  | v :: vs' =>
      let '(d, t) := triangles_and_degree G v in
      c <- (if t =? 0 then Ok (PInt 0)
            else (q <- truediv t (d * (d - 1)) ;; Ok (PFloat q))) ;;
      cs <- clustering_of G vs' ;;
      Ok (c :: cs)
  end.

Definition float_value (v : pyval) : float :=
  match v with
  | PFloat f => f
  | PInt z => float_of_Z z
  | PNone => 0%float
  end.

(** [nx.average_clustering(G)]: [sum(c) / len(c)]; the sum is taken from
    left to right. *)
Definition average_clustering (G : Graph W) : exc float :=
  c <- clustering_of G (nodes G) ;;
  if len c =? 0 then Raise ZeroDivisionError
  else
    Ok (PrimFloat.div
          (fold_left (fun acc v => PrimFloat.add acc (float_value v)) c 0%float)
          (float_of_Z (len c))).
End Metrics.

End nx.

(** ** Python builtins used by analyze.py *)

(** [max(x, *l)] on ints: the first maximal element. *)
Fixpoint pymaxZ (x : Z) (l : list Z) : Z :=
  match l with
  | [] => x
  | y :: l' => pymaxZ (if x <? y then y else x) l'
  end.

(** [max(x, *l, key=key)] *)
Fixpoint pymax_key {A : Type} (key : A -> Z) (x : A) (l : list A) : A :=
  match l with
  | [] => x
  | y :: l' => pymax_key key (if key x <? key y then y else x) l'
  end.

(** [max(x, *l)] on floats. *)
Fixpoint pymaxF (x : float) (l : list float) : float :=
  match l with
  | [] => x
  | y :: l' => pymaxF (if PrimFloat.ltb x y then y else x) l'
  end.

(** [sorted(l, key=key, reverse=True)]: a stable sort into descending
  order of the float keys. *)
Section Sorted.
Context {A : Type} (key : A -> float).

Fixpoint insert_desc (x : A) (l : list A) : list A :=
  match l with
  | [] => [x]
  | y :: l' =>
      if PrimFloat.ltb (key x) (key y) then y :: insert_desc x l'
      else x :: l
  end.

Fixpoint sorted_reverse (l : list A) : list A :=
  match l with
  | [] => []
  | x :: l' => insert_desc x (sorted_reverse l')
  end.
End Sorted.

(** [sorted(l)] on strings. *)
Fixpoint insert_str (x : string) (l : list string) : list string :=
  match l with
  | [] => [x]
  | y :: l' => if String.ltb x y then x :: l else y :: insert_str x l'
  end.

Fixpoint sorted_str (l : list string) : list string :=
  match l with
  | [] => []
  | x :: l' => insert_str x (sorted_str l')
  end.

(** [l[:k]] *)
Definition slice_to {A : Type} (l : list A) (k : Z) : list A :=
  if k <? 0 then firstn (Z.to_nat (len l + k)) l
  else firstn (Z.to_nat k) l.

(** [Series.unique()]: the distinct values in order of first appearance. *)
Fixpoint unique (l : list string) : list string :=
  match l with
  | [] => []
  | x :: l' => x :: filter (fun y => negb (String.eqb y x)) (unique l')
  end.

(** [Series.fillna(v)] *)
Definition fillna (v : string) (col : list (option string)) : list string :=
  map (fun c => match c with Some s => s | None => v end) col.

(** [m.update(kvs)] *)
Definition update {V : Type} (m : dict V) (kvs : list (string * V)) : dict V :=
  fold_left (fun m kv => dict_set m (fst kv) (snd kv)) kvs m.

(** ** project_authors (analyze.py, lines 70-75) *)

Definition authors_of {W : Type} (G : Graph W) : list node :=
  map fst
      (filter (fun nd =>
                 match bipartite (snd nd) with
                 | Some r => role_eqb r r_author
                 | None => false
                 end) G).

Definition project_authors {W : Type} (G : Graph W) : exc (Graph Z) :=
  let authors := authors_of G in
  nx.weighted_projected_graph G authors.

(** ** compute_metrics (analyze.py, lines 78-118) *)

Section ComputeMetrics.
Context {W : Type}.

(** lines 93-95 *)
Definition clustering_block (G : Graph W) (metrics : dict pyval) : dict pyval :=
  match nx.average_clustering G with
  | Ok c => dict_set metrics "avg_clustering" (PFloat c)
  | Raise _ => dict_set metrics "avg_clustering" PNone
  end.

(** lines 97-105: the body of the second [try], on the metrics written so
    far; it returns them with what it wrote before it finished or raised. *)
Definition components_body (G : Graph W) (metrics : dict pyval)
  : dict pyval * exc unit :=
  let UG := G in
  let comps := nx.connected_components UG in
  let metrics := dict_set metrics "n_components" (PInt (len comps)) in
  let lc :=
    match comps with
    | [] => 0
    | c :: cs => pymaxZ (len c) (map len cs)
    end in
  let metrics := dict_set metrics "largest_component" (PInt lc) in
  if 1 <? lc then
    match comps with
    | [] => (metrics, Raise ValueError)
    | c :: cs =>
        let largest := subgraph UG (pymax_key len c cs) in
        match (a <- nx.average_shortest_path_length largest ;; pyfloat a) with
        | Ok f => (dict_set metrics "avg_shortest_path" (PFloat f), Ok tt)
        | Raise e => (metrics, Raise e)
        end
    end
  else (dict_set metrics "avg_shortest_path" PNone, Ok tt).

(** lines 96-109 *)
Definition components_block (G : Graph W) (metrics : dict pyval) : dict pyval :=
  match components_body G metrics with
  | (metrics, Ok _) => metrics
  | (metrics, Raise _) =>
      let metrics := dict_set metrics "n_components" PNone in
      let metrics := dict_set metrics "largest_component" PNone in
      dict_set metrics "avg_shortest_path" PNone
  end.

(** lines 112-116 *)
Definition centrality_block (G : Graph W) (metrics : dict pyval) : dict pyval :=
  match
    (dc <- nx.degree_centrality G ;;
     match values dc with
     | [] => Ok 0%float
     | c :: cs => Ok (pymaxF c cs)
     end)
  with
  | Ok f => dict_set metrics "max_degree_centrality" (PFloat f)
  | Raise _ => dict_set metrics "max_degree_centrality" PNone
  end.

Definition compute_metrics (G : Graph W) : exc (dict pyval) :=
  let metrics := [] in
  let metrics := dict_set metrics "n_nodes" (PInt (number_of_nodes G)) in
  let metrics := dict_set metrics "n_edges" (PInt (number_of_edges G)) in
  if number_of_nodes G =? 0 then
    Ok (update metrics
          [("avg_degree", PInt 0); ("density", PInt 0);
           ("avg_clustering", PNone); ("avg_shortest_path", PNone);
           ("n_components", PInt 0); ("largest_component", PInt 0)])
  else
    let degs := values (degree G) in
    mean <- truediv (sumZ degs) (len degs) ;;
    let metrics := dict_set metrics "avg_degree" (PFloat mean) in
    d <- nx.density G ;;
    d <- pyfloat d ;;
    let metrics := dict_set metrics "density" (PFloat d) in
    let metrics := clustering_block G metrics in
    let metrics := components_block G metrics in
    let metrics := centrality_block G metrics in
    Ok metrics.
End ComputeMetrics.

(** ** top_influencers_by_centrality (analyze.py, lines 121-134) *)

Record Influencer : Type := mkInfluencer {
  author : node;
  degree_centrality : float;
  weighted_degree : float
}.

(** [P.degree(weight="weight")]: a self-loop counts twice. *)
Definition weighted_degree_of (n : node) (d : nodedata Z) : Z :=
  sumZ (values (adj d))
  + match dict_get (adj d) n with
    | Some w => w
    | None => 0
    end.

Definition degree_weight (P : Graph Z) : dict Z :=
  map (fun nd => (fst nd, weighted_degree_of (fst nd) (snd nd))) P.

Definition get_default {V : Type} (d : dict V) (k : string) (default : V) : V :=
  match dict_get d k with
  | Some v => v
  | None => default
  end.

Definition top_influencers_by_centrality (P : Graph Z) (topk : Z)
  : exc (list Influencer) :=
  let results := [] in
  if number_of_nodes P =? 0 then Ok results
  else
    deg_cent <- nx.degree_centrality P ;;
    let weighted_deg := degree_weight P in
    Ok (results ++
        map (fun n =>
               mkInfluencer n
                 (get_default deg_cent n 0%float)
                 (float_of_Z (get_default weighted_deg n 0)))
            (slice_to
               (sorted_reverse (fun x => get_default deg_cent x 0%float) (nodes P))
               topk)).

(** ** analyze_per_content (analyze.py, lines 137-157) *)

Record InfluencerRow : Type := mkInfRow {
  category : string;
  entry : Influencer
}.

Definition Summary : Type := dict (dict pyval).

Section Analyze.
Variable W : Type.
Variable wadd : W -> W -> W.
Variable wone : W.

(** One pass of the pipeline, lines 141-146 and 150-155. *)
Definition analyze_one (label : string) (df : DataFrame W)
           (acc : Summary * list InfluencerRow)
  : exc (Summary * list InfluencerRow) :=
  let G := build_bipartite_graph wadd wone df in
  P <- project_authors G ;;
  m <- compute_metrics P ;;
  infl <- top_influencers_by_centrality P 10 ;;
  Ok (dict_set (fst acc) label m,
      snd acc ++ map (mkInfRow label) infl).

(** line 148 *)
Definition content_types (df : DataFrame W) : list string :=
  sorted_str
    (unique
       (fillna "unknown"
          (if has_content_type df then map content_type (iterrows df)
           else [Some "unknown"%string]))).

(** line 149: [df[df["content_type"] == ctype]] *)
Definition select_content_type (df : DataFrame W) (ctype : string)
  : exc (DataFrame W) :=
  if has_content_type df then
    Ok (mkDF true
          (filter (fun r =>
                     match content_type r with
                     | Some c => String.eqb c ctype
                     | None => false
                     end) (iterrows df)))
  else Raise KeyError.

Fixpoint analyze_loop (df : DataFrame W) (ctypes : list string)
         (acc : Summary * list InfluencerRow)
  : exc (Summary * list InfluencerRow) :=
  match ctypes with
  | [] => Ok acc
  | ctype :: rest =>
      subdf <- select_content_type df ctype ;;
      acc <- analyze_one ctype subdf acc ;;
      analyze_loop df rest acc
  end.

Definition analyze_per_content (df : DataFrame W)
  : exc (Summary * list InfluencerRow) :=
  acc <- analyze_one "all" df ([], []) ;;
  analyze_loop df (content_types df) acc.
End Analyze.

Arguments analyze_one {W}.
Arguments content_types {W}.
Arguments select_content_type {W}.
Arguments analyze_loop {W}.
Arguments analyze_per_content {W}.

(** The program as it runs: weights are binary64 floats. *)
Definition build_bipartite_graph_f (df : DataFrame float) : Graph float :=
  build_bipartite_graph PrimFloat.add 1%float df.

Definition analyze_per_content_f (df : DataFrame float)
  : exc (Summary * list InfluencerRow) :=
  analyze_per_content PrimFloat.add 1%float df.

(** * Specification vocabulary *)

Definition is_some {A : Type} (o : option A) : bool :=
  match o with
  | Some _ => true
  | None => false
  end.

(** The partition label of a node. *)
Definition role_of {W : Type} (G : Graph W) (n : node) : option role :=
  match dict_get G n with
  | Some d => bipartite d
  | None => None
  end.

(** The author and the community of a record that is not skipped. *)
Definition record_pair {W : Type} (r : Row W) : option (node * node) :=
  match user_username r, subreddit r with
  | Some a, Some s => Some (a, s)
  | _, _ => None
  end.

(** [(u, v)] is the pair [(a, s)] in one of its two orientations. *)
Definition same_pair (u v a s : node) : bool :=
  String.eqb u a && String.eqb v s || String.eqb u s && String.eqb v a.

Definition mentions {W : Type} (n : node) (r : Row W) : bool :=
  match record_pair r with
  | Some (a, s) => String.eqb n a || String.eqb n s
  | None => false
  end.

Section WeightSpec.
Variable W : Type.
Variable wadd : W -> W -> W.
Variable wone : W.

(** Create with [w] when absent, add [w] when present. *)
Definition upsert (acc : option W) (w : W) : option W :=
  Some match acc with
       | Some w0 => wadd w0 w
       | None => w
       end.

(** What one record does to the weight of the edge between [u] and [v]. *)
Definition weight_step (u v : node) (acc : option W) (r : Row W) : option W :=
  match record_pair r with
  | Some (a, s) =>
      if same_pair u v a s then upsert acc (row_weight wone r) else acc
  | None => acc
  end.
End WeightSpec.

Arguments upsert {W}.
Arguments weight_step {W}.

(** A graph whose adjacency is symmetric, as an undirected graph's is. *)
Definition symmetric {W : Type} (G : Graph W) : Prop :=
  forall u v, edge_weight G u v = edge_weight G v u.

(** The component [compute_metrics] measures shortest paths on: the first
    of the largest ones, none in the graph without nodes. *)
Definition largest_cc {W : Type} (G : Graph W) : list node :=
  match nx.connected_components G with
  | [] => []
  | c :: cs => pymax_key len c cs
  end.

(** [float(nx.average_shortest_path_length(largest))] *)
Definition avg_path_value {W : Type} (G : Graph W) : exc float :=
  a <- nx.average_shortest_path_length (subgraph G (largest_cc G)) ;; pyfloat a.

(** The degree centralities of a graph of at least two nodes. *)
Definition centralities {W : Type} (G : Graph W) : list float :=
  map (fun nd =>
         PrimFloat.mul (float_of_Z (snd nd))
           (PrimFloat.div 1 (PrimFloat.sub (float_of_Z (number_of_nodes G)) 1)))
      (degree G).

(** The names used as author, and as community, by the records that are
    not skipped. *)
Definition authors_in {W : Type} (rows : list (Row W)) : list node :=
  flat_map (fun r => match record_pair r with
                     | Some (a, _) => [a]
                     | None => []
                     end) rows.

Definition communities_in {W : Type} (rows : list (Row W)) : list node :=
  flat_map (fun r => match record_pair r with
                     | Some (_, s) => [s]
                     | None => []
                     end) rows.

(** No name is used both as an author and as a community. *)
Definition collision_free {W : Type} (rows : list (Row W)) : bool :=
  forallb (fun a => negb (mem a (communities_in rows))) (authors_in rows).

Definition subreddits_of {W : Type} (G : Graph W) : list node :=
  map fst
      (filter (fun nd =>
                 match bipartite (snd nd) with
                 | Some r => role_eqb r r_subreddit
                 | None => false
                 end) G).

(** The invariant of a bipartite graph: nodes are unique and the two
    partitions disjoint, every edge joins an author node and a community
    node, and a pair of nodes has at most one edge. *)
Definition bipartite_inv {W : Type} (G : Graph W) : Prop :=
  NoDup (nodes G) /\
  (forall n, In n (authors_of G) -> ~ In n (subreddits_of G)) /\
  (forall u v, has_edge G u v = true ->
               (role_of G u = Some r_author /\ role_of G v = Some r_subreddit) \/
               (role_of G u = Some r_subreddit /\ role_of G v = Some r_author)) /\
  (forall u, NoDup (neighbors G u)).

(** Representation invariants of a graph: a node has one adjacency entry
    per neighbour, and every neighbour is a node. *)
Definition adj_nodup {W : Type} (G : Graph W) : Prop :=
  forall u, NoDup (neighbors G u).

Definition closed {W : Type} (G : Graph W) : Prop :=
  forall u v, has_edge G u v = true -> has_node G u = true /\ has_node G v = true.

(** Labels and edges that follow two classes [isA], [isS] of names. *)
Definition labelled {W : Type} (isA isS : node -> bool) (G : Graph W) : Prop :=
  forall n, has_node G n = true ->
            (isA n = true /\ role_of G n = Some r_author) \/
            (isS n = true /\ role_of G n = Some r_subreddit).

Definition across {W : Type} (isA isS : node -> bool) (G : Graph W) : Prop :=
  forall u v, has_edge G u v = true ->
              (isA u = true /\ isS v = true) \/ (isS u = true /\ isA v = true).

Definition well_used {W : Type} (isA isS : node -> bool) (r : Row W) : Prop :=
  forall a s, record_pair r = Some (a, s) -> isA a = true /\ isS s = true.

(** The communities two nodes are both connected to. *)
Definition shared_communities {W : Type} (B : Graph W) (u v : node) : list node :=
  filter (fun c => has_edge B u c && has_edge B v c) (subreddits_of B).

(** What the projection of [B] on its authors has to be: the authors as
    nodes; an edge between two distinct authors exactly when they share a
    community, weighted by the number of communities they share; no
    self-loop. *)
Definition projection_spec {W : Type} (B : Graph W) (P : Graph Z) : Prop :=
  (forall n, has_node P n = true <-> In n (authors_of B)) /\
  (forall u v, has_edge P u v = true <->
               u <> v /\ In u (authors_of B) /\ In v (authors_of B) /\
               shared_communities B u v <> []) /\
  (forall u v, has_edge P u v = true ->
               edge_weight P u v = Some (len (shared_communities B u v))) /\
  (forall u, has_edge P u u = false).

(** The edges [weighted_projected_graph] adds, in the order it adds them. *)
Definition projected_edges {W : Type} (B : Graph W) (ns : list node)
  : list (node * node * Z) :=
  flat_map (fun u => map (fun v => (u, v, len (nx.common B u v))) (nx.nbrs2 B u)) ns.

Definition add_edges (G : Graph Z) (es : list (node * node * Z)) : Graph Z :=
  fold_left (fun G e => add_edge G (fst (fst e)) (snd (fst e)) (snd e)) es G.

(** Walks of [n] edges from [u], and the hop distance. *)
Inductive walk {W : Type} (G : Graph W) (u : node) : node -> nat -> Prop :=
| walk_here : has_node G u = true -> walk G u u 0
| walk_step v w n :
    walk G u v n -> has_edge G v w = true -> walk G u w (S n).

Definition dist {W : Type} (G : Graph W) (u v : node) (d : nat) : Prop :=
  walk G u v d /\ forall d', walk G u v d' -> (d <= d')%nat.

Definition reachable {W : Type} (G : Graph W) (u v : node) : Prop :=
  exists d, walk G u v d.

(** A well-formed undirected graph: no node twice, and every adjacency
    entry [u -> v] has its mirror [v -> u]. *)
Fixpoint nodupb (l : list node) : bool :=
  match l with
  | [] => true
  | x :: l' => negb (mem x l') && nodupb l'
  end.

Definition wf_graph {W : Type} (G : Graph W) : bool :=
  nodupb (nodes G)
  && forallb (fun nd =>
                forallb (fun e => has_edge G (fst e) (fst nd)) (adj (snd nd))) G.

(** The sum of [D u v] over the ordered pairs of nodes of [l]. *)
Definition sum_pairs (D : node -> node -> nat) (l : list node) : Z :=
  sumZ (flat_map (fun u => map (fun v => Z.of_nat (D u v)) l) l).

(** The state of a breadth-first search from [u] after level [k]: [seen]
    holds the nodes at distance at most [k], [this] those at distance
    [k]. *)
Definition level_inv {W : Type} (G : Graph W) (u : node)
           (seen this : list node) (k : nat) : Prop :=
  NoDup seen /\
  incl seen (nodes G) /\
  (forall x, In x seen -> exists d, (d <= k)%nat /\ dist G u x d) /\
  (forall x d, (d <= k)%nat -> walk G u x d -> In x seen) /\
  (forall x, In x this <-> dist G u x k).

(** The level breadth-first search gives [v] when started from [u]. *)
Definition hops {W : Type} (G : Graph W) (u v : node) : nat :=
  Z.to_nat (get_default (nx.single_source_shortest_path_length G u) v 0).

(** ** Scenario data *)

(** A record with an author, a community and a numeric weight. *)
Definition post {W : Type} (a s : string) (w : W) : Row W :=
  mkRow (Some a) (Some s) (Num w) None.

(** The records [(a1,s1,10), (a2,s1,5), (a1,s2,1)]. *)
Definition df_scenario : DataFrame float :=
  mkDF false [post "a1" "s1" 10%float; post "a2" "s1" 5%float; post "a1" "s2" 1%float].





(** One post: the projection has the single node [a]. *)
Definition df_single : DataFrame float := mkDF false [post "a" "s" 1%float].

(** The projection of [df_scenario]. *)
Definition P_scenario : Graph Z :=
  [("a1", mkNode (Some r_author) [("a2", 1)]);
   ("a2", mkNode (Some r_author) [("a1", 1)])].

(** Never followed by a larger degree centrality. *)
Definition centrality_not_below (e1 e2 : Influencer) : Prop :=
  PrimFloat.ltb (degree_centrality e1) (degree_centrality e2) = false.

(** An author who posts in [b], and [b] as an author who posts in [c]. *)
Definition df_chain : DataFrame float :=
  mkDF false [post "a" "b" 1%float; post "b" "c" 1%float].

(** Two posts in one community, the first with a null category. *)
Definition df_null_category : DataFrame float :=
  mkDF true [mkRow (Some "a1") (Some "s1") (Num 1%float) None;
             mkRow (Some "a2") (Some "s1") (Num 1%float) (Some "unknown")].

(** A category whose only record has no author. *)
Definition df_empty_category : DataFrame float :=
  mkDF true [mkRow (Some "a1") (Some "s1") (Num 1%float) (Some "meme");
             mkRow None (Some "s1") (Num 1%float) (Some "news")].

(** The weights the kept records give the pair [u], [v], in input order. *)
Definition pair_weights {W : Type} (wone : W) (u v : node) (rows : list (Row W))
  : list W :=
  flat_map (fun r => match record_pair r with
                     | Some (a, s) =>
                         if same_pair u v a s then [row_weight wone r] else []
                     | None => []
                     end) rows.

(** The keys of the metrics dict, in the order [compute_metrics] writes
    them, for a graph with nodes and for the graph without. *)
Definition metric_keys : list string :=
  ["n_nodes"; "n_edges"; "avg_degree"; "density"; "avg_clustering";
   "n_components"; "largest_component"; "avg_shortest_path";
   "max_degree_centrality"].

Definition metric_keys_empty : list string :=
  ["n_nodes"; "n_edges"; "avg_degree"; "density"; "avg_clustering";
   "avg_shortest_path"; "n_components"; "largest_component"].

(** [x] comes before [y] in [l]. *)
Inductive before {A : Type} (x y : A) : list A -> Prop :=
| before_here l : In y l -> before x y (x :: l)
| before_skip a l : before x y l -> before x y (a :: l).

(** One pass of the pipeline on a frame (analyze.py, lines 141-144 and
    150-153): the metrics and the ranking of the projection of its graph. *)
Definition pipeline {W : Type} (wadd : W -> W -> W) (wone : W) (df : DataFrame W)
  : exc (dict pyval * list Influencer) :=
  P <- project_authors (build_bipartite_graph wadd wone df) ;;
  m <- compute_metrics P ;;
  infl <- top_influencers_by_centrality P 10 ;;
  Ok (m, infl).

(** The rows of the influencer table that one pass gives, tagged with its
    category. *)
Definition tagged (c : string) (r : dict pyval * list Influencer)
  : list InfluencerRow :=
  map (mkInfRow c) (snd r).

(** ** main (analyze.py, lines 160-165) *)

(** line 163: the column content_type is added, "unknown" on every row of
    the frame [load_processed] returns. *)
Definition add_content_type {W : Type} (df : DataFrame W) : DataFrame W :=
  mkDF true
       (map (fun r => mkRow (user_username r) (subreddit r) (likeCount r)
                            (Some "unknown"%string))
            (iterrows df)).

(** lines 161-165 *)
Definition main_analysis {W : Type} (wadd : W -> W -> W) (wone : W)
           (df : DataFrame W) : exc (Summary * list InfluencerRow) :=
  let df := if has_content_type df then df else add_content_type df in
  analyze_per_content wadd wone df.

(** ** build_author_projection (interactive_plotly.py, lines 43-69) *)

Section AuthorProjection.
Variable W : Type.
Variable wadd : W -> W -> W.
Variable wone : W.

(** lines 62-65: the weight is added to the edge, or the edge is made. *)
Definition add_weight (B : Graph W) (a s : node) (w : W) : Graph W :=
  if has_edge B a s then
    match edge_weight B a s with
    | Some w0 =>
        let w' := wadd w0 w in
        set_adj (set_adj B a s w') s a w'
    | None => B
    end
  else add_edge B a s w.

(** The body of the loop, lines 47-65: a name is labelled when it is first
    met, and keeps that label. *)
Definition add_record_once (B : Graph W) (r : Row W) : Graph W :=
  match user_username r, subreddit r with
  | Some a, Some s =>
      let B := if negb (has_node B a) then add_node B a (Some r_author) else B in
      let B := if negb (has_node B s) then add_node B s (Some r_subreddit) else B in
      add_weight B a s (row_weight wone r)
  | _, _ => B
  end.

(** lines 45-65: the graph [B] *)
Definition author_bipartite (df : DataFrame W) : Graph W :=
  fold_left add_record_once (iterrows df) empty_graph.

Definition build_author_projection (df : DataFrame W) : exc (Graph Z) :=
  let B := author_bipartite df in
  let authors := authors_of B in
  match authors with
  | [] => Ok empty_graph
  | _ :: _ => nx.weighted_projected_graph B authors
  end.
End AuthorProjection.

Arguments add_weight {W}.
Arguments add_record_once {W}.
Arguments author_bipartite {W}.
Arguments build_author_projection {W}.

(** The label a name gets from the first kept record that uses it, the
    author of a record before its community. *)
Fixpoint first_role {W : Type} (rows : list (Row W)) (n : node) : option role :=
  match rows with
  | [] => None
  | r :: rows' =>
      match record_pair r with
      | Some (a, s) =>
          if String.eqb n a then Some r_author
          else if String.eqb n s then Some r_subreddit
          else first_role rows' n
      | None => first_role rows' n
      end
  end.

(** The number of unordered pairs of nodes of [L] that an edge of [G]
    joins, a self-loop counted as a pair. *)
Fixpoint edge_pairs {W : Type} (G : Graph W) (L : list node) : Z :=
  match L with
  | [] => 0
  | x :: L' =>
      edge_pairs G L' + len (filter (has_edge G x) L')
      + (if has_edge G x x then 1 else 0)
  end.

(** ** make_plot (interactive_plotly.py, lines 71-83): the authors drawn *)

(** [sorted(l, key=key, reverse=True)] on int keys: a stable sort into
    descending order. *)
Section SortedInt.
Context {A : Type} (key : A -> Z).

Fixpoint insert_descZ (x : A) (l : list A) : list A :=
  match l with
  | [] => [x]
  | y :: l' =>
      if key x <? key y then y :: insert_descZ x l'
      else x :: l
  end.

Fixpoint sorted_reverseZ (l : list A) : list A :=
  match l with
  | [] => []
  | x :: l' => insert_descZ x (sorted_reverseZ l')
  end.
End SortedInt.

(** lines 80-81: [wdeg.items()] sorted by weighted degree, cut at [top_k] *)
Definition top_nodes (P : Graph Z) (top_k : Z) : list (node * Z) :=
  slice_to (sorted_reverseZ snd (degree_weight P)) top_k.

(** lines 76-83: the graph [subP] that is drawn, none when the projection
    has no node. *)
Definition make_plot_subP (P : Graph Z) (top_k : Z) : option (Graph Z) :=
  if number_of_nodes P =? 0 then None
  else
    let top_set := map fst (top_nodes P top_k) in
    Some (subgraph P top_set).





(** * Proofs *)

(** ** Dicts *)

Section DictFacts.
Context {V : Type}.
Implicit Types (d : dict V) (k : string) (v : V).

Lemma dict_get_set d k v k' :
    dict_get (dict_set d k v) k' =
    if String.eqb k' k then Some v else dict_get d k'.
Proof.
    induction d as [|[k0 v0] d IH]; simpl.
    - reflexivity.
    - destruct (String.eqb k k0) eqn:E; simpl.
      + apply String.eqb_eq in E; subst k0.
        destruct (String.eqb k' k); reflexivity.
      + rewrite IH. destruct (String.eqb k' k0) eqn:E0; [|reflexivity].
        apply String.eqb_eq in E0; subst k0.
        destruct (String.eqb k' k) eqn:E1; [|reflexivity].
        apply String.eqb_eq in E1; subst. rewrite String.eqb_refl in E. discriminate.
Qed.

Lemma dict_get_set_same d k v : dict_get (dict_set d k v) k = Some v.
Proof. rewrite dict_get_set, String.eqb_refl. reflexivity. Qed.

Lemma dict_get_set_other d k v k' :
    k' <> k -> dict_get (dict_set d k v) k' = dict_get d k'.
Proof.
    intros H. rewrite dict_get_set.
    destruct (String.eqb k' k) eqn:E; [|reflexivity].
    apply String.eqb_eq in E. contradiction.
Qed.

Lemma dict_get_In d k : dict_get d k <> None <-> In k (keys d).
Proof.
    induction d as [|[k0 v0] d IH]; simpl.
    - tauto.
    - destruct (String.eqb k k0) eqn:E.
      + apply String.eqb_eq in E. subst. split; [auto | discriminate].
      + apply String.eqb_neq in E. rewrite IH. split; [auto|].
        intros [H|H]; [congruence | assumption].
Qed.

Lemma dict_mem_In d k : dict_mem d k = true <-> In k (keys d).
Proof.
    unfold dict_mem. rewrite <- dict_get_In.
    destruct (dict_get d k); split; congruence.
Qed.

Lemma dict_get_Some_In d k v : dict_get d k = Some v -> In (k, v) d.
Proof.
    induction d as [|[k0 v0] d IH]; simpl; [discriminate|].
    destruct (String.eqb k k0) eqn:E.
    - apply String.eqb_eq in E. intros [= ->]. subst. auto.
    - auto.
Qed.

Lemma In_dict_get d k v : NoDup (keys d) -> In (k, v) d -> dict_get d k = Some v.
Proof.
    induction d as [|[k0 v0] d IH]; simpl; [tauto|].
    intros ND [H|H].
    - inversion H; subst. rewrite String.eqb_refl. reflexivity.
    - inversion ND as [|? ? Hn ND']; subst.
      destruct (String.eqb k k0) eqn:E.
      + apply String.eqb_eq in E. subst. exfalso. apply Hn.
        change k0 with (fst (k0, v)). apply in_map. exact H.
      + auto.
Qed.

Lemma keys_dict_set d k v :
    keys (dict_set d k v) = if dict_mem d k then keys d else keys d ++ [k].
Proof.
    unfold dict_mem. induction d as [|[k0 v0] d IH]; simpl.
    - reflexivity.
    - destruct (String.eqb k k0) eqn:E; simpl; [reflexivity|].
      rewrite IH. destruct (dict_get d k); reflexivity.
Qed.

Lemma In_keys_dict_set d k v x :
    In x (keys (dict_set d k v)) <-> x = k \/ In x (keys d).
Proof.
    rewrite keys_dict_set. destruct (dict_mem d k) eqn:E.
    - apply dict_mem_In in E. split; [auto|]. intros [->|H]; auto.
    - rewrite in_app_iff. simpl. intuition.
Qed.

Lemma NoDup_keys_dict_set d k v : NoDup (keys d) -> NoDup (keys (dict_set d k v)).
Proof.
    intros ND. rewrite keys_dict_set. destruct (dict_mem d k) eqn:E; [assumption|].
    apply NoDup_app; [assumption | repeat constructor; simpl; tauto |].
    intros x Hx. simpl. intros [<-|[]].
    apply dict_mem_In in Hx. congruence.
Qed.

Lemma length_dict_set d k v :
    len (dict_set d k v) = len d + (if dict_mem d k then 0 else 1).
Proof.
    unfold len. rewrite <- (length_map fst (dict_set d k v)), <- (length_map fst d).
    fold (keys (dict_set d k v)). fold (keys d). rewrite keys_dict_set.
    destruct (dict_mem d k); [lia|]. rewrite length_app. simpl. lia.
Qed.
End DictFacts.

Lemma mem_In x l : mem x l = true <-> In x l.
Proof.
  unfold mem. rewrite existsb_exists. split.
  - intros (y & Hy & E). apply String.eqb_eq in E. subst. assumption.
  - intros H. exists x. split; [assumption | apply String.eqb_refl].
Qed.

Lemma mem_false x l : mem x l = false <-> ~ In x l.
Proof.
  rewrite <- mem_In. destruct (mem x l); split; congruence.
Qed.

(** ** Graph operations, seen through [has_node], [nbrs] and [edge_weight] *)

Section GraphFacts.
Context {W : Type}.
Implicit Types (G : Graph W) (u v n : node) (w : W).

Lemma has_node_In G n : has_node G n = true <-> In n (nodes G).
Proof. apply dict_mem_In. Qed.

Lemma has_node_add_node G n r n' :
  has_node (add_node G n r) n' = String.eqb n' n || has_node G n'.
Proof.
  unfold add_node, has_node, dict_mem.
  destruct (dict_get G n) as [d|] eqn:E.
  - destruct r.
    + rewrite dict_get_set. destruct (String.eqb n' n); reflexivity.
    + destruct (String.eqb n' n) eqn:E'; [|reflexivity].
      apply String.eqb_eq in E'. subst. rewrite E. reflexivity.
  - rewrite dict_get_set. destruct (String.eqb n' n); reflexivity.
Qed.

Lemma nbrs_add_node G n r n' : nbrs (add_node G n r) n' = nbrs G n'.
Proof.
  unfold add_node, nbrs.
  destruct (dict_get G n) as [d|] eqn:E.
  - destruct r; [|reflexivity].
    rewrite dict_get_set. destruct (String.eqb n' n) eqn:E'; [|reflexivity].
    apply String.eqb_eq in E'. subst. rewrite E. reflexivity.
  - rewrite dict_get_set. destruct (String.eqb n' n) eqn:E'; [|reflexivity].
    apply String.eqb_eq in E'. subst. rewrite E. reflexivity.
Qed.

Lemma nodes_add_node G n r :
  nodes (add_node G n r) = if has_node G n then nodes G else nodes G ++ [n].
Proof.
  unfold add_node, has_node, nodes, dict_mem.
  destruct (dict_get G n) as [d|] eqn:E.
  - destruct r; [|reflexivity].
    rewrite keys_dict_set. unfold dict_mem. rewrite E. reflexivity.
  - rewrite keys_dict_set. unfold dict_mem. rewrite E. reflexivity.
Qed.

Lemma has_node_set_adj G u v w n : has_node (set_adj G u v w) n = has_node G n.
Proof.
  unfold set_adj, has_node, dict_mem.
  destruct (dict_get G u) as [d|] eqn:E; [|reflexivity].
  rewrite dict_get_set. destruct (String.eqb n u) eqn:E'; [|reflexivity].
  apply String.eqb_eq in E'. subst. rewrite E. reflexivity.
Qed.

Lemma nodes_set_adj G u v w : nodes (set_adj G u v w) = nodes G.
Proof.
  unfold set_adj, nodes.
  destruct (dict_get G u) as [d|] eqn:E; [|reflexivity].
  rewrite keys_dict_set.
  replace (dict_mem G u) with true; [reflexivity|].
  unfold dict_mem. rewrite E. reflexivity.
Qed.

Lemma nbrs_set_adj G u v w u' :
  nbrs (set_adj G u v w) u' =
  if String.eqb u' u && has_node G u then dict_set (nbrs G u) v w
  else nbrs G u'.
Proof.
  unfold set_adj, nbrs, has_node, dict_mem.
  destruct (dict_get G u) as [d|] eqn:E.
  - rewrite dict_get_set. destruct (String.eqb u' u); reflexivity.
  - rewrite andb_false_r. reflexivity.
Qed.

Lemma edge_weight_set_adj G u v w u' v' :
  edge_weight (set_adj G u v w) u' v' =
  if String.eqb u' u && String.eqb v' v && has_node G u then Some w
  else edge_weight G u' v'.
Proof.
  unfold edge_weight. rewrite nbrs_set_adj.
  destruct (String.eqb u' u) eqn:Eu; simpl; [|reflexivity].
  apply String.eqb_eq in Eu. subst u'.
  destruct (has_node G u); simpl.
  - rewrite dict_get_set. destruct (String.eqb v' v); reflexivity.
  - rewrite andb_false_r. reflexivity.
Qed.

Lemma bipartite_set_adj G u v w n :
  option_map bipartite (dict_get (set_adj G u v w) n) =
  option_map bipartite (dict_get G n).
Proof.
  unfold set_adj. destruct (dict_get G u) as [d|] eqn:E; [|reflexivity].
  rewrite dict_get_set. destruct (String.eqb n u) eqn:E'; [|reflexivity].
  apply String.eqb_eq in E'. subst. rewrite E. reflexivity.
Qed.

Lemma has_edge_weight G u v :
  has_edge G u v = match edge_weight G u v with Some _ => true | None => false end.
Proof. reflexivity. Qed.

Lemma has_node_add_edge G u v w n :
  has_node (add_edge G u v w) n =
  String.eqb n u || String.eqb n v || has_node G n.
Proof.
  unfold add_edge. rewrite !has_node_set_adj, !has_node_add_node.
  destruct (String.eqb n u), (String.eqb n v); reflexivity.
Qed.

Lemma nodes_add_edge G u v w :
  nodes (add_edge G u v w) = nodes (add_node (add_node G u None) v None).
Proof. unfold add_edge. rewrite !nodes_set_adj. reflexivity. Qed.

Lemma edge_weight_add_edge G u v w u' v' :
  edge_weight (add_edge G u v w) u' v' =
  if (String.eqb u' u && String.eqb v' v) || (String.eqb u' v && String.eqb v' u)
  then Some w else edge_weight G u' v'.
Proof.
  unfold add_edge. rewrite !edge_weight_set_adj, has_node_set_adj.
  rewrite !has_node_add_node, !String.eqb_refl. simpl.
  rewrite orb_true_r, !andb_true_r.
  unfold edge_weight. rewrite !nbrs_add_node.
  destruct (String.eqb u' v && String.eqb v' u) eqn:E1.
  - rewrite orb_true_r. reflexivity.
  - rewrite orb_false_r. reflexivity.
Qed.
Lemma NoDup_nodes_add_node G n (ro : option role) : NoDup (nodes G) -> NoDup (nodes (add_node G n ro)).
Proof.
  intros ND. rewrite nodes_add_node. destruct (has_node G n) eqn:E; [assumption|].
  apply NoDup_app; [assumption | repeat constructor; simpl; tauto |].
  intros x Hx. simpl. intros [<-|[]].
  apply has_node_In in Hx. congruence.
Qed.

Lemma adj_nodup_add_node G n (ro : option role) : adj_nodup G -> adj_nodup (add_node G n ro).
Proof. intros H u. unfold neighbors. rewrite nbrs_add_node. apply H. Qed.

Lemma adj_nodup_set_adj G u v w : adj_nodup G -> adj_nodup (set_adj G u v w).
Proof.
  intros H x. unfold neighbors. rewrite nbrs_set_adj.
  destruct (String.eqb x u && has_node G u); [|apply H].
  apply NoDup_keys_dict_set, H.
Qed.

End GraphFacts.

(** ** Pairs of names *)

Lemma same_pair_sym (u v a s : node) : same_pair u v a s = same_pair v u a s.
Proof.
  unfold same_pair.
  destruct (String.eqb u a), (String.eqb v s), (String.eqb u s), (String.eqb v a);
    reflexivity.
Qed.

Lemma same_pair_refl (a s : node) : same_pair a s a s = true.
Proof. unfold same_pair. rewrite !String.eqb_refl. reflexivity. Qed.

Lemma same_pair_eq (u v a s : node) :
  same_pair u v a s = true <-> (u = a /\ v = s) \/ (u = s /\ v = a).
Proof.
  unfold same_pair. rewrite orb_true_iff, !andb_true_iff, !String.eqb_eq. tauto.
Qed.

(** ** build_bipartite_graph, record by record *)

Section BuilderFacts.
Variable W : Type.
Variable wadd : W -> W -> W.
Variable wone : W.
Implicit Types (G : Graph W) (r : Row W) (u v n : node).

Lemma add_record_skip G r : record_pair r = None -> add_record wadd wone G r = G.
Proof.
  unfold record_pair, add_record.
  destruct (user_username r), (subreddit r); try discriminate; reflexivity.
Qed.

Lemma has_node_add_record G r n :
  has_node (add_record wadd wone G r) n = has_node G n || mentions n r.
Proof.
  unfold add_record, mentions, record_pair.
  destruct (user_username r) as [a|], (subreddit r) as [s|];
    try (rewrite orb_false_r; reflexivity).
  set (G2 := add_node (add_node G a (Some r_author)) s (Some r_subreddit)).
  assert (H2 : has_node G2 n = has_node G n || (String.eqb n a || String.eqb n s)).
  { unfold G2. rewrite !has_node_add_node.
    destruct (String.eqb n a), (String.eqb n s), (has_node G n); reflexivity. }
  destruct (has_edge G2 a s).
  - destruct (edge_weight G2 a s); [|exact H2].
    rewrite !has_node_set_adj. exact H2.
  - rewrite has_node_add_edge, H2.
    destruct (String.eqb n a), (String.eqb n s), (has_node G n); reflexivity.
Qed.

Lemma edge_weight_add_record G r u v :
  edge_weight (add_record wadd wone G r) u v =
  match record_pair r with
  | Some (a, s) =>
      if same_pair u v a s then upsert wadd (edge_weight G a s) (row_weight wone r)
      else edge_weight G u v
  | None => edge_weight G u v
  end.
Proof.
  unfold add_record, record_pair.
  destruct (user_username r) as [a|], (subreddit r) as [s|]; try reflexivity.
  set (G2 := add_node (add_node G a (Some r_author)) s (Some r_subreddit)).
  assert (Hw : forall x y, edge_weight G2 x y = edge_weight G x y).
  { intros x y. unfold G2, edge_weight. rewrite !nbrs_add_node. reflexivity. }
  assert (Ha : has_node G2 a = true).
  { unfold G2. rewrite !has_node_add_node, String.eqb_refl. apply orb_true_r. }
  assert (Hs : has_node G2 s = true).
  { unfold G2. rewrite !has_node_add_node, String.eqb_refl. reflexivity. }
  rewrite has_edge_weight, Hw. unfold upsert, same_pair.
  destruct (edge_weight G a s) as [w0|] eqn:E.
  - rewrite !edge_weight_set_adj, has_node_set_adj, Ha, Hs, !andb_true_r, Hw.
    destruct (String.eqb u s && String.eqb v a) eqn:E1.
    + rewrite orb_true_r. reflexivity.
    + rewrite orb_false_r. reflexivity.
  - rewrite edge_weight_add_edge, Hw. reflexivity.
Qed.

Lemma symmetric_add_record G r :
  symmetric G -> symmetric (add_record wadd wone G r).
Proof.
  intros HG u v. rewrite !edge_weight_add_record.
  destruct (record_pair r) as [[a s]|]; [|apply HG].
  rewrite (same_pair_sym v u). destruct (same_pair u v a s); [reflexivity | apply HG].
Qed.

Lemma symmetric_empty : symmetric (@empty_graph W).
Proof. intros u v. reflexivity. Qed.

Lemma symmetric_build_from rows : forall G,
  symmetric G -> symmetric (build_from wadd wone G rows).
Proof.
  unfold build_from.
  induction rows as [|r rows IH]; intros G HG; simpl; [assumption|].
  apply IH, symmetric_add_record, HG.
Qed.

Lemma edge_weight_add_record_step G r u v :
  symmetric G ->
  edge_weight (add_record wadd wone G r) u v =
  weight_step wadd wone u v (edge_weight G u v) r.
Proof.
  intros HG. rewrite edge_weight_add_record. unfold weight_step.
  destruct (record_pair r) as [[a s]|]; [|reflexivity].
  destruct (same_pair u v a s) eqn:E; [|reflexivity].
  apply same_pair_eq in E. destruct E as [[-> ->]|[-> ->]]; [reflexivity|].
  rewrite (HG s a). reflexivity.
Qed.

Lemma edge_weight_build_from rows : forall G u v,
  symmetric G ->
  edge_weight (build_from wadd wone G rows) u v =
  fold_left (weight_step wadd wone u v) rows (edge_weight G u v).
Proof.
  unfold build_from.
  induction rows as [|r rows IH]; intros G u v HG; simpl; [reflexivity|].
  rewrite IH by (apply symmetric_add_record, HG).
  rewrite edge_weight_add_record_step by assumption. reflexivity.
Qed.

Lemma has_node_build_from rows : forall G n,
  has_node (build_from wadd wone G rows) n =
  has_node G n || existsb (mentions n) rows.
Proof.
  unfold build_from.
  induction rows as [|r rows IH]; intros G n; simpl.
  - rewrite orb_false_r. reflexivity.
  - rewrite IH, has_node_add_record, orb_assoc. reflexivity.
Qed.
End BuilderFacts.

(** ** Order of the records *)

Section Permutations.
Variable W : Type.
Variable wadd : W -> W -> W.
Variable wone : W.


Lemma is_some_weight_step u v rows : forall acc,
  is_some (fold_left (weight_step wadd wone u v) rows acc) =
  is_some acc ||
  existsb (fun r => match record_pair r with
                    | Some (a, s) => same_pair u v a s
                    | None => false
                    end) rows.
Proof.
  induction rows as [|r rows IH]; intros acc; simpl.
  - rewrite orb_false_r. reflexivity.
  - rewrite IH. unfold weight_step.
    destruct (record_pair r) as [[a s]|]; simpl; [|reflexivity].
    destruct (same_pair u v a s); simpl.
    + rewrite orb_true_r. reflexivity.
    + reflexivity.
Qed.

End Permutations.


(** ** One record *)

Section OneRecord.
Variable W : Type.
Variable wadd : W -> W -> W.
Variable wone : W.
Implicit Types (G : Graph W) (r : Row W) (u v n : node).

Lemma number_of_nodes_add_node G n ro :
  number_of_nodes (add_node G n ro) =
  number_of_nodes G + (if has_node G n then 0 else 1).
Proof.
  unfold number_of_nodes, add_node, has_node, dict_mem.
  destruct (dict_get G n) as [d|] eqn:E.
  - destruct ro; [|lia].
    rewrite length_dict_set. unfold dict_mem. rewrite E. reflexivity.
  - rewrite length_dict_set. unfold dict_mem. rewrite E. reflexivity.
Qed.

Lemma number_of_nodes_set_adj G u v w :
  number_of_nodes (set_adj G u v w) = number_of_nodes G.
Proof.
  unfold number_of_nodes, len.
  rewrite <- (length_map fst (set_adj G u v w)), <- (length_map fst G).
  f_equal. exact (f_equal (@List.length node) (nodes_set_adj G u v w)).
Qed.

Lemma role_of_add_node G n ro n' :
  role_of (add_node G n ro) n' =
  if String.eqb n' n then match ro with
                          | Some _ => ro
                          | None => role_of G n
                          end
  else role_of G n'.
Proof.
  unfold role_of, add_node.
  destruct (dict_get G n) as [d|] eqn:E.
  - destruct ro.
    + rewrite dict_get_set. destruct (String.eqb n' n); reflexivity.
    + destruct (String.eqb n' n) eqn:E'; [|reflexivity].
      apply String.eqb_eq in E'. subst. rewrite E. reflexivity.
  - rewrite dict_get_set. destruct (String.eqb n' n); [|reflexivity].
    destruct ro; reflexivity.
Qed.

Lemma role_of_set_adj G u v w n : role_of (set_adj G u v w) n = role_of G n.
Proof.
  unfold role_of. pose proof (bipartite_set_adj G u v w n) as H.
  destruct (dict_get (set_adj G u v w) n), (dict_get G n); simpl in H; congruence.
Qed.

Lemma role_of_add_edge G u v w n :
  has_node G u = true -> has_node G v = true ->
  role_of (add_edge G u v w) n = role_of G n.
Proof.
  intros Hu Hv. unfold add_edge. rewrite !role_of_set_adj, !role_of_add_node.
  destruct (String.eqb n v) eqn:E1.
  - apply String.eqb_eq in E1. subst.
    destruct (String.eqb v u) eqn:E2; [|reflexivity].
    apply String.eqb_eq in E2. subst. reflexivity.
  - destruct (String.eqb n u) eqn:E2; [|reflexivity].
    apply String.eqb_eq in E2. subst. reflexivity.
Qed.

Lemma role_of_add_record G r n :
  role_of (add_record wadd wone G r) n =
  match record_pair r with
  | Some (a, s) =>
      if String.eqb n s then Some r_subreddit
      else if String.eqb n a then Some r_author
      else role_of G n
  | None => role_of G n
  end.
Proof.
  unfold add_record, record_pair.
  destruct (user_username r) as [a|], (subreddit r) as [s|]; try reflexivity.
  set (G2 := add_node (add_node G a (Some r_author)) s (Some r_subreddit)).
  assert (H2 : role_of G2 n =
               if String.eqb n s then Some r_subreddit
               else if String.eqb n a then Some r_author else role_of G n).
  { unfold G2. rewrite !role_of_add_node. reflexivity. }
  assert (Ha : has_node G2 a = true).
  { unfold G2. rewrite !has_node_add_node, String.eqb_refl. apply orb_true_r. }
  assert (Hs : has_node G2 s = true).
  { unfold G2. rewrite !has_node_add_node, String.eqb_refl. reflexivity. }
  destruct (has_edge G2 a s).
  - destruct (edge_weight G2 a s); [|exact H2].
    rewrite !role_of_set_adj. exact H2.
  - rewrite role_of_add_edge by assumption. exact H2.
Qed.

Lemma number_of_nodes_add_record G r :
  number_of_nodes (add_record wadd wone G r) =
  match record_pair r with
  | Some (a, s) =>
      number_of_nodes G + (if has_node G a then 0 else 1)
      + (if has_node G s || String.eqb s a then 0 else 1)
  | None => number_of_nodes G
  end.
Proof.
  unfold add_record, record_pair.
  destruct (user_username r) as [a|], (subreddit r) as [s|]; try reflexivity.
  set (G2 := add_node (add_node G a (Some r_author)) s (Some r_subreddit)).
  assert (H2 : number_of_nodes G2 =
               number_of_nodes G + (if has_node G a then 0 else 1)
               + (if has_node G s || String.eqb s a then 0 else 1)).
  { unfold G2. rewrite !number_of_nodes_add_node, has_node_add_node.
    rewrite (orb_comm (has_node G s)). reflexivity. }
  assert (Ha : has_node G2 a = true).
  { unfold G2. rewrite !has_node_add_node, String.eqb_refl. apply orb_true_r. }
  assert (Hs : has_node G2 s = true).
  { unfold G2. rewrite !has_node_add_node, String.eqb_refl. reflexivity. }
  destruct (has_edge G2 a s).
  - destruct (edge_weight G2 a s); [|exact H2].
    rewrite !number_of_nodes_set_adj. exact H2.
  - unfold add_edge. rewrite !number_of_nodes_set_adj, !number_of_nodes_add_node.
    rewrite has_node_add_node, Ha, Hs, orb_true_r. lia.
Qed.

(** C8: a record without author or community leaves the graph as it is;
    any other record registers its two nodes (once each, labelled author
    and subreddit) and upserts their edge, created with the record's weight
    or incremented by it, every other edge kept; the weight is 1.0 when the
    cell is missing or not numeric. *)
Theorem add_record_upserts G r :
  match user_username r, subreddit r with
  | Some a, Some s =>
      let G' := add_record wadd wone G r in
      let weight := row_weight wone r in
      has_node G' a = true /\ has_node G' s = true /\
      (forall n, has_node G' n = has_node G n || String.eqb n a || String.eqb n s) /\
      number_of_nodes G' =
        number_of_nodes G + (if has_node G a then 0 else 1)
        + (if has_node G s || String.eqb s a then 0 else 1) /\
      role_of G' s = Some r_subreddit /\
      (a <> s -> role_of G' a = Some r_author) /\
      edge_weight G' a s =
        Some match edge_weight G a s with
             | Some w0 => wadd w0 weight
             | None => weight
             end /\
      edge_weight G' s a = edge_weight G' a s /\
      (forall u v, same_pair u v a s = false ->
                   edge_weight G' u v = edge_weight G u v) /\
      match likeCount r with
      | Num w => weight = w
      | NA | NonNumeric => weight = wone
      end
  | _, _ => add_record wadd wone G r = G
  end.
Proof.
  destruct (user_username r) as [a|] eqn:Ea, (subreddit r) as [s|] eqn:Es;
    try (apply add_record_skip; unfold record_pair; rewrite Ea, ?Es; reflexivity).
  assert (Hp : record_pair r = Some (a, s))
    by (unfold record_pair; rewrite Ea, Es; reflexivity).
  cbv zeta.
  assert (Hn : forall n, has_node (add_record wadd wone G r) n =
                         has_node G n || String.eqb n a || String.eqb n s).
  { intros n. rewrite has_node_add_record. unfold mentions. rewrite Hp.
    rewrite orb_assoc. reflexivity. }
  repeat split.
  - rewrite Hn, String.eqb_refl, orb_true_r. reflexivity.
  - rewrite Hn, String.eqb_refl, orb_true_r. reflexivity.
  - exact Hn.
  - rewrite number_of_nodes_add_record, Hp. reflexivity.
  - rewrite role_of_add_record, Hp, String.eqb_refl. reflexivity.
  - intros Hne. rewrite role_of_add_record, Hp, String.eqb_refl.
    destruct (String.eqb a s) eqn:E; [|reflexivity].
    apply String.eqb_eq in E. contradiction.
  - rewrite edge_weight_add_record, Hp, same_pair_refl. reflexivity.
  - rewrite !edge_weight_add_record, Hp, same_pair_refl.
    rewrite same_pair_sym, same_pair_refl. reflexivity.
  - intros u v Huv. rewrite edge_weight_add_record, Hp, Huv. reflexivity.
  - unfold row_weight. destruct (likeCount r); reflexivity.
Qed.
End OneRecord.

(** ** The scenario of three records *)

(** C10: the records (a1,s1,10), (a2,s1,5), (a1,s2,1) give the bipartite
    edges a1-s1 (10), a2-s1 (5), a1-s2 (1) and no other, the projection on
    the nodes a1, a2 with the single edge a1-a2 of weight 1, and the metrics
    n_nodes 2, n_edges 1, density 1.0, avg_degree 1.0, n_components 1,
    largest_component 2, avg_shortest_path 1.0. *)
Theorem scenario_three_records :
  let G := build_bipartite_graph_f df_scenario in
  edge_weight G "a1" "s1" = Some 10%float /\
  edge_weight G "a2" "s1" = Some 5%float /\
  edge_weight G "a1" "s2" = Some 1%float /\
  number_of_edges G = 3 /\
  exists P,
    project_authors G = Ok P /\
    nodes P = ["a1"; "a2"] /\
    edge_weight P "a1" "a2" = Some 1 /\
    number_of_edges P = 1 /\
    exists m,
      compute_metrics P = Ok m /\
      dict_get m "n_nodes" = Some (PInt 2) /\
      dict_get m "n_edges" = Some (PInt 1) /\
      dict_get m "density" = Some (PFloat 1) /\
      dict_get m "avg_degree" = Some (PFloat 1) /\
      dict_get m "n_components" = Some (PInt 1) /\
      dict_get m "largest_component" = Some (PInt 2) /\
      dict_get m "avg_shortest_path" = Some (PFloat 1).
Proof.
  cbv zeta. repeat split; try (vm_compute; reflexivity).
  eexists. split; [vm_compute; reflexivity|].
  repeat split; try (vm_compute; reflexivity).
  eexists. split; [vm_compute; reflexivity|].
  repeat split; vm_compute; reflexivity.
Qed.

(** ** compute_metrics and top_influencers_by_centrality never raise *)

Section Totality.
Context {W : Type}.
Implicit Types (G : Graph W) (metrics : dict pyval).

Lemma truediv_ok a b : b <> 0 -> exists f, truediv a b = Ok f.
Proof.
  intros Hb. unfold truediv. destruct (b =? 0) eqn:E.
  - apply Z.eqb_eq in E. contradiction.
  - eexists. reflexivity.
Qed.

Lemma density_ok G : exists d, nx.density G = Ok d /\ exists f, pyfloat d = Ok f.
Proof.
  unfold nx.density.
  destruct ((number_of_edges G =? 0) || (number_of_nodes G <=? 1)) eqn:E.
  - exists (PInt 0). split; [reflexivity|]. eexists. reflexivity.
  - apply orb_false_iff in E. destruct E as [_ E]. apply Z.leb_gt in E.
    destruct (truediv_ok (number_of_edges G)
                (number_of_nodes G * (number_of_nodes G - 1))) as [f Hf]; [nia|].
    rewrite Hf. simpl. eexists. split; [reflexivity|]. eexists. reflexivity.
Qed.

Lemma degree_centrality_ok G : exists dc, nx.degree_centrality G = Ok dc.
Proof.
  unfold nx.degree_centrality.
  destruct (len G <=? 1) eqn:E; [eexists; reflexivity|].
  apply Z.leb_gt in E.
  destruct (len G - 1 =? 0) eqn:E0; [apply Z.eqb_eq in E0; lia|].
  eexists. reflexivity.
Qed.

Lemma len_values_degree G : len (values (degree G)) = number_of_nodes G.
Proof.
  unfold len, values, degree, number_of_nodes, len. rewrite !length_map. reflexivity.
Qed.

Lemma compute_metrics_nonempty G :
  number_of_nodes G <> 0 ->
  exists mean d,
    truediv (sumZ (values (degree G))) (len (values (degree G))) = Ok mean /\
    (exists d0, nx.density G = Ok d0 /\ pyfloat d0 = Ok d) /\
    compute_metrics G =
    Ok (centrality_block G
          (components_block G
             (clustering_block G
                [("n_nodes", PInt (number_of_nodes G));
                 ("n_edges", PInt (number_of_edges G));
                 ("avg_degree", PFloat mean); ("density", PFloat d)]))).
Proof.
  intros Hn.
  destruct (truediv_ok (sumZ (values (degree G))) (len (values (degree G))))
    as [mean Hmean]; [rewrite len_values_degree; assumption|].
  destruct (density_ok G) as (d0 & Hd0 & d & Hd).
  exists mean, d. split; [assumption|]. split; [eauto|].
  unfold compute_metrics.
  destruct (number_of_nodes G =? 0) eqn:E; [apply Z.eqb_eq in E; contradiction|].
  rewrite Hmean. simpl. rewrite Hd0. simpl. rewrite Hd. reflexivity.
Qed.

Lemma compute_metrics_total G : exists m, compute_metrics G = Ok m.
Proof.
  destruct (Z.eq_dec (number_of_nodes G) 0) as [E|E].
  - unfold compute_metrics. rewrite E. simpl. eexists. reflexivity.
  - destruct (compute_metrics_nonempty G E) as (mean & d & _ & _ & H).
    eexists. exact H.
Qed.
End Totality.

Lemma top_influencers_total (P : Graph Z) (topk : Z) :
  exists l, top_influencers_by_centrality P topk = Ok l.
Proof.
  unfold top_influencers_by_centrality.
  destruct (number_of_nodes P =? 0); [eexists; reflexivity|].
  destruct (degree_centrality_ok P) as [dc Hdc]. rewrite Hdc. simpl.
  eexists. reflexivity.
Qed.

(** ** The metrics dict, key by key *)

Section MetricsView.
Context {W : Type}.
Implicit Types (G : Graph W) (metrics : dict pyval) (k : string).

Lemma pymaxZ_key {A : Type} (key : A -> Z) (l : list A) : forall x,
  pymaxZ (key x) (map key l) = key (pymax_key key x l).
Proof.
  induction l as [|y l IH]; intros x; simpl; [reflexivity|].
  destruct (key x <? key y); apply IH.
Qed.

Lemma largest_component_len G :
  match nx.connected_components G with
  | [] => 0
  | c :: cs => pymaxZ (len c) (map len cs)
  end = len (largest_cc G).
Proof.
  unfold largest_cc. destruct (nx.connected_components G) as [|c cs].
  - reflexivity.
  - apply pymaxZ_key.
Qed.

Lemma dict_get_clustering_block G metrics k :
  dict_get (clustering_block G metrics) k =
  if String.eqb k "avg_clustering"
  then Some match nx.average_clustering G with
            | Ok c => PFloat c
            | Raise _ => PNone
            end
  else dict_get metrics k.
Proof.
  unfold clustering_block.
  destruct (nx.average_clustering G); apply dict_get_set.
Qed.

Lemma dict_get_components_block G metrics k :
  dict_get (components_block G metrics) k =
  if String.eqb k "avg_shortest_path" then
    Some (if 1 <? len (largest_cc G)
          then match avg_path_value G with
               | Ok f => PFloat f
               | Raise _ => PNone
               end
          else PNone)
  else if String.eqb k "largest_component" then
    Some (if 1 <? len (largest_cc G)
          then match avg_path_value G with
               | Ok _ => PInt (len (largest_cc G))
               | Raise _ => PNone
               end
          else PInt (len (largest_cc G)))
  else if String.eqb k "n_components" then
    Some (if 1 <? len (largest_cc G)
          then match avg_path_value G with
               | Ok _ => PInt (len (nx.connected_components G))
               | Raise _ => PNone
               end
          else PInt (len (nx.connected_components G)))
  else dict_get metrics k.
Proof.
  unfold components_block, components_body.
  rewrite largest_component_len. unfold avg_path_value, largest_cc.
  destruct (1 <? len (largest_cc G)) eqn:E; unfold largest_cc in E; rewrite E.
  - destruct (nx.connected_components G) as [|c cs] eqn:Ec.
    + simpl in E. discriminate.
    + destruct (a <- nx.average_shortest_path_length
                       (subgraph G (pymax_key len c cs)) ;; pyfloat a);
        rewrite !dict_get_set;
        destruct (String.eqb k "avg_shortest_path"),
                 (String.eqb k "largest_component"),
                 (String.eqb k "n_components"); reflexivity.
  - rewrite !dict_get_set. reflexivity.
Qed.

Lemma dict_get_centrality_block G metrics k :
  number_of_nodes G <> 0 ->
  dict_get (centrality_block G metrics) k =
  if String.eqb k "max_degree_centrality" then
    Some (PFloat (if number_of_nodes G <=? 1 then 1%float
                  else match centralities G with
                       | [] => 0%float
                       | c :: cs => pymaxF c cs
                       end))
  else dict_get metrics k.
Proof.
  intros Hn. unfold centrality_block, nx.degree_centrality, number_of_nodes in *.
  destruct (len G <=? 1) eqn:E.
  - destruct G as [|nd G]; [contradiction|]. simpl.
    destruct G as [|nd' G].
    + simpl. apply dict_get_set.
    + apply Z.leb_le in E. unfold len in E. simpl in E. lia.
  - apply Z.leb_gt in E.
    destruct (len G - 1 =? 0) eqn:E0; [apply Z.eqb_eq in E0; lia|].
    simpl. unfold centralities, values, number_of_nodes. rewrite map_map. simpl.
    destruct (degree G); simpl; apply dict_get_set.
Qed.

Lemma dict_get_compute_metrics_empty G :
  number_of_nodes G = 0 ->
  compute_metrics G =
  Ok [("n_nodes", PInt 0); ("n_edges", PInt (number_of_edges G));
      ("avg_degree", PInt 0); ("density", PInt 0);
      ("avg_clustering", PNone); ("avg_shortest_path", PNone);
      ("n_components", PInt 0); ("largest_component", PInt 0)].
Proof.
  intros E. unfold compute_metrics. rewrite E. reflexivity.
Qed.
End MetricsView.

(** ** The order of binary64 floats *)

Ltac cmp_facts :=
  repeat match goal with
         | H : Z.compare ?a ?b = _ |- _ =>
             first [ apply Z.compare_eq in H
                   | apply (proj1 (Z.compare_lt_iff a b)) in H
                   | apply (proj1 (Z.compare_gt_iff a b)) in H ]
         | H : Pos.compare ?a ?b = _ |- _ =>
             first [ apply Pos.compare_eq in H
                   | apply (proj1 (Pos.compare_lt_iff a b)) in H
                   | apply (proj1 (Pos.compare_gt_iff a b)) in H ]
         end.

Ltac cmp_split :=
  repeat match goal with
         | |- context [Z.compare ?a ?b] => destruct (Z.compare a b) eqn:?
         | |- context [Pos.compare_cont Eq ?a ?b] =>
             change (Pos.compare_cont Eq a b) with (Pos.compare a b);
             destruct (Pos.compare a b) eqn:?
         end; simpl; try discriminate; try reflexivity.

Ltac sf_cases x y z :=
  destruct x as [[]|[]| |[] ? ?], y as [[]|[]| |[] ? ?], z as [[]|[]| |[] ? ?];
  simpl; try discriminate; try reflexivity; try congruence.

Lemma SFltb_trans x y z :
  SFltb x y = true -> SFltb y z = true -> SFltb x z = true.
Proof.
  unfold SFltb. sf_cases x y z.
  all: cmp_split.
  all: cmp_facts; intros; subst; try lia.
Qed.

Lemma SFltb_negtrans x y z :
  y <> S754_nan -> SFltb x y = false -> SFltb y z = false -> SFltb x z = false.
Proof.
  unfold SFltb. sf_cases x y z.
  all: intros _.
  all: cmp_split.
  all: cmp_facts; intros; subst; try lia.
Qed.

Lemma SFltb_asym x y : SFltb x y = true -> SFltb y x = false.
Proof.
  unfold SFltb.
  destruct x as [[]|[]| |[] ? ?], y as [[]|[]| |[] ? ?];
    simpl; try discriminate; try reflexivity.
  all: cmp_split.
  all: cmp_facts; intros; subst; try lia.
Qed.

Lemma ltb_asym (x y : float) : PrimFloat.ltb x y = true -> PrimFloat.ltb y x = false.
Proof. rewrite !ltb_spec. apply SFltb_asym. Qed.

Lemma ltb_trans (x y z : float) :
  PrimFloat.ltb x y = true -> PrimFloat.ltb y z = true -> PrimFloat.ltb x z = true.
Proof. rewrite !ltb_spec. apply SFltb_trans. Qed.

Lemma ltb_negtrans (x y z : float) :
  Prim2SF y <> S754_nan ->
  PrimFloat.ltb x y = false -> PrimFloat.ltb y z = false -> PrimFloat.ltb x z = false.
Proof. rewrite !ltb_spec. apply SFltb_negtrans. Qed.

Lemma ltb_nan_l (x y : float) : Prim2SF x = S754_nan -> PrimFloat.ltb x y = false.
Proof. rewrite ltb_spec. intros ->. reflexivity. Qed.

Lemma ltb_irrefl (x : float) : PrimFloat.ltb x x = false.
Proof.
  destruct (PrimFloat.ltb x x) eqn:E; [|reflexivity].
  rewrite (ltb_asym _ _ E) in E. discriminate.
Qed.

(** Between two floats that are not NaN, "not below" is "at least". *)
Lemma ltb_false_leb (x y : float) :
  Prim2SF x <> S754_nan -> Prim2SF y <> S754_nan ->
  PrimFloat.ltb x y = false -> PrimFloat.leb y x = true.
Proof.
  rewrite ltb_spec, leb_spec. unfold SFltb, SFleb.
  destruct (Prim2SF x) as [[]|[]| |[] ? ?], (Prim2SF y) as [[]|[]| |[] ? ?];
    simpl; try congruence; try reflexivity.
  all: intros _ _.
  all: cmp_split.
  all: cmp_facts; intros; subst; try lia; try discriminate.
Qed.

(** [max] returns an element that no element exceeds. *)
Lemma pymaxF_max (l : list float) : forall x,
  In (pymaxF x l) (x :: l) /\
  (forall y, In y (x :: l) -> PrimFloat.ltb (pymaxF x l) y = false) /\
  (Prim2SF x = S754_nan -> pymaxF x l = x).
Proof.
  induction l as [|y l IH]; intros x; simpl.
  - split; [auto|]. split; [|reflexivity].
    intros z [<-|[]]. apply ltb_irrefl.
  - destruct (PrimFloat.ltb x y) eqn:E.
    + destruct (IH y) as (Hin & Hmax & _). split; [simpl in Hin; tauto|].
      split.
      * intros z [<-|Hz]; [|apply Hmax; exact Hz].
        destruct (PrimFloat.ltb (pymaxF y l) x) eqn:E'; [|reflexivity].
        rewrite <- (Hmax y (or_introl eq_refl)). symmetry.
        eapply ltb_trans; eassumption.
      * intros Hnan. rewrite (ltb_nan_l x y Hnan) in E. discriminate.
    + destruct (IH x) as (Hin & Hmax & Hnan). split; [simpl in Hin; tauto|].
      split; [|exact Hnan].
      intros z [<-|[<-|Hz]].
      * apply Hmax. left. reflexivity.
      * assert (Hd : Prim2SF x = S754_nan \/ Prim2SF x <> S754_nan)
          by (destruct (Prim2SF x); [right|right|left|right]; congruence).
        destruct Hd as [Hx|Hx].
        -- rewrite (Hnan Hx). exact E.
        -- apply (ltb_negtrans _ x _ Hx); [|exact E].
           apply Hmax. left. reflexivity.
      * apply Hmax. right. exact Hz.
Qed.

(** ** Totality of the metrics and of the ranking *)

Lemma compute_metrics_lookup {W : Type} (G : Graph W) :
  number_of_nodes G <> 0 ->
  exists m,
    compute_metrics G = Ok m /\
    dict_get m "max_degree_centrality" =
      Some (PFloat (if number_of_nodes G <=? 1 then 1%float
                    else match centralities G with
                         | [] => 0%float
                         | c :: cs => pymaxF c cs
                         end)) /\
    dict_get m "avg_shortest_path" =
      Some (if 1 <? len (largest_cc G)
            then match avg_path_value G with
                 | Ok f => PFloat f
                 | Raise _ => PNone
                 end
            else PNone) /\
    dict_get m "largest_component" =
      Some (if 1 <? len (largest_cc G)
            then match avg_path_value G with
                 | Ok _ => PInt (len (largest_cc G))
                 | Raise _ => PNone
                 end
            else PInt (len (largest_cc G))) /\
    dict_get m "n_components" =
      Some (if 1 <? len (largest_cc G)
            then match avg_path_value G with
                 | Ok _ => PInt (len (nx.connected_components G))
                 | Raise _ => PNone
                 end
            else PInt (len (nx.connected_components G))) /\
    dict_get m "avg_clustering" =
      Some match nx.average_clustering G with
           | Ok c => PFloat c
           | Raise _ => PNone
           end.
Proof.
  intros E. destruct (compute_metrics_nonempty G E) as (mean & d & _ & _ & H).
  rewrite H. eexists. split; [reflexivity|].
  rewrite !dict_get_centrality_block, !dict_get_components_block,
    !dict_get_clustering_block by assumption.
  repeat split; reflexivity.
Qed.

(** C3: on every graph, the graph without nodes and the degenerate ones
    included, [compute_metrics] and [top_influencers_by_centrality] return
    and raise nothing; a metric networkx cannot compute (its call raises, or
    the largest component has at most one node) is stored as [None]. *)
Theorem metrics_and_ranking_never_raise {W : Type} (G : Graph W)
        (P : Graph Z) (topk : Z) :
  (exists m,
      compute_metrics G = Ok m /\
      (number_of_nodes G = 0 ->
       dict_get m "avg_clustering" = Some PNone /\
       dict_get m "avg_shortest_path" = Some PNone) /\
      (number_of_nodes G <> 0 ->
       (forall e, nx.average_clustering G = Raise e ->
                  dict_get m "avg_clustering" = Some PNone) /\
       (len (largest_cc G) <= 1 ->
        dict_get m "avg_shortest_path" = Some PNone) /\
       (1 < len (largest_cc G) ->
        forall e, avg_path_value G = Raise e ->
                  dict_get m "avg_shortest_path" = Some PNone /\
                  dict_get m "n_components" = Some PNone /\
                  dict_get m "largest_component" = Some PNone))) /\
  (exists l, top_influencers_by_centrality P topk = Ok l) /\
  (number_of_nodes P = 0 -> top_influencers_by_centrality P topk = Ok []).
Proof.
  split; [|split].
  - destruct (Z.eq_dec (number_of_nodes G) 0) as [E|E].
    + rewrite (dict_get_compute_metrics_empty G E). eexists. split; [reflexivity|].
      split; [intros _; split; reflexivity | contradiction].
    + destruct (compute_metrics_lookup G E) as (m & Hm & _ & Hp & Hl & Hc & Ha).
      exists m. split; [assumption|]. split; [contradiction|]. intros _.
      split; [|split].
      * intros e He. rewrite Ha, He. reflexivity.
      * intros Hle. apply Z.ltb_ge in Hle. rewrite Hp, Hle. reflexivity.
      * intros Hlt e He. apply Z.ltb_lt in Hlt.
        rewrite Hp, Hl, Hc, Hlt, He. repeat split; reflexivity.
  - apply top_influencers_total.
  - intros E. unfold top_influencers_by_centrality. rewrite E. reflexivity.
Qed.

(** ** max_degree_centrality *)

(** C5, as it holds: without nodes the key is not written at all (a null
    cell of the summary table); with one node the value is 1.0; with more it
    is a degree centrality [degree * (1.0 / (N - 1.0))] of the graph that no
    other one exceeds. *)
Theorem max_degree_centrality_value {W : Type} (G : Graph W) :
  exists m,
    compute_metrics G = Ok m /\
    (number_of_nodes G = 0 -> dict_get m "max_degree_centrality" = None) /\
    (number_of_nodes G = 1 ->
     dict_get m "max_degree_centrality" = Some (PFloat 1)) /\
    (1 < number_of_nodes G ->
     exists c,
       dict_get m "max_degree_centrality" = Some (PFloat c) /\
       In c (centralities G) /\
       forall c', In c' (centralities G) -> PrimFloat.ltb c c' = false).
Proof.
  destruct (Z.eq_dec (number_of_nodes G) 0) as [E|E].
  - rewrite (dict_get_compute_metrics_empty G E). eexists. split; [reflexivity|].
    split; [reflexivity|]. split; intros; lia.
  - destruct (compute_metrics_lookup G E) as (m & Hm & Hc & _).
    exists m. split; [assumption|]. split; [contradiction|]. split.
    + intros E1. rewrite Hc, E1. reflexivity.
    + intros Hlt. rewrite Hc.
      destruct (number_of_nodes G <=? 1) eqn:E1; [apply Z.leb_le in E1; lia|].
      destruct (centralities G) as [|c cs] eqn:Ecs.
      * exfalso. unfold centralities, degree in Ecs.
        destruct G; [apply E; reflexivity | discriminate].
      * destruct (pymaxF_max cs c) as (Hin & Hmax & _).
        exists (pymaxF c cs). split; [reflexivity|]. split; assumption.
Qed.

(** C5, as stated, fails on one post: the projection has the single node
    [a], and max_degree_centrality is 1.0, neither null nor 0. *)
Lemma max_degree_centrality_single_node :
  exists P m,
    project_authors (build_bipartite_graph_f df_single) = Ok P /\
    number_of_nodes P = 1 /\
    compute_metrics P = Ok m /\
    dict_get m "max_degree_centrality" = Some (PFloat 1) /\
    PrimFloat.eqb 1 0 = false.
Proof.
  eexists. eexists. split; [vm_compute; reflexivity|].
  split; [reflexivity|]. split; [vm_compute; reflexivity|].
  split; reflexivity.
Qed.

(** ** The ranking *)

Section Ranking.
Context {A : Type} (key : A -> float).

Let not_below (x y : A) : Prop := PrimFloat.ltb (key x) (key y) = false.

Lemma length_insert_desc x l :
  List.length (insert_desc key x l) = S (List.length l).
Proof.
  induction l as [|y l IH]; simpl; [reflexivity|].
  destruct (PrimFloat.ltb (key x) (key y)); simpl; [rewrite IH|]; reflexivity.
Qed.

Lemma length_sorted_reverse l :
  List.length (sorted_reverse key l) = List.length l.
Proof.
  induction l as [|x l IH]; simpl; [reflexivity|].
  rewrite length_insert_desc, IH. reflexivity.
Qed.

Lemma insert_desc_perm x l : Permutation (x :: l) (insert_desc key x l).
Proof.
  induction l as [|y l IH]; simpl; [reflexivity|].
  destruct (PrimFloat.ltb (key x) (key y)); [|reflexivity].
  rewrite perm_swap. apply perm_skip, IH.
Qed.

Lemma sorted_reverse_perm l : Permutation l (sorted_reverse key l).
Proof.
  induction l as [|x l IH]; simpl; [reflexivity|].
  rewrite <- insert_desc_perm. apply perm_skip, IH.
Qed.

Lemma HdRel_insert_desc a x l :
  not_below a x -> HdRel not_below a l -> HdRel not_below a (insert_desc key x l).
Proof.
  intros Hax Hal. destruct l as [|y l]; simpl.
  - constructor. exact Hax.
  - destruct (PrimFloat.ltb (key x) (key y)); constructor.
    + inversion Hal; assumption.
    + exact Hax.
Qed.

Lemma Sorted_insert_desc x l :
  Sorted not_below l -> Sorted not_below (insert_desc key x l).
Proof.
  induction l as [|y l IH]; intros Hl; simpl.
  - repeat constructor.
  - inversion Hl as [|? ? Hs Hh]; subst.
    destruct (PrimFloat.ltb (key x) (key y)) eqn:E.
    + constructor; [apply IH, Hs|].
      apply HdRel_insert_desc; [|exact Hh].
      unfold not_below. apply ltb_asym, E.
    + constructor; [exact Hl|]. constructor. exact E.
Qed.

Lemma Sorted_sorted_reverse l : Sorted not_below (sorted_reverse key l).
Proof.
  induction l as [|x l IH]; simpl; [constructor|].
  apply Sorted_insert_desc, IH.
Qed.
End Ranking.

Lemma Sorted_firstn {A : Type} (R : A -> A -> Prop) (l : list A) : forall n,
  Sorted R l -> Sorted R (firstn n l).
Proof.
  induction l as [|x l IH]; intros n Hl.
  - rewrite firstn_nil. constructor.
  - destruct n as [|n]; simpl; [constructor|].
    inversion Hl as [|? ? Hs Hh]; subst.
    constructor; [apply IH, Hs|].
    destruct l as [|y l]; [rewrite firstn_nil; constructor|].
    destruct n; simpl; constructor. inversion Hh; assumption.
Qed.

Lemma Sorted_map {A B : Type} (R : B -> B -> Prop) (f : A -> B) (l : list A) :
  Sorted (fun x y => R (f x) (f y)) l -> Sorted R (map f l).
Proof.
  induction l as [|x l IH]; intros Hl; simpl; [constructor|].
  inversion Hl as [|? ? Hs Hh]; subst.
  constructor; [apply IH, Hs|].
  destruct l as [|y l]; simpl; constructor. inversion Hh; assumption.
Qed.

Lemma slice_to_firstn {A : Type} (l : list A) (k : Z) :
  exists n, slice_to l k = firstn n l.
Proof. unfold slice_to. destruct (k <? 0); eexists; reflexivity. Qed.

Lemma len_slice_to {A : Type} (l : list A) (k : Z) :
  0 <= k -> len (slice_to l k) = Z.min k (len l).
Proof.
  intros Hk. unfold slice_to.
  destruct (k <? 0) eqn:E; [apply Z.ltb_lt in E; lia|].
  unfold len. rewrite length_firstn. lia.
Qed.

(** C7, as it holds: for every projected graph and every [topK >= 0] the
    ranking returns, has [min(topK, number of nodes)] entries, each the
    degree centrality of a node of the graph, none followed by a larger
    one (by [ltb_false_leb], each at least the next unless one is NaN), and
    is empty on the graph without nodes. *)
Theorem top_influencers_length_sorted (P : Graph Z) (topk : Z) :
  0 <= topk ->
  exists l,
    top_influencers_by_centrality P topk = Ok l /\
    len l = Z.min topk (number_of_nodes P) /\
    Sorted centrality_not_below l /\
    (exists dc,
        nx.degree_centrality P = Ok dc /\
        forall e, In e l ->
                  In (author e) (nodes P) /\
                  degree_centrality e = get_default dc (author e) 0%float) /\
    (number_of_nodes P = 0 -> l = []).
Proof.
  intros Hk. destruct (degree_centrality_ok P) as [dc Hdc].
  unfold top_influencers_by_centrality.
  destruct (number_of_nodes P =? 0) eqn:E.
  - apply Z.eqb_eq in E. exists []. split; [reflexivity|].
    split; [unfold len; simpl; lia|]. split; [constructor|].
    split; [|reflexivity]. exists dc. split; [assumption|]. intros e [].
  - apply Z.eqb_neq in E. rewrite Hdc. simpl.
    remember (fun x : string => get_default dc x 0%float) as key eqn:Hkey.
    eexists. split; [reflexivity|]. split; [|split; [|split]].
    + unfold len at 1. rewrite length_map.
      change (len (slice_to (sorted_reverse key (nodes P)) topk) =
              Z.min topk (number_of_nodes P)).
      rewrite len_slice_to by assumption.
      unfold len, number_of_nodes, len, nodes, keys.
      rewrite length_sorted_reverse, length_map. reflexivity.
    + apply Sorted_map.
      destruct (slice_to_firstn (sorted_reverse key (nodes P)) topk) as [n ->].
      apply Sorted_firstn. unfold centrality_not_below. simpl.
      rewrite Hkey. apply (Sorted_sorted_reverse (fun x => get_default dc x 0%float)).
    + exists dc. split; [reflexivity|]. intros e He.
      apply in_map_iff in He. destruct He as (n & <- & Hn). simpl.
      split; [|reflexivity].
      destruct (slice_to_firstn (sorted_reverse key (nodes P)) topk) as [k Hs].
      rewrite Hs in Hn.
      assert (Hn' : In n (sorted_reverse key (nodes P))).
      { rewrite <- (firstn_skipn k). apply in_or_app. left. exact Hn. }
      apply (Permutation_in _ (Permutation_sym (sorted_reverse_perm key (nodes P)))).
      exact Hn'.
    + intros E0. contradiction.
Qed.

Lemma top_influencers_length_sorted_witness :
  0 <= 1 /\
  exists l,
    top_influencers_by_centrality P_scenario 1 = Ok l /\
    len l = Z.min 1 (number_of_nodes P_scenario) /\
    Sorted centrality_not_below l /\
    (exists dc,
        nx.degree_centrality P_scenario = Ok dc /\
        forall e, In e l ->
                  In (author e) (nodes P_scenario) /\
                  degree_centrality e = get_default dc (author e) 0%float) /\
    (number_of_nodes P_scenario = 0 -> l = []).
Proof.
  split; [lia | apply (top_influencers_length_sorted P_scenario 1); lia].
Defined.

(** C7, as stated, fails for a negative [topK]: [l[:-1]] drops the last
    entry, so the two authors of the scenario give one entry, and
    [min(-1, 2)] is [-1]. *)
Lemma top_influencers_negative_topk :
  project_authors (build_bipartite_graph_f df_scenario) = Ok P_scenario /\
  exists l,
    top_influencers_by_centrality P_scenario (-1) = Ok l /\
    len l = 1 /\
    Z.min (-1) (number_of_nodes P_scenario) = -1.
Proof.
  split; [vm_compute; reflexivity|].
  eexists. split; [vm_compute; reflexivity|]. split; reflexivity.
Qed.

(** ** Invariants of the bipartite graph *)

Section BuilderInvariants.
Variable W : Type.
Variable wadd : W -> W -> W.
Variable wone : W.
Implicit Types (G : Graph W) (r : Row W) (u v n : node).

Lemma NoDup_nodes_add_record G r :
  NoDup (nodes G) -> NoDup (nodes (add_record wadd wone G r)).
Proof.
  intros ND. unfold add_record.
  destruct (user_username r) as [a|], (subreddit r) as [s|]; try assumption.
  set (G2 := add_node (add_node G a (Some r_author)) s (Some r_subreddit)).
  assert (ND2 : NoDup (nodes G2)) by (unfold G2; auto using NoDup_nodes_add_node).
  destruct (has_edge G2 a s).
  - destruct (edge_weight G2 a s); [|assumption].
    rewrite !nodes_set_adj. assumption.
  - rewrite nodes_add_edge. auto using NoDup_nodes_add_node.
Qed.

Lemma adj_nodup_add_record G r : adj_nodup G -> adj_nodup (add_record wadd wone G r).
Proof.
  intros H. unfold add_record.
  destruct (user_username r) as [a|], (subreddit r) as [s|]; try assumption.
  set (G2 := add_node (add_node G a (Some r_author)) s (Some r_subreddit)).
  assert (H2 : adj_nodup G2) by (unfold G2; auto using adj_nodup_add_node).
  destruct (has_edge G2 a s).
  - destruct (edge_weight G2 a s); [|assumption].
    auto using adj_nodup_set_adj.
  - unfold add_edge. auto using adj_nodup_set_adj, adj_nodup_add_node.
Qed.

Lemma has_edge_add_record G r u v :
  has_edge (add_record wadd wone G r) u v =
  match record_pair r with
  | Some (a, s) => same_pair u v a s || has_edge G u v
  | None => has_edge G u v
  end.
Proof.
  rewrite !has_edge_weight, edge_weight_add_record.
  destruct (record_pair r) as [[a s]|]; [|reflexivity].
  destruct (same_pair u v a s); reflexivity.
Qed.

Lemma closed_add_record G r : closed G -> closed (add_record wadd wone G r).
Proof.
  intros H u v. rewrite has_edge_add_record, !has_node_add_record. unfold mentions.
  destruct (record_pair r) as [[a s]|].
  - intros Huv. apply orb_true_iff in Huv. destruct Huv as [Huv|Huv].
    + apply same_pair_eq in Huv.
      destruct Huv as [[-> ->]|[-> ->]]; rewrite !String.eqb_refl, ?orb_true_r; auto.
    + destruct (H u v Huv) as [-> ->]. auto.
  - rewrite !orb_false_r. apply H.
Qed.

(** The labels follow the way a name is used. *)
Section Labels.
Variables isA isS : node -> bool.

Local Abbreviation labelled := (labelled isA isS).
Local Abbreviation across := (across isA isS).
Local Abbreviation well_used := (well_used isA isS).

Lemma labelled_add_record G r :
  well_used r -> labelled G -> labelled (add_record wadd wone G r).
Proof.
  intros Hr HG n. rewrite has_node_add_record, role_of_add_record. unfold mentions.
  destruct (record_pair r) as [[a s]|] eqn:Ep.
  - destruct (Hr a s Ep) as [Ha Hs].
    destruct (String.eqb n s) eqn:E1.
    + apply String.eqb_eq in E1. subst. auto.
    + destruct (String.eqb n a) eqn:E2.
      * apply String.eqb_eq in E2. subst. auto.
      * rewrite orb_false_r. apply HG.
  - rewrite orb_false_r. apply HG.
Qed.

Lemma across_add_record G r :
  well_used r -> across G -> across (add_record wadd wone G r).
Proof.
  intros Hr HG u v. rewrite has_edge_add_record.
  destruct (record_pair r) as [[a s]|] eqn:Ep; [|apply HG].
  destruct (Hr a s Ep) as [Ha Hs].
  intros Huv. apply orb_true_iff in Huv. destruct Huv as [Huv|Huv]; [|apply HG, Huv].
  apply same_pair_eq in Huv. destruct Huv as [[-> ->]|[-> ->]]; auto.
Qed.

Lemma build_from_invariants rows : forall G,
  Forall well_used rows ->
  NoDup (nodes G) -> adj_nodup G -> closed G -> labelled G -> across G ->
  let G' := build_from wadd wone G rows in
  NoDup (nodes G') /\ adj_nodup G' /\ closed G' /\ labelled G' /\ across G'.
Proof.
  unfold build_from.
  induction rows as [|r rows IH]; intros G Hrows H1 H2 H3 H4 H5; simpl.
  - auto.
  - inversion Hrows; subst.
    apply IH; try assumption.
    + apply NoDup_nodes_add_record; assumption.
    + apply adj_nodup_add_record; assumption.
    + apply closed_add_record; assumption.
    + apply labelled_add_record; assumption.
    + apply across_add_record; assumption.
Qed.
End Labels.
End BuilderInvariants.

Section BipartiteInvariant.
Context {W : Type}.
Implicit Types (G : Graph W) (n : node).

Lemma In_authors_of G n :
  NoDup (nodes G) -> (In n (authors_of G) <-> role_of G n = Some r_author).
Proof.
  intros ND. unfold authors_of, role_of. rewrite in_map_iff. split.
  - intros ([n' d] & <- & Hin). apply filter_In in Hin. destruct Hin as [Hin Hr].
    simpl in *. rewrite (In_dict_get G n' d ND Hin).
    destruct (bipartite d) as [[]|]; try discriminate. reflexivity.
  - destruct (dict_get G n) as [d|] eqn:E; [|discriminate].
    intros Hr. exists (n, d). split; [reflexivity|].
    apply filter_In. split; [apply dict_get_Some_In, E|].
    simpl. rewrite Hr. reflexivity.
Qed.

Lemma In_subreddits_of G n :
  NoDup (nodes G) -> (In n (subreddits_of G) <-> role_of G n = Some r_subreddit).
Proof.
  intros ND. unfold subreddits_of, role_of. rewrite in_map_iff. split.
  - intros ([n' d] & <- & Hin). apply filter_In in Hin. destruct Hin as [Hin Hr].
    simpl in *. rewrite (In_dict_get G n' d ND Hin).
    destruct (bipartite d) as [[]|]; try discriminate. reflexivity.
  - destruct (dict_get G n) as [d|] eqn:E; [|discriminate].
    intros Hr. exists (n, d). split; [reflexivity|].
    apply filter_In. split; [apply dict_get_Some_In, E|].
    simpl. rewrite Hr. reflexivity.
Qed.

End BipartiteInvariant.

(** ** The projection *)

Section AddEdges.
Implicit Types (G : Graph Z) (es : list (node * node * Z)).

Lemma has_edge_add_edge {W : Type} (G : Graph W) u v w x y :
  has_edge (add_edge G u v w) x y = same_pair x y u v || has_edge G x y.
Proof.
  rewrite !has_edge_weight, edge_weight_add_edge. unfold same_pair.
  destruct (String.eqb x u && String.eqb y v || String.eqb x v && String.eqb y u);
    reflexivity.
Qed.

Lemma has_edge_add_edges es : forall G x y,
  has_edge (add_edges G es) x y =
  has_edge G x y ||
  existsb (fun e => same_pair x y (fst (fst e)) (snd (fst e))) es.
Proof.
  unfold add_edges.
  induction es as [|[[u v] w] es IH]; intros G x y; simpl.
  - rewrite orb_false_r. reflexivity.
  - rewrite IH, has_edge_add_edge.
    destruct (same_pair x y u v), (has_edge G x y); reflexivity.
Qed.

Lemma edge_weight_add_edges es : forall G x y w,
  edge_weight (add_edges G es) x y = Some w ->
  edge_weight G x y = Some w \/
  exists e, In e es /\ same_pair x y (fst (fst e)) (snd (fst e)) = true /\ w = snd e.
Proof.
  unfold add_edges.
  induction es as [|[[u v] w0] es IH]; intros G x y w; simpl.
  - auto.
  - intros H. apply IH in H. destruct H as [H|(e & He & Hp & Hw)].
    + rewrite edge_weight_add_edge in H. fold (same_pair x y u v) in H.
      destruct (same_pair x y u v) eqn:E; [|auto].
      right. exists (u, v, w0). simpl. injection H as <-. auto.
    + right. exists e. auto.
Qed.

Lemma nodes_add_edges es : forall G,
  (forall e, In e es -> has_node G (fst (fst e)) = true /\
                        has_node G (snd (fst e)) = true) ->
  nodes (add_edges G es) = nodes G.
Proof.
  unfold add_edges.
  induction es as [|[[u v] w] es IH]; intros G H; simpl; [reflexivity|].
  destruct (H (u, v, w) (or_introl eq_refl)) as [Hu Hv]. simpl in Hu, Hv.
  assert (E : nodes (add_edge G u v w) = nodes G).
  { rewrite nodes_add_edge, !nodes_add_node, has_node_add_node, Hu, Hv.
    rewrite orb_true_r. reflexivity. }
  rewrite IH; [exact E|].
  intros e He. destruct (H e (or_intror He)) as [H1 H2].
  rewrite !has_node_add_edge, H1, H2, !orb_true_r. auto.
Qed.

Lemma fold_project_node {W : Type} (B : Graph W) ns : forall G,
  fold_left (nx.project_node B) ns G = add_edges G (projected_edges B ns).
Proof.
  unfold add_edges, projected_edges.
  induction ns as [|u ns IH]; intros G; simpl; [reflexivity|].
  rewrite fold_left_app, IH. f_equal.
  unfold nx.project_node. generalize (nx.nbrs2 B u) as vs. intros vs. revert G.
  induction vs as [|v vs IHv]; intros G; simpl; [reflexivity|].
  apply IHv.
Qed.

Lemma nodes_copy_nodes {W : Type} (B : Graph W) ns : forall G,
  NoDup (nodes G ++ ns) ->
  nodes (fold_left (nx.copy_node B) ns G) = nodes G ++ ns.
Proof.
  induction ns as [|n ns IH]; intros G ND; simpl.
  - rewrite app_nil_r. reflexivity.
  - assert (Hn : has_node G n = false).
    { destruct (has_node G n) eqn:E; [|reflexivity].
      apply has_node_In in E. apply NoDup_remove_2 in ND.
      exfalso. apply ND. apply in_or_app. left. exact E. }
    assert (E : nodes (nx.copy_node B G n) = nodes G ++ [n]).
    { unfold nx.copy_node. destruct (dict_get B n);
        rewrite nodes_add_node, Hn; reflexivity. }
    rewrite IH; rewrite E, <- app_assoc; [reflexivity|exact ND].
Qed.

Lemma nbrs_copy_nodes {W : Type} (B : Graph W) ns : forall G x,
  nbrs (fold_left (nx.copy_node B) ns G) x = nbrs G x.
Proof.
  induction ns as [|n ns IH]; intros G x; simpl; [reflexivity|].
  rewrite IH. unfold nx.copy_node. destruct (dict_get B n); apply nbrs_add_node.
Qed.
End AddEdges.

Lemma NoDup_map_fst_filter {V : Type} (f : string * V -> bool) (d : dict V) :
  NoDup (keys d) -> NoDup (map fst (filter f d)).
Proof.
  unfold keys. induction d as [|[n v] d IH]; simpl; intros H; [constructor|].
  inversion H as [|? ? Hn H']; subst.
  destruct (f (n, v)); simpl; [|apply IH, H'].
  constructor; [|apply IH, H'].
  intros Hin. apply Hn. apply in_map_iff in Hin.
  destruct Hin as ([n' v'] & <- & Hin). apply filter_In in Hin.
  apply in_map_iff. exists (n', v'). tauto.
Qed.

Section ProjectionFacts.
Context {W : Type}.
Variable B : Graph W.
Hypothesis ND : NoDup (nodes B).
Hypothesis Hcl : closed B.
Hypothesis Hsym : forall u v, has_edge B u v = has_edge B v u.
Hypothesis Hbip :
  forall u v, has_edge B u v = true ->
              (role_of B u = Some r_author /\ role_of B v = Some r_subreddit) \/
              (role_of B u = Some r_subreddit /\ role_of B v = Some r_author).

Lemma In_neighbors (G : Graph W) u c : In c (neighbors G u) <-> has_edge G u c = true.
Proof. unfold neighbors, has_edge. symmetry. apply dict_mem_In. Qed.

Lemma In_set_of l (x : node) : In x (nx.set_of l) <-> In x l.
Proof. apply nodup_In. Qed.

Lemma In_nbrs2 u v :
  In v (nx.nbrs2 B u) <->
  v <> u /\ exists c, has_edge B u c = true /\ has_edge B c v = true.
Proof.
  unfold nx.nbrs2. split.
  - intros H. apply in_remove in H. destruct H as [H Hne]. split; [exact Hne|].
    apply In_set_of, in_flat_map in H. destruct H as (c & Hc & Hv).
    exists c. split; [apply In_neighbors, In_set_of, Hc | apply In_neighbors, Hv].
  - intros (Hne & c & Hc & Hv). apply in_in_remove; [exact Hne|].
    apply In_set_of, in_flat_map. exists c.
    split; [apply In_set_of, In_neighbors, Hc | apply In_neighbors, Hv].
Qed.

Lemma In_common u v c :
  In c (nx.common B u v) <-> has_edge B u c = true /\ has_edge B v c = true.
Proof.
  unfold nx.common. rewrite filter_In, mem_In, !In_set_of, !In_neighbors. tauto.
Qed.

Lemma NoDup_common u v : NoDup (nx.common B u v).
Proof. unfold nx.common. apply NoDup_filter, NoDup_nodup. Qed.

Lemma In_shared u v c :
  In c (shared_communities B u v) <->
  role_of B c = Some r_subreddit /\ has_edge B u c = true /\ has_edge B v c = true.
Proof.
  unfold shared_communities.
  rewrite filter_In, (In_subreddits_of B c ND), andb_true_iff. tauto.
Qed.

Lemma author_neighbour u c :
  role_of B u = Some r_author -> has_edge B u c = true ->
  role_of B c = Some r_subreddit.
Proof.
  intros Hu Huc. destruct (Hbip u c Huc) as [[_ H]|[H _]]; [exact H | congruence].
Qed.

Lemma subreddit_neighbour c v :
  role_of B c = Some r_subreddit -> has_edge B c v = true ->
  role_of B v = Some r_author.
Proof.
  intros Hc Hcv. destruct (Hbip c v Hcv) as [[H _]|[_ H]]; [congruence | exact H].
Qed.

Lemma len_common_shared u v :
  role_of B u = Some r_author ->
  len (nx.common B u v) = len (shared_communities B u v).
Proof.
  intros Hu. unfold len. f_equal. apply Permutation_length, NoDup_Permutation.
  - apply NoDup_common.
  - unfold shared_communities. apply NoDup_filter.
    unfold subreddits_of. apply NoDup_map_fst_filter, ND.
  - intros c. rewrite In_common, In_shared. split; [|tauto].
    intros [H1 H2]. split; [|auto]. eapply author_neighbour; eassumption.
Qed.

Lemma shared_sym u v :
  shared_communities B u v = shared_communities B v u.
Proof.
  unfold shared_communities. apply filter_ext. intros c. apply andb_comm.
Qed.

Lemma In_projected_edges ns e :
  In e (projected_edges B ns) <->
  In (fst (fst e)) ns /\ In (snd (fst e)) (nx.nbrs2 B (fst (fst e))) /\
  snd e = len (nx.common B (fst (fst e)) (snd (fst e))).
Proof.
  unfold projected_edges. rewrite in_flat_map. split.
  - intros (u & Hu & He). apply in_map_iff in He. destruct He as (v & <- & Hv).
    simpl. auto.
  - destruct e as [[u v] w]. simpl. intros (Hu & Hv & ->).
    exists u. split; [exact Hu|]. apply in_map_iff. exists v. auto.
Qed.

(** The second neighbours of an author are the other authors it shares a
    community with. *)
Lemma author_nbrs2 u v :
  role_of B u = Some r_author ->
  (In v (nx.nbrs2 B u) <->
   u <> v /\ role_of B v = Some r_author /\ shared_communities B u v <> []).
Proof.
  intros Hu. rewrite In_nbrs2. split.
  - intros (Hne & c & Huc & Hcv).
    assert (Hc : role_of B c = Some r_subreddit) by (eapply author_neighbour; eassumption).
    split; [congruence|]. split; [eapply subreddit_neighbour; eassumption|].
    intros E. assert (Hin : In c (shared_communities B u v)).
    { apply In_shared. rewrite (Hsym v c). auto. }
    rewrite E in Hin. destruct Hin.
  - intros (Hne & Hv & Hs). split; [congruence|].
    destruct (shared_communities B u v) as [|c l] eqn:E; [contradiction|].
    assert (Hin : In c (shared_communities B u v)) by (rewrite E; left; reflexivity).
    apply In_shared in Hin. destruct Hin as (_ & H1 & H2).
    exists c. rewrite (Hsym c v). auto.
Qed.
End ProjectionFacts.

Lemma filter_length_lt {A : Type} (f : A -> bool) (l : list A) (x : A) :
  In x l -> f x = false -> (List.length (filter f l) < List.length l)%nat.
Proof.
  induction l as [|y l IH]; simpl; [tauto|].
  intros [->|Hin] Hx.
  - rewrite Hx. pose proof (filter_length_le f l). lia.
  - specialize (IH Hin Hx). destruct (f y); simpl; lia.
Qed.

Lemma project_authors_spec {W : Type} (B : Graph W) :
  NoDup (nodes B) ->
  closed B ->
  (forall u v, has_edge B u v = has_edge B v u) ->
  (forall u v, has_edge B u v = true ->
               (role_of B u = Some r_author /\ role_of B v = Some r_subreddit) \/
               (role_of B u = Some r_subreddit /\ role_of B v = Some r_author)) ->
  (exists s, role_of B s = Some r_subreddit) ->
  exists P,
    project_authors B = Ok P /\ nodes P = authors_of B /\ projection_spec B P.
Proof.
  intros ND Hcl Hsym Hbip (s & Hs).
  assert (Hauth : forall n, In n (authors_of B) <-> role_of B n = Some r_author)
    by (intros n; apply In_authors_of, ND).
  assert (NDa : NoDup (authors_of B))
    by (unfold authors_of; apply NoDup_map_fst_filter, ND).
  set (G0 := fold_left (nx.copy_node B) (authors_of B) (@empty_graph Z)).
  set (es := projected_edges B (authors_of B)).
  assert (HG0 : nodes G0 = authors_of B).
  { unfold G0. rewrite nodes_copy_nodes; [reflexivity | exact NDa]. }
  assert (HG0e : forall x y, edge_weight G0 x y = None).
  { intros x y. unfold edge_weight, G0. rewrite nbrs_copy_nodes. reflexivity. }
  assert (Hes : forall e, In e es ->
                  role_of B (fst (fst e)) = Some r_author /\
                  fst (fst e) <> snd (fst e) /\
                  role_of B (snd (fst e)) = Some r_author /\
                  shared_communities B (fst (fst e)) (snd (fst e)) <> [] /\
                  snd e = len (shared_communities B (fst (fst e)) (snd (fst e)))).
  { intros e He. apply In_projected_edges in He. destruct He as (Hu & Hv & Hw).
    apply Hauth in Hu. apply (author_nbrs2 B ND Hsym Hbip _ _ Hu) in Hv.
    destruct Hv as (Hne & Hv & Hsh).
    rewrite Hw, (len_common_shared B ND Hbip) by exact Hu. auto. }
  exists (add_edges G0 es).
  split; [|split].
  - unfold project_authors, nx.weighted_projected_graph.
    assert (Hlt : (List.length (authors_of B) < List.length B)%nat).
    { unfold role_of in Hs. destruct (dict_get B s) as [d|] eqn:E; [|discriminate].
      unfold authors_of. rewrite length_map.
      apply (filter_length_lt _ B (s, d)); [apply dict_get_Some_In, E|].
      simpl. rewrite Hs. reflexivity. }
    destruct (len B - len (authors_of B) <? 1) eqn:E.
    + apply Z.ltb_lt in E. unfold len in E. lia.
    + rewrite fold_project_node. reflexivity.
  - rewrite nodes_add_edges; [exact HG0|].
    intros e He. destruct (Hes e He) as (Hu & _ & Hv & _).
    split; apply has_node_In; rewrite HG0; apply Hauth; assumption.
  - assert (Hedge : forall x y,
               has_edge (add_edges G0 es) x y = true <->
               x <> y /\ In x (authors_of B) /\ In y (authors_of B) /\
               shared_communities B x y <> []).
    { intros x y. rewrite has_edge_add_edges, has_edge_weight, HG0e. simpl.
      rewrite existsb_exists. split.
      - intros (e & He & Hp). destruct (Hes e He) as (Hu & Hne & Hv & Hsh & _).
        apply same_pair_eq in Hp. rewrite !Hauth.
        destruct Hp as [[-> ->]|[-> ->]]; [auto|].
        rewrite shared_sym. auto.
      - intros (Hne & Hx & Hy & Hsh). apply Hauth in Hx, Hy.
        exists (x, y, len (nx.common B x y)). simpl.
        split; [|apply same_pair_refl].
        apply In_projected_edges. simpl. split; [apply Hauth, Hx|].
        split; [|reflexivity].
        apply (author_nbrs2 B ND Hsym Hbip _ _ Hx). auto. }
    split; [|split; [exact Hedge|split]].
    + intros n. rewrite has_node_In, nodes_add_edges; [rewrite HG0; tauto|].
      intros e He. destruct (Hes e He) as (Hu & _ & Hv & _).
      split; apply has_node_In; rewrite HG0; apply Hauth; assumption.
    + intros x y Hxy. rewrite has_edge_weight in Hxy.
      destruct (edge_weight (add_edges G0 es) x y) as [w|] eqn:E; [|discriminate].
      apply edge_weight_add_edges in E. destruct E as [E|(e & He & Hp & Hw)].
      * rewrite HG0e in E. discriminate.
      * destruct (Hes e He) as (_ & _ & _ & _ & Hlen). rewrite Hw, Hlen.
        apply same_pair_eq in Hp.
        destruct Hp as [[-> ->]|[-> ->]]; [reflexivity|].
        rewrite shared_sym. reflexivity.
    + intros u. destruct (has_edge (add_edges G0 es) u u) eqn:E; [|reflexivity].
      apply Hedge in E. destruct E as [E _]. contradiction.
Qed.

(** ** The bipartite graph and its projection *)

Section BuildProjection.
Variable W : Type.
Variable wadd : W -> W -> W.
Variable wone : W.
Implicit Types (G : Graph W) (rows : list (Row W)) (n : node).

Lemma well_used_rows rows :
  Forall (well_used (fun n => mem n (authors_in rows))
                    (fun n => mem n (communities_in rows))) rows.
Proof.
  apply Forall_forall. intros r Hr a s Hp. split; apply mem_In.
  - unfold authors_in. apply in_flat_map. exists r. split; [assumption|].
    rewrite Hp. left. reflexivity.
  - unfold communities_in. apply in_flat_map. exists r. split; [assumption|].
    rewrite Hp. left. reflexivity.
Qed.

Lemma collision_free_disjoint rows n :
  collision_free rows = true ->
  mem n (authors_in rows) = true -> mem n (communities_in rows) = true -> False.
Proof.
  unfold collision_free. rewrite forallb_forall. intros H Ha Hs.
  apply mem_In in Ha. specialize (H n Ha). rewrite Hs in H. discriminate.
Qed.

Lemma build_invariants rows :
  let G := build_from wadd wone empty_graph rows in
  NoDup (nodes G) /\ adj_nodup G /\ closed G /\
  labelled (fun n => mem n (authors_in rows))
           (fun n => mem n (communities_in rows)) G /\
  across (fun n => mem n (authors_in rows))
         (fun n => mem n (communities_in rows)) G.
Proof.
  apply build_from_invariants.
  - apply well_used_rows.
  - constructor.
  - intros u. constructor.
  - intros u v H. discriminate.
  - intros n H. discriminate.
  - intros u v H. discriminate.
Qed.

Lemma build_from_bipartite_inv rows :
  collision_free rows = true ->
  bipartite_inv (build_from wadd wone empty_graph rows).
Proof.
  intros Hfree.
  destruct (build_invariants rows) as (ND & Hadj & Hcl & Hlab & Hacross).
  set (G := build_from wadd wone empty_graph rows) in *.
  split; [exact ND|]. split; [|split; [|exact Hadj]].
  - intros n Ha Hs. apply (In_authors_of G n ND) in Ha.
    apply (In_subreddits_of G n ND) in Hs. congruence.
  - intros u v Huv. destruct (Hcl u v Huv) as [Hu Hv].
    destruct (Hacross u v Huv) as [[Au Sv]|[Su Av]].
    + left. split.
      * destruct (Hlab u Hu) as [[_ H]|[H _]]; [exact H|].
        destruct (collision_free_disjoint _ u Hfree Au H).
      * destruct (Hlab v Hv) as [[H _]|[_ H]]; [|exact H].
        destruct (collision_free_disjoint _ v Hfree H Sv).
    + right. split.
      * destruct (Hlab u Hu) as [[H _]|[_ H]]; [|exact H].
        destruct (collision_free_disjoint _ u Hfree H Su).
      * destruct (Hlab v Hv) as [[_ H]|[H _]]; [exact H|].
        destruct (collision_free_disjoint _ v Hfree Av H).
Qed.

Lemma build_from_has_subreddit rows :
  collision_free rows = true -> authors_in rows <> [] ->
  exists s, role_of (build_from wadd wone empty_graph rows) s = Some r_subreddit.
Proof.
  intros Hfree Hne.
  destruct (build_invariants rows) as (_ & _ & _ & Hlab & _).
  assert (Hr : exists r a s, In r rows /\ record_pair r = Some (a, s)).
  { destruct (authors_in rows) as [|a l] eqn:E; [contradiction|].
    assert (Ha : In a (authors_in rows)) by (rewrite E; left; reflexivity).
    unfold authors_in in Ha. apply in_flat_map in Ha. destruct Ha as (r & Hr & Ha).
    destruct (record_pair r) as [[a' s]|] eqn:Ep; [|destruct Ha].
    exists r, a', s. auto. }
  destruct Hr as (r & a & s & Hr & Hp). exists s.
  assert (Hs : mem s (communities_in rows) = true).
  { apply mem_In. unfold communities_in. apply in_flat_map. exists r.
    split; [exact Hr|]. rewrite Hp. left. reflexivity. }
  assert (Hn : has_node (build_from wadd wone empty_graph rows) s = true).
  { rewrite has_node_build_from. simpl. apply existsb_exists. exists r.
    split; [exact Hr|]. unfold mentions. rewrite Hp, String.eqb_refl.
    apply orb_true_r. }
  destruct (Hlab s Hn) as [[Ha _]|[_ H]]; [|exact H].
  destruct (collision_free_disjoint _ s Hfree Ha Hs).
Qed.

Lemma build_from_closed rows : closed (build_from wadd wone empty_graph rows).
Proof. apply (build_invariants rows). Qed.

(** C9, as it holds: when no name is used both as an author and as a
    community, the graph built from the records has unique nodes in two
    disjoint partitions, every edge joins an author node and a community
    node, and no pair of nodes has two edges. *)
Theorem build_bipartite_graph_invariant (df : DataFrame W) :
  collision_free (iterrows df) = true ->
  bipartite_inv (build_bipartite_graph wadd wone df).
Proof.
  intros Hfree. apply build_from_bipartite_inv, Hfree.
Qed.

(** C1, as it holds: when no name is used both as an author and as a
    community and at least one record is kept, the projection returns a
    graph whose nodes are the authors of the bipartite graph, with an edge
    between two distinct authors exactly when they share a community,
    weighted by the number of communities they share whatever the bipartite
    weights are, and without self-loops. *)
Theorem project_authors_projection (df : DataFrame W) :
  collision_free (iterrows df) = true ->
  authors_in (iterrows df) <> [] ->
  let B := build_bipartite_graph wadd wone df in
  exists P,
    project_authors B = Ok P /\ nodes P = authors_of B /\ projection_spec B P.
Proof.
  intros Hfree Hne B. unfold B, build_bipartite_graph.
  destruct (build_from_bipartite_inv (iterrows df) Hfree) as (ND & _ & Hbip & _).
  apply project_authors_spec.
  - exact ND.
  - apply build_from_closed.
  - intros u v. rewrite !has_edge_weight.
    rewrite (symmetric_build_from W wadd wone (iterrows df) empty_graph
               (symmetric_empty W) u v).
    reflexivity.
  - exact Hbip.
  - apply build_from_has_subreddit; assumption.
Qed.
End BuildProjection.

Lemma build_bipartite_graph_invariant_witness :
  collision_free (iterrows df_scenario) = true /\
  bipartite_inv (build_bipartite_graph_f df_scenario).
Proof.
  split; [reflexivity|].
  apply (build_bipartite_graph_invariant float PrimFloat.add 1%float df_scenario).
  reflexivity.
Defined.

(** C9, as stated, fails when a name is used both ways: in [df_chain] the
    name [b] is a community and then an author, and the edge a-b joins two
    nodes labelled author. *)
Lemma build_bipartite_graph_same_partition_edge :
  has_edge (build_bipartite_graph_f df_chain) "a" "b" = true /\
  role_of (build_bipartite_graph_f df_chain) "a" = Some r_author /\
  role_of (build_bipartite_graph_f df_chain) "b" = Some r_author /\
  ~ bipartite_inv (build_bipartite_graph_f df_chain).
Proof.
  split; [reflexivity|]. split; [reflexivity|]. split; [reflexivity|].
  intros (_ & _ & H & _).
  destruct (H "a" "b" eq_refl) as [[_ E]|[E _]]; vm_compute in E; discriminate E.
Qed.


Lemma project_authors_projection_witness :
  collision_free (iterrows df_scenario) = true /\
  authors_in (iterrows df_scenario) <> [] /\
  exists P,
    project_authors (build_bipartite_graph_f df_scenario) = Ok P /\
    nodes P = authors_of (build_bipartite_graph_f df_scenario) /\
    projection_spec (build_bipartite_graph_f df_scenario) P.
Proof.
  split; [reflexivity|]. split; [discriminate|].
  apply (project_authors_projection float PrimFloat.add 1%float df_scenario).
  - reflexivity.
  - discriminate.
Defined.

(** C1, as stated, fails when a name is used both ways: in [df_chain] the
    authors are [a] and [b], and the projection also holds the node [c],
    joined to [a], which is no author. *)
Lemma project_authors_extra_node :
  authors_of (build_bipartite_graph_f df_chain) = ["a"; "b"] /\
  exists P,
    project_authors (build_bipartite_graph_f df_chain) = Ok P /\
    nodes P = ["a"; "b"; "c"] /\
    has_edge P "a" "c" = true /\
    ~ projection_spec (build_bipartite_graph_f df_chain) P.
Proof.
  split; [reflexivity|]. eexists. split; [vm_compute; reflexivity|].
  split; [reflexivity|]. split; [reflexivity|].
  intros (H & _). destruct (H "c") as [H1 _].
  specialize (H1 eq_refl). vm_compute in H1.
  destruct H1 as [E|[E|[]]]; discriminate E.
Qed.

(** ** Breadth-first search *)

Section Scan.
Implicit Types (ws seen : list node).

Lemma In_scan ws : forall seen x,
  In x (nx.scan ws seen) <-> In x ws /\ ~ In x seen.
Proof.
  induction ws as [|w ws IH]; intros seen x; simpl; [tauto|].
  destruct (mem w seen) eqn:E.
  - apply mem_In in E. rewrite IH. split; [tauto|].
    intros [[->|H] Hn]; tauto.
  - apply mem_false in E. simpl. rewrite IH. simpl. split.
    + intros [->|[H Hn]]; [tauto|]. split; [tauto|]. intros Hs. apply Hn. auto.
    + intros [[->|H] Hn]; [tauto|].
      destruct (string_dec w x) as [->|Hne]; [tauto|]. right. split; [exact H|].
      intros [H'|H']; tauto.
Qed.

Lemma NoDup_scan ws : forall seen, NoDup (nx.scan ws seen).
Proof.
  induction ws as [|w ws IH]; intros seen; simpl; [constructor|].
  destruct (mem w seen); [apply IH|].
  constructor; [|apply IH].
  rewrite In_scan. simpl. tauto.
Qed.
End Scan.

Section Walks.
Context {W : Type}.
Variable G : Graph W.
Hypothesis Hcl : closed G.
Hypothesis Hsym : forall u v, has_edge G u v = has_edge G v u.

Lemma walk_has_node u v n : walk G u v n -> has_node G v = true.
Proof.
  intros H. destruct H as [H|v w n _ H]; [exact H|]. apply (Hcl v w H).
Qed.

Lemma walk_source u v n : walk G u v n -> has_node G u = true.
Proof. induction 1; assumption. Qed.

Lemma walk_app u v w n m : walk G u v n -> walk G v w m -> walk G u w (n + m).
Proof.
  intros Huv Hvw. induction Hvw as [|x y m Hvx IH Hxy].
  - rewrite Nat.add_0_r. exact Huv.
  - rewrite Nat.add_succ_r. eapply walk_step; eassumption.
Qed.

Lemma walk_one u v : has_edge G u v = true -> walk G u v 1.
Proof.
  intros H. eapply walk_step; [|exact H]. apply walk_here, (Hcl u v H).
Qed.

Lemma walk_sym u v n : walk G u v n -> walk G v u n.
Proof.
  induction 1 as [Hu|v w n Huv IH Hvw].
  - apply walk_here, Hu.
  - change (S n) with (1 + n)%nat. eapply walk_app; [|exact IH].
    apply walk_one. rewrite Hsym. exact Hvw.
Qed.

Lemma In_expand thislevel seen x :
  In x (nx.expand G thislevel seen) <->
  (exists v, In v thislevel /\ has_edge G v x = true) /\ ~ In x seen.
Proof.
  unfold nx.expand. rewrite In_scan, in_flat_map.
  split; intros [(v & Hv & Hx) Hn]; (split; [|exact Hn]); exists v;
    (split; [exact Hv|]); apply (In_neighbors G v x); exact Hx.
Qed.
End Walks.

Section BfsLevels.
Context {W : Type}.
Variable G : Graph W.
Hypothesis Hcl : closed G.
Variable u : node.

Lemma level_inv_start : has_node G u = true -> level_inv G u [u] [u] 0.
Proof.
  intros Hu.
  assert (Hd : dist G u u 0) by (split; [apply walk_here, Hu | intros; lia]).
  split; [|split; [|split; [|split]]].
  - repeat constructor. simpl. tauto.
  - intros x [<-|[]]. apply has_node_In, Hu.
  - intros x [<-|[]]. exists 0%nat. split; [lia | exact Hd].
  - intros x d Hle Hw. inversion Hw; subst; [left; reflexivity | lia].
  - intros x. split.
    + intros [<-|[]]. exact Hd.
    + intros [Hw _]. inversion Hw; subst. left. reflexivity.
Qed.

Lemma level_inv_next seen this k :
  level_inv G u seen this k ->
  level_inv G u (seen ++ nx.expand G this seen) (nx.expand G this seen) (S k).
Proof.
  intros (ND & Hincl & Hsound & Hball & Hthis).
  assert (Hnext : forall x, In x (nx.expand G this seen) <-> dist G u x (S k)).
  { intros x. rewrite In_expand. split.
    - intros [(v & Hv & Hvx) Hn]. apply Hthis in Hv. destruct Hv as [Hv _]. split.
      + eapply walk_step; eassumption.
      + intros d' Hw. destruct (Nat.le_gt_cases (S k) d') as [|Hlt]; [assumption|].
        exfalso. apply Hn. apply (Hball x d'); [lia | exact Hw].
    - intros [Hw Hmin]. inversion Hw as [|v w n Huv Hvx]; subst. split.
      + exists v. split; [|exact Hvx]. apply Hthis. split; [exact Huv|].
        intros d' Hd'. destruct (Nat.le_gt_cases k d') as [|Hlt]; [assumption|].
        assert (Hx : walk G u x (S d')) by (eapply walk_step; eassumption).
        apply Hmin in Hx. lia.
      + intros Hs. destruct (Hsound x Hs) as (d & Hd & Hw' & _).
        apply Hmin in Hw'. lia. }
  split; [|split; [|split; [|split]]].
  - apply NoDup_app; [exact ND | apply NoDup_scan |].
    intros x Hx Hx'. apply In_expand in Hx'. tauto.
  - intros x Hx. apply in_app_or in Hx. destruct Hx as [Hx|Hx]; [apply Hincl, Hx|].
    apply Hnext in Hx. destruct Hx as [Hw _].
    apply has_node_In. eapply walk_has_node; eassumption.
  - intros x Hx. apply in_app_or in Hx. destruct Hx as [Hx|Hx].
    + destruct (Hsound x Hx) as (d & Hd & Hdist). exists d. split; [lia|exact Hdist].
    + exists (S k). split; [lia|]. apply Hnext, Hx.
  - intros x d Hd Hw. apply in_or_app.
    destruct (mem x seen) eqn:E; [left; apply mem_In, E|].
    apply mem_false in E. right. apply Hnext.
    assert (Hmin : forall d', walk G u x d' -> (S k <= d')%nat).
    { intros d' Hw'. destruct (Nat.le_gt_cases (S k) d') as [|Hlt]; [assumption|].
      exfalso. apply E. apply (Hball x d'); [lia | exact Hw']. }
    split; [|exact Hmin].
    pose proof (Hmin d Hw). replace (S k) with d by lia. exact Hw.
  - exact Hnext.
Qed.

Lemma level_empty_complete seen k :
  level_inv G u seen [] k -> forall x d, walk G u x d -> In x seen.
Proof.
  intros (ND & Hincl & Hsound & Hball & Hthis) x d Hw.
  induction Hw as [Hu|v w n Huv IH Hvw].
  - apply (Hball u 0%nat); [lia | apply walk_here, Hu].
  - destruct (Hsound v IH) as (d & Hd & Hdist).
    destruct (Nat.eq_dec d k) as [->|Hne].
    + apply Hthis in Hdist. destruct Hdist.
    + apply (Hball w (S d)); [lia|]. destruct Hdist as [Hw' _].
      eapply walk_step; eassumption.
Qed.

Lemma level_inv_length seen this k :
  level_inv G u seen this k -> (List.length seen <= List.length (nodes G))%nat.
Proof.
  intros (ND & Hincl & _). apply NoDup_incl_length; assumption.
Qed.

Lemma bfs_levels_spec fuel : forall seen this k,
  level_inv G u seen this k ->
  this = [] \/ (List.length (nodes G) < fuel + List.length seen)%nat ->
  let out := nx.bfs_levels fuel G seen this (Z.of_nat k) in
  NoDup (map fst out) /\
  (forall x, In x (map fst out) -> ~ In x seen) /\
  (forall x l, In (x, l) out -> exists d, l = Z.of_nat d /\ dist G u x d) /\
  (forall x d, walk G u x d -> In x seen \/ In x (map fst out)).
Proof.
  induction fuel as [|fuel IH]; intros seen this k Hinv Hfuel.
  - assert (Hthis : this = []).
    { destruct Hfuel as [H|H]; [exact H|].
      pose proof (level_inv_length _ _ _ Hinv). simpl in H. lia. }
    subst this. simpl. split; [|split; [|split]].
    + constructor.
    + intros x [].
    + intros x l [].
    + intros x d Hw. left. eapply level_empty_complete; eassumption.
  - destruct this as [|t ts].
    + simpl. split; [|split; [|split]].
      * constructor.
      * intros x [].
      * intros x l [].
      * intros x d Hw. left. eapply level_empty_complete; eassumption.
    + set (this := t :: ts) in *.
      pose proof (level_inv_next _ _ _ Hinv) as Hnext.
      set (next := nx.expand G this seen) in *.
      assert (Hfuel' : next = [] \/
                (List.length (nodes G) < fuel + List.length (seen ++ next))%nat).
      { destruct next as [|y ys] eqn:E; [left; reflexivity|]. right.
        destruct Hfuel as [H|H]; [discriminate|].
        rewrite length_app. simpl. simpl in H. lia. }
      specialize (IH (seen ++ next) next (S k) Hnext Hfuel').
      destruct IH as (IH1 & IH2 & IH3 & IH4).
      change (nx.bfs_levels (S fuel) G seen this (Z.of_nat k)) with
        (map (fun w => (w, Z.of_nat k + 1)) next
         ++ nx.bfs_levels fuel G (seen ++ next) next (Z.of_nat k + 1)).
      replace (Z.of_nat k + 1) with (Z.of_nat (S k)) by lia.
      cbv zeta. rewrite map_app, map_map. simpl. rewrite map_id.
      destruct Hnext as (_ & _ & _ & _ & Hlev).
      split; [|split; [|split]].
      * apply NoDup_app; [apply NoDup_scan | exact IH1 |].
        intros x Hx Hx'. apply (IH2 x Hx'). apply in_or_app. right. exact Hx.
      * intros x Hx Hs. apply in_app_or in Hx. destruct Hx as [Hx|Hx].
        -- apply In_expand in Hx. tauto.
        -- apply (IH2 x Hx). apply in_or_app. left. exact Hs.
      * intros x l Hx. apply in_app_or in Hx. destruct Hx as [Hx|Hx].
        -- apply in_map_iff in Hx. destruct Hx as (y & [= <- <-] & Hy).
           exists (S k). split; [reflexivity|]. apply Hlev, Hy.
        -- apply (IH3 x l Hx).
      * intros x d Hw. destruct (IH4 x d Hw) as [Hx|Hx].
        -- apply in_app_or in Hx. destruct Hx as [Hx|Hx]; [left; exact Hx|].
           right. apply in_or_app. left. exact Hx.
        -- right. apply in_or_app. right. exact Hx.
Qed.

Lemma plain_bfs_levels fuel : forall seen this k,
  nx.plain_bfs fuel G seen this = seen ++ map fst (nx.bfs_levels fuel G seen this k).
Proof.
  induction fuel as [|fuel IH]; intros seen this k; simpl.
  - rewrite app_nil_r. reflexivity.
  - destruct this as [|t ts]; [rewrite app_nil_r; reflexivity|].
    rewrite (IH _ _ (k + 1)), map_app, map_map. simpl. rewrite map_id.
    rewrite <- app_assoc. reflexivity.
Qed.
End BfsLevels.

Section ShortestPaths.
Context {W : Type}.
Variable G : Graph W.
Hypothesis Hcl : closed G.

Lemma length_nodes : List.length (nodes G) = List.length G.
Proof. unfold nodes, keys. apply length_map. Qed.

(** Every node reached is listed once, with its hop distance, and every
    node with a walk from the source is reached. *)
Lemma single_source_spec u :
  has_node G u = true ->
  let sp := nx.single_source_shortest_path_length G u in
  NoDup (keys sp) /\
  (forall x l, In (x, l) sp -> exists d, l = Z.of_nat d /\ dist G u x d) /\
  (forall x d, walk G u x d -> In x (keys sp)).
Proof.
  intros Hu. pose proof (level_inv_start G u Hu) as Hinv.
  assert (Hfuel : [u] = [] \/
            (List.length (nodes G) < List.length G + List.length [u])%nat)
    by (right; rewrite length_nodes; simpl; lia).
  destruct (bfs_levels_spec G Hcl u (List.length G) [u] [u] 0%nat Hinv Hfuel)
    as (H1 & H2 & H3 & H4).
  unfold nx.single_source_shortest_path_length. cbv zeta. simpl keys.
  change (Z.of_nat 0) with 0 in *.
  split; [|split].
  - constructor; [|exact H1]. intros Hin. apply (H2 u Hin). left. reflexivity.
  - intros x l [[= <- <-]|Hin].
    + exists 0%nat. split; [reflexivity|].
      split; [apply walk_here, Hu | intros; lia].
    + apply (H3 x l Hin).
  - intros x d Hw. destruct (H4 x d Hw) as [[<-|[]]|Hx].
    + left. reflexivity.
    + right. exact Hx.
Qed.

Lemma bfs_from_keys u :
  nx.bfs_from G u = keys (nx.single_source_shortest_path_length G u).
Proof.
  unfold nx.bfs_from, nx.single_source_shortest_path_length.
  rewrite (plain_bfs_levels G _ _ _ 0). reflexivity.
Qed.

Lemma bfs_from_spec u :
  has_node G u = true ->
  NoDup (nx.bfs_from G u) /\
  (forall x, In x (nx.bfs_from G u) <-> reachable G u x).
Proof.
  intros Hu. rewrite bfs_from_keys.
  destruct (single_source_spec u Hu) as (H1 & H2 & H3).
  split; [exact H1|]. intros x. split.
  - intros Hx. unfold keys in Hx. apply in_map_iff in Hx.
    destruct Hx as ([x' l] & <- & Hin). destruct (H2 x' l Hin) as (d & _ & Hw & _).
    exists d. exact Hw.
  - intros (d & Hw). apply (H3 x d Hw).
Qed.

Lemma In_cc_loop vs : forall seen c,
  In c (nx.cc_loop G vs seen) -> exists v, In v vs /\ c = nx.bfs_from G v.
Proof.
  induction vs as [|v vs IH]; intros seen c; simpl; [tauto|].
  destruct (mem v seen).
  - intros H. destruct (IH _ _ H) as (v' & Hv' & ->). eauto.
  - intros [<-|H]; [eauto|].
    destruct (IH _ _ H) as (v' & Hv' & ->). eauto.
Qed.

Lemma In_connected_components c :
  In c (nx.connected_components G) ->
  exists v, has_node G v = true /\ c = nx.bfs_from G v.
Proof.
  intros H. apply In_cc_loop in H. destruct H as (v & Hv & ->).
  exists v. split; [apply has_node_In, Hv | reflexivity].
Qed.

End ShortestPaths.

Lemma connected_components_nonempty {W : Type} (G : Graph W) :
  number_of_nodes G <> 0 -> nx.connected_components G <> [].
Proof.
  unfold nx.connected_components, number_of_nodes, len, nodes, keys.
  destruct G as [|[n d] G']; simpl; [intros H; contradiction | discriminate].
Qed.

Lemma pymax_key_In {A : Type} (key : A -> Z) (l : list A) : forall x,
  In (pymax_key key x l) (x :: l).
Proof.
  induction l as [|y l IH]; intros x; simpl; [auto|].
  destruct (key x <? key y).
  - right. apply IH.
  - destruct (IH x) as [H|H]; auto.
Qed.

Lemma pymax_key_max {A : Type} (key : A -> Z) (l : list A) : forall x y,
  In y (x :: l) -> key y <= key (pymax_key key x l).
Proof.
  induction l as [|z l IH]; intros x y; simpl.
  - intros [<-|[]]. lia.
  - destruct (key x <? key z) eqn:E.
    + apply Z.ltb_lt in E. intros [<-|[<-|H]].
      * pose proof (IH z z (or_introl eq_refl)). lia.
      * apply IH. left. reflexivity.
      * apply IH. right. exact H.
    + apply Z.ltb_ge in E. intros [<-|[<-|H]].
      * apply IH. left. reflexivity.
      * pose proof (IH x x (or_introl eq_refl)). lia.
      * apply IH. right. exact H.
Qed.

(** ** Induced subgraphs *)

Section Subgraph.
Context {W : Type}.
Variable G : Graph W.
Variable c : list node.

Lemma dict_get_filter_keys {V : Type} (p : string -> bool) (d : dict V) y :
  dict_get (filter (fun e => p (fst e)) d) y =
  if p y then dict_get d y else None.
Proof.
  induction d as [|[k v] d IH]; simpl.
  - destruct (p y); reflexivity.
  - destruct (p k) eqn:Ek; simpl.
    + destruct (String.eqb y k) eqn:E; [|exact IH].
      apply String.eqb_eq in E. subst. rewrite Ek. reflexivity.
    + rewrite IH. destruct (String.eqb y k) eqn:E; [|reflexivity].
      apply String.eqb_eq in E. subst. rewrite Ek. reflexivity.
Qed.

Lemma dict_get_subgraph x :
  dict_get (subgraph G c) x =
  if mem x c
  then option_map
         (fun d => mkNode (bipartite d)
                          (filter (fun e => mem (fst e) c) (adj d)))
         (dict_get G x)
  else None.
Proof.
  unfold subgraph. induction G as [|[n d] G' IH]; simpl.
  - destruct (mem x c); reflexivity.
  - destruct (mem n c) eqn:En; simpl.
    + destruct (String.eqb x n) eqn:E; [|exact IH].
      apply String.eqb_eq in E. subst. rewrite En. reflexivity.
    + rewrite IH. destruct (String.eqb x n) eqn:E; [|reflexivity].
      apply String.eqb_eq in E. subst. rewrite En. reflexivity.
Qed.

Lemma has_node_subgraph x : has_node (subgraph G c) x = mem x c && has_node G x.
Proof.
  unfold has_node, dict_mem. rewrite dict_get_subgraph.
  destruct (mem x c); [|reflexivity]. destruct (dict_get G x); reflexivity.
Qed.

Lemma has_edge_subgraph x y :
  has_edge (subgraph G c) x y = mem x c && mem y c && has_edge G x y.
Proof.
  unfold has_edge, nbrs, dict_mem. rewrite dict_get_subgraph.
  destruct (mem x c); [|reflexivity]. simpl.
  destruct (dict_get G x) as [d|]; simpl.
  - rewrite (dict_get_filter_keys (fun k => mem k c)).
    destruct (mem y c); reflexivity.
  - rewrite andb_false_r. reflexivity.
Qed.

Lemma nodes_subgraph : nodes (subgraph G c) = filter (fun n => mem n c) (nodes G).
Proof.
  unfold subgraph, nodes, keys. rewrite map_map. simpl.
  induction G as [|[n d] G' IH]; simpl; [reflexivity|].
  destruct (mem n c); simpl; [f_equal|]; exact IH.
Qed.

Lemma NoDup_nodes_subgraph : NoDup (nodes G) -> NoDup (nodes (subgraph G c)).
Proof. intros ND. rewrite nodes_subgraph. apply NoDup_filter, ND. Qed.

Lemma closed_subgraph : closed G -> closed (subgraph G c).
Proof.
  intros Hcl x y. rewrite has_edge_subgraph, !has_node_subgraph.
  intros H. apply andb_true_iff in H. destruct H as [H Hxy].
  apply andb_true_iff in H. destruct H as [Hx Hy].
  destruct (Hcl x y Hxy) as [-> ->]. rewrite Hx, Hy. auto.
Qed.

Lemma symmetric_subgraph :
  (forall x y, has_edge G x y = has_edge G y x) ->
  forall x y, has_edge (subgraph G c) x y = has_edge (subgraph G c) y x.
Proof.
  intros Hsym x y. rewrite !has_edge_subgraph, (Hsym x y).
  destruct (mem x c), (mem y c); reflexivity.
Qed.
End Subgraph.

(** ** Well-formed graphs *)

Section WellFormed.
Context {W : Type}.
Variable G : Graph W.
Hypothesis Hwf : wf_graph G = true.

Lemma nodupb_NoDup (l : list node) : nodupb l = true -> NoDup l.
Proof.
  induction l as [|x l IH]; simpl; [constructor|].
  intros H. apply andb_true_iff in H. destruct H as [Hx Hl].
  constructor; [|apply IH, Hl].
  apply mem_false. destruct (mem x l); [discriminate | reflexivity].
Qed.

Lemma wf_NoDup : NoDup (nodes G).
Proof.
  unfold wf_graph in Hwf. apply andb_true_iff in Hwf. apply nodupb_NoDup, Hwf.
Qed.

Lemma wf_mirror u v : has_edge G u v = true -> has_edge G v u = true.
Proof.
  unfold wf_graph in Hwf. apply andb_true_iff in Hwf. destruct Hwf as [_ H].
  rewrite forallb_forall in H.
  unfold has_edge at 1, nbrs, dict_mem.
  destruct (dict_get G u) as [d|] eqn:Eu; [|discriminate].
  destruct (dict_get (adj d) v) as [w|] eqn:Ev; [|discriminate]. intros _.
  specialize (H (u, d) (dict_get_Some_In _ _ _ Eu)). simpl in H.
  rewrite forallb_forall in H.
  apply (H (v, w) (dict_get_Some_In _ _ _ Ev)).
Qed.

Lemma wf_symmetric u v : has_edge G u v = has_edge G v u.
Proof.
  destruct (has_edge G u v) eqn:E1, (has_edge G v u) eqn:E2; try reflexivity.
  - apply wf_mirror in E1. congruence.
  - apply wf_mirror in E2. congruence.
Qed.

Lemma has_edge_has_node (u v : node) : has_edge G u v = true -> has_node G u = true.
Proof.
  unfold has_edge, has_node, nbrs, dict_mem.
  destruct (dict_get G u); [reflexivity | discriminate].
Qed.

Lemma wf_closed : closed G.
Proof.
  intros u v H. split; [eapply has_edge_has_node, H|].
  apply wf_mirror in H. eapply has_edge_has_node, H.
Qed.
End WellFormed.

(** ** Sums *)

Lemma fold_left_add_acc (l : list Z) : forall a, fold_left Z.add l a = a + sumZ l.
Proof.
  unfold sumZ. induction l as [|x l IH]; intros a; simpl; [lia|].
  rewrite (IH (a + x)), (IH x). lia.
Qed.

Lemma sumZ_cons x l : sumZ (x :: l) = x + sumZ l.
Proof. unfold sumZ at 1. simpl. rewrite fold_left_add_acc. lia. Qed.

Lemma sumZ_app l1 l2 : sumZ (l1 ++ l2) = sumZ l1 + sumZ l2.
Proof.
  induction l1 as [|x l1 IH]; simpl; [reflexivity|].
  rewrite !sumZ_cons, IH. lia.
Qed.

Lemma sumZ_permutation l1 l2 : Permutation l1 l2 -> sumZ l1 = sumZ l2.
Proof.
  intros HP. induction HP; rewrite ?sumZ_cons; lia.
Qed.

Lemma sumZ_flat_map {A : Type} (f : A -> list Z) (l : list A) :
  sumZ (flat_map f l) = sumZ (map (fun x => sumZ (f x)) l).
Proof.
  induction l as [|x l IH]; simpl; [reflexivity|].
  rewrite sumZ_app, sumZ_cons, IH. reflexivity.
Qed.

(** ** A connected component and its induced subgraph *)

Section Component.
Context {W : Type}.
Variable G : Graph W.
Hypothesis ND : NoDup (nodes G).
Hypothesis Hcl : closed G.
Hypothesis Hsym : forall u v, has_edge G u v = has_edge G v u.
Variable v0 : node.
Hypothesis Hv0 : has_node G v0 = true.

Let L := nx.bfs_from G v0.
Let H := subgraph G L.

Lemma In_component x : In x L <-> reachable G v0 x.
Proof. apply (bfs_from_spec G Hcl v0 Hv0). Qed.

Lemma NoDup_component : NoDup L.
Proof. apply (bfs_from_spec G Hcl v0 Hv0). Qed.

Lemma walk_in_component x d : walk G v0 x d -> walk H v0 x d.
Proof.
  induction 1 as [Hu|v w n Hv IH Hvw].
  - apply walk_here. unfold H. rewrite has_node_subgraph, Hu, andb_true_r.
    apply mem_In, In_component. exists 0%nat. apply walk_here, Hu.
  - eapply walk_step; [exact IH|].
    unfold H. rewrite has_edge_subgraph, Hvw, andb_true_r.
    apply andb_true_iff. split; apply mem_In, In_component.
    + exists n. exact Hv.
    + exists (S n). eapply walk_step; eassumption.
Qed.

Lemma closed_component : closed H.
Proof. apply closed_subgraph, Hcl. Qed.

Lemma component_connected x y : In x L -> In y L -> reachable H x y.
Proof.
  intros Hx Hy. apply In_component in Hx, Hy.
  destruct Hx as (dx & Hx). destruct Hy as (dy & Hy).
  apply walk_in_component in Hx, Hy.
  exists (dx + dy)%nat. eapply (walk_app H); [|exact Hy].
  apply (walk_sym H closed_component (symmetric_subgraph G L Hsym)). exact Hx.
Qed.

Lemma In_nodes_component x : In x (nodes H) <-> In x L.
Proof.
  unfold H. rewrite nodes_subgraph, filter_In, mem_In. split; [tauto|].
  intros Hx. split; [|exact Hx]. apply In_component in Hx.
  destruct Hx as (d & Hw). apply has_node_In. eapply walk_has_node; eassumption.
Qed.

Lemma nodes_component_perm : Permutation (nodes H) L.
Proof.
  apply NoDup_Permutation.
  - apply NoDup_nodes_subgraph, ND.
  - apply NoDup_component.
  - apply In_nodes_component.
Qed.

Lemma len_component : len H = len L.
Proof.
  unfold len. rewrite <- (length_nodes H). f_equal.
  apply Permutation_length, nodes_component_perm.
Qed.

Lemma single_source_component u :
  In u L ->
  let sp := nx.single_source_shortest_path_length H u in
  Permutation (keys sp) (nodes H) /\
  (forall x, In x L -> dist H u x (hops H u x)) /\
  values sp = map (fun x => Z.of_nat (hops H u x)) (keys sp).
Proof.
  intros Hu sp.
  assert (Hnode : has_node H u = true) by (apply has_node_In, In_nodes_component, Hu).
  destruct (single_source_spec H closed_component u Hnode) as (H1 & H2 & H3).
  fold sp in H1, H2, H3.
  assert (Hget : forall x l, In (x, l) sp ->
                   Z.of_nat (hops H u x) = l /\ dist H u x (hops H u x)).
  { intros x l Hin. unfold hops, get_default. fold sp.
    rewrite (In_dict_get sp x l H1 Hin).
    destruct (H2 x l Hin) as (d & -> & Hd). rewrite Nat2Z.id. auto. }
  split; [|split].
  - apply NoDup_Permutation; [exact H1 | apply NoDup_nodes_subgraph, ND |].
    intros x. rewrite In_nodes_component. split.
    + intros Hx. unfold keys in Hx. apply in_map_iff in Hx.
      destruct Hx as ([x' l] & <- & Hin). destruct (H2 x' l Hin) as (d & _ & Hw & _).
      apply In_nodes_component, has_node_In.
      eapply walk_has_node; [apply closed_component | exact Hw].
    + intros Hx. destruct (component_connected u x Hu Hx) as (d & Hw).
      apply (H3 x d Hw).
  - intros x Hx. destruct (component_connected u x Hu Hx) as (d & Hw).
    pose proof (H3 x d Hw) as Hk. unfold keys in Hk. apply in_map_iff in Hk.
    destruct Hk as ([x' l] & <- & Hin). apply (Hget x' l Hin).
  - unfold values, keys. rewrite map_map. apply map_ext_in.
    intros [x l] Hin. simpl. symmetry. apply (Hget x l Hin).
Qed.

Lemma is_connected_component : 1 < len L -> nx.is_connected H = Ok true.
Proof.
  intros Hlen. unfold nx.is_connected.
  destruct (nodes H) as [|v vs] eqn:E.
  - pose proof len_component as Hl. unfold len in Hl at 1.
    rewrite <- (length_nodes H), E in Hl. simpl in Hl. lia.
  - assert (Hv : In v L) by (apply In_nodes_component; rewrite E; left; reflexivity).
    destruct (single_source_component v Hv) as (HP & _).
    assert (Elen : len (nx.bfs_from H v) = len H).
    { rewrite bfs_from_keys. unfold len. rewrite <- (length_nodes H). f_equal.
      apply Permutation_length, HP. }
    rewrite Elen, Z.eqb_refl. reflexivity.
Qed.

Lemma sum_component :
  sumZ (flat_map (fun u => values (nx.single_source_shortest_path_length H u))
                 (nodes H)) =
  sum_pairs (hops H) (nodes H).
Proof.
  unfold sum_pairs. rewrite !sumZ_flat_map. f_equal. apply map_ext_in.
  intros u Hu. apply In_nodes_component in Hu.
  destruct (single_source_component u Hu) as (HP & _ & Hv).
  rewrite Hv. apply sumZ_permutation, Permutation_map, HP.
Qed.

Lemma average_shortest_path_component :
  1 < len L ->
  exists f,
    truediv (sum_pairs (hops H) (nodes H)) (len L * (len L - 1)) = Ok f /\
    nx.average_shortest_path_length H = Ok (PFloat f).
Proof.
  intros Hlen.
  destruct (truediv_ok (sum_pairs (hops H) (nodes H)) (len L * (len L - 1)))
    as [f Hf]; [nia|].
  exists f. split; [exact Hf|].
  unfold nx.average_shortest_path_length. rewrite len_component.
  destruct (len L =? 0) eqn:E0; [apply Z.eqb_eq in E0; lia|].
  destruct (len L =? 1) eqn:E1; [apply Z.eqb_eq in E1; lia|].
  rewrite (is_connected_component Hlen). cbn [bind negb].
  rewrite sum_component, Hf. reflexivity.
Qed.
End Component.

(** ** avg_shortest_path *)

Lemma sum_pairs_permutation (D : node -> node -> nat) (l1 l2 : list node) :
  Permutation l1 l2 -> sum_pairs D l1 = sum_pairs D l2.
Proof.
  intros HP. unfold sum_pairs. rewrite !sumZ_flat_map.
  rewrite (sumZ_permutation _ _
             (Permutation_map (fun u => sumZ (map (fun v => Z.of_nat (D u v)) l1)) HP)).
  f_equal. apply map_ext. intros u.
  apply sumZ_permutation, Permutation_map, HP.
Qed.

Lemma largest_cc_In {W : Type} (G : Graph W) :
  number_of_nodes G <> 0 -> In (largest_cc G) (nx.connected_components G).
Proof.
  intros Hn. pose proof (connected_components_nonempty G Hn) as Hc.
  unfold largest_cc. destruct (nx.connected_components G) as [|c cs]; [contradiction|].
  apply pymax_key_In.
Qed.

Lemma largest_cc_max {W : Type} (G : Graph W) c :
  In c (nx.connected_components G) -> len c <= len (largest_cc G).
Proof.
  unfold largest_cc. destruct (nx.connected_components G) as [|c0 cs]; [intros []|].
  apply pymax_key_max.
Qed.

Lemma avg_path_value_wf {W : Type} (G : Graph W) :
  wf_graph G = true ->
  1 < len (largest_cc G) ->
  exists f,
    avg_path_value G = Ok f /\
    truediv (sum_pairs (hops (subgraph G (largest_cc G))) (largest_cc G))
            (len (largest_cc G) * (len (largest_cc G) - 1)) = Ok f /\
    forall u v, In u (largest_cc G) -> In v (largest_cc G) ->
                dist (subgraph G (largest_cc G)) u v
                     (hops (subgraph G (largest_cc G)) u v).
Proof.
  intros Hwf Hlen.
  pose proof (wf_NoDup G Hwf) as ND. pose proof (wf_closed G Hwf) as Hcl.
  pose proof (wf_symmetric G Hwf) as Hsym.
  assert (Hn : number_of_nodes G <> 0).
  { intros E. unfold largest_cc, nx.connected_components, number_of_nodes, len in *.
    destruct G; [simpl in Hlen; lia | discriminate]. }
  destruct (In_connected_components G _ (largest_cc_In G Hn)) as (v0 & Hv0 & HL).
  rewrite HL in *.
  destruct (average_shortest_path_component G ND Hcl Hsym v0 Hv0 Hlen)
    as (f & Hf & Havg).
  exists f. split; [|split].
  - unfold avg_path_value. rewrite HL, Havg. reflexivity.
  - rewrite <- (sum_pairs_permutation _ _ _ (nodes_component_perm G ND Hcl v0 Hv0)).
    exact Hf.
  - intros u v Hu Hv.
    apply (single_source_component G ND Hcl Hsym v0 Hv0 u Hu). exact Hv.
Qed.

(** C6: on a well-formed graph, avg_shortest_path is null exactly when the
    largest connected component has at most one node; otherwise it is the
    sum of the hop distances breadth-first search finds between the ordered
    pairs of nodes of that component, inside the subgraph it induces, divided
    by the number [n (n - 1)] of such pairs.  The component is the first of
    the largest ones, and each component is the set of nodes reachable from
    one node. *)
Theorem avg_shortest_path_value {W : Type} (G : Graph W) :
  wf_graph G = true ->
  exists m,
    compute_metrics G = Ok m /\
    (dict_get m "avg_shortest_path" = Some PNone <-> len (largest_cc G) <= 1) /\
    (1 < len (largest_cc G) ->
     exists f,
       dict_get m "avg_shortest_path" = Some (PFloat f) /\
       truediv (sum_pairs (hops (subgraph G (largest_cc G))) (largest_cc G))
               (len (largest_cc G) * (len (largest_cc G) - 1)) = Ok f /\
       forall u v, In u (largest_cc G) -> In v (largest_cc G) ->
                   dist (subgraph G (largest_cc G)) u v
                        (hops (subgraph G (largest_cc G)) u v)) /\
    (number_of_nodes G <> 0 -> In (largest_cc G) (nx.connected_components G)) /\
    (forall c, In c (nx.connected_components G) ->
               len c <= len (largest_cc G) /\
               exists v0, has_node G v0 = true /\
                          forall x, In x c <-> reachable G v0 x).
Proof.
  intros Hwf.
  assert (Hcomps : forall c, In c (nx.connected_components G) ->
             len c <= len (largest_cc G) /\
             exists v0, has_node G v0 = true /\
                        forall x, In x c <-> reachable G v0 x).
  { intros c Hc. split; [apply largest_cc_max, Hc|].
    destruct (In_connected_components G c Hc) as (v0 & Hv0 & ->).
    exists v0. split; [exact Hv0|].
    apply (bfs_from_spec G (wf_closed G Hwf) v0 Hv0). }
  destruct (Z.eq_dec (number_of_nodes G) 0) as [E|E].
  - rewrite (dict_get_compute_metrics_empty G E). eexists. split; [reflexivity|].
    assert (HL : largest_cc G = []).
    { unfold largest_cc, nx.connected_components, number_of_nodes, len in *.
      destruct G; [reflexivity | discriminate]. }
    split; [rewrite HL; unfold len; simpl; split; [lia | reflexivity]|].
    split; [rewrite HL; unfold len; simpl; lia|].
    split; [contradiction | exact Hcomps].
  - destruct (compute_metrics_lookup G E) as (m & Hm & _ & Hp & _).
    exists m. split; [exact Hm|]. rewrite Hp.
    destruct (1 <? len (largest_cc G)) eqn:E1.
    + apply Z.ltb_lt in E1.
      destruct (avg_path_value_wf G Hwf E1) as (f & Hf & Hsum & Hdist).
      rewrite Hf. split; [split; [discriminate | lia]|].
      split; [|split; [intros _; apply largest_cc_In, E | exact Hcomps]].
      intros _. exists f. auto.
    + apply Z.ltb_ge in E1.
      split; [split; [intros _; exact E1 | reflexivity]|].
      split; [lia|]. split; [intros _; apply largest_cc_In, E | exact Hcomps].
Qed.

Lemma avg_shortest_path_value_witness :
  wf_graph P_scenario = true /\
  exists m,
    compute_metrics P_scenario = Ok m /\
    (dict_get m "avg_shortest_path" = Some PNone <-> len (largest_cc P_scenario) <= 1) /\
    (1 < len (largest_cc P_scenario) ->
     exists f,
       dict_get m "avg_shortest_path" = Some (PFloat f) /\
       truediv (sum_pairs (hops (subgraph P_scenario (largest_cc P_scenario)))
                          (largest_cc P_scenario))
               (len (largest_cc P_scenario) * (len (largest_cc P_scenario) - 1))
         = Ok f /\
       forall u v, In u (largest_cc P_scenario) -> In v (largest_cc P_scenario) ->
                   dist (subgraph P_scenario (largest_cc P_scenario)) u v
                        (hops (subgraph P_scenario (largest_cc P_scenario)) u v)) /\
    (number_of_nodes P_scenario <> 0 ->
     In (largest_cc P_scenario) (nx.connected_components P_scenario)) /\
    (forall c, In c (nx.connected_components P_scenario) ->
               len c <= len (largest_cc P_scenario) /\
               exists v0, has_node P_scenario v0 = true /\
                          forall x, In x c <-> reachable P_scenario v0 x).
Proof.
  split; [reflexivity | apply (avg_shortest_path_value P_scenario); reflexivity].
Defined.

(** ** analyze_per_content *)

(** C4 on a null category: the categories are ["unknown"], but the subset of
    "unknown" holds only the record whose category is the string "unknown";
    the record with the null category is in no subset, and the row
    "unknown" counts one node where the two records together give two. *)
Theorem analyze_per_content_null_category :
  content_types df_null_category = ["unknown"] /\
  select_content_type df_null_category "unknown" =
    Ok (mkDF true [mkRow (Some "a2") (Some "s1") (Num 1%float) (Some "unknown")]) /\
  exists summary rows all unknown,
    analyze_per_content_f df_null_category = Ok (summary, rows) /\
    keys summary = ["all"; "unknown"] /\
    dict_get summary "all" = Some all /\
    dict_get summary "unknown" = Some unknown /\
    dict_get all "n_nodes" = Some (PInt 2) /\
    dict_get all "n_edges" = Some (PInt 1) /\
    dict_get unknown "n_nodes" = Some (PInt 1) /\
    dict_get unknown "n_edges" = Some (PInt 0).
Proof.
  split; [reflexivity|]. split; [reflexivity|].
  do 4 eexists. split; [vm_compute; reflexivity|].
  repeat split; reflexivity.
Qed.

(** A category without any kept record: the projection of its empty graph
    raises, and no table is produced at all. *)
Lemma analyze_per_content_empty_category :
  content_types df_empty_category = ["meme"; "news"] /\
  analyze_per_content_f df_empty_category = Raise NetworkXAlgorithmError.
Proof. split; vm_compute; reflexivity. Qed.

(** ** The graphs of the pipeline are well-formed *)

Section WellFormedOps.
Context {W : Type}.
Implicit Types (G : Graph W) (u v : node).

Lemma NoDup_nodupb (l : list node) : NoDup l -> nodupb l = true.
Proof.
  induction 1 as [|x l Hx _ IH]; simpl; [reflexivity|].
  rewrite IH, andb_true_r. apply mem_false in Hx. rewrite Hx. reflexivity.
Qed.

Lemma wf_graph_iff G :
  wf_graph G = true <->
  NoDup (nodes G) /\ forall u v, has_edge G u v = true -> has_edge G v u = true.
Proof.
  split.
  - intros Hwf. split; [apply wf_NoDup, Hwf | apply wf_mirror, Hwf].
  - intros [ND Hm]. unfold wf_graph. rewrite (NoDup_nodupb _ ND). simpl.
    apply forallb_forall. intros [u d] Hin. apply forallb_forall.
    intros [v w] Hv. simpl. apply Hm.
    unfold has_edge, nbrs. rewrite (In_dict_get G u d ND Hin).
    apply dict_mem_In. unfold keys. apply in_map_iff. exists (v, w). auto.
Qed.

Lemma wf_empty : wf_graph (@empty_graph W) = true.
Proof. reflexivity. Qed.

Lemma wf_add_node G n ro : wf_graph G = true -> wf_graph (add_node G n ro) = true.
Proof.
  rewrite !wf_graph_iff. intros [ND Hm]. split.
  - apply NoDup_nodes_add_node, ND.
  - intros u v. unfold has_edge. rewrite !nbrs_add_node. apply Hm.
Qed.

Lemma wf_add_edge G u v w : wf_graph G = true -> wf_graph (add_edge G u v w) = true.
Proof.
  rewrite !wf_graph_iff. intros [ND Hm]. split.
  - rewrite nodes_add_edge. apply NoDup_nodes_add_node, NoDup_nodes_add_node, ND.
  - intros x y. rewrite !has_edge_add_edge, (same_pair_sym y x).
    intros H. apply orb_true_iff in H. destruct H as [H|H].
    + rewrite H. reflexivity.
    + rewrite (Hm x y H). apply orb_true_r.
Qed.
End WellFormedOps.

Lemma wf_weighted_projected_graph {W : Type} (B : Graph W) (ns : list node) P :
  nx.weighted_projected_graph B ns = Ok P -> wf_graph P = true.
Proof.
  unfold nx.weighted_projected_graph.
  destruct (len B - len ns <? 1); [discriminate|]. intros [= <-].
  assert (H0 : wf_graph (fold_left (nx.copy_node B) ns (@empty_graph Z)) = true).
  { generalize (@wf_empty Z). generalize (@empty_graph Z) as G.
    induction ns as [|n ns IH]; intros G HG; simpl; [exact HG|].
    apply IH. unfold nx.copy_node. destruct (dict_get B n); apply wf_add_node, HG. }
  revert H0. generalize (fold_left (nx.copy_node B) ns (@empty_graph Z)) as G.
  induction ns as [|n ns IH]; intros G HG; simpl; [exact HG|].
  apply IH. unfold nx.project_node. revert G HG.
  induction (nx.nbrs2 B n) as [|v vs IHv]; intros G HG; simpl; [exact HG|].
  apply IHv, wf_add_edge, HG.
Qed.

(** Whatever the records, a projection that is returned is a well-formed
    graph, so what is proved of [compute_metrics] on well-formed graphs
    holds of every graph the pipeline measures. *)
Lemma wf_project_authors {W : Type} (B : Graph W) P :
  project_authors B = Ok P -> wf_graph P = true.
Proof. apply wf_weighted_projected_graph. Qed.

(** * Further properties *)

(** ** The bipartite graph as a whole *)

Section BuilderWhole.
Variable W : Type.
Variable wadd : W -> W -> W.
Variable wone : W.
Implicit Types (rows : list (Row W)) (u v n : node).

Lemma fold_upsert_some (ws : list W) : forall a,
  fold_left (upsert wadd) ws (Some a) = Some (fold_left wadd ws a).
Proof.
  induction ws as [|w ws IH]; intros a; simpl; [reflexivity|]. apply IH.
Qed.

Lemma fold_weight_step u v rows : forall acc,
  fold_left (weight_step wadd wone u v) rows acc =
  fold_left (upsert wadd) (pair_weights wone u v rows) acc.
Proof.
  unfold pair_weights.
  induction rows as [|r rows IH]; intros acc; simpl; [reflexivity|].
  rewrite fold_left_app, IH. f_equal. unfold weight_step.
  destruct (record_pair r) as [[a s]|]; [|reflexivity].
  destruct (same_pair u v a s); reflexivity.
Qed.

Lemma In_authors_in rows a :
  In a (authors_in rows) <-> exists r s, In r rows /\ record_pair r = Some (a, s).
Proof.
  unfold authors_in. rewrite in_flat_map. split.
  - intros (r & Hr & Ha). destruct (record_pair r) as [[a' s]|] eqn:E; [|destruct Ha].
    destruct Ha as [<-|[]]. eauto.
  - intros (r & s & Hr & Hp). exists r. rewrite Hp. simpl. auto.
Qed.

Lemma In_communities_in rows s :
  In s (communities_in rows) <-> exists r a, In r rows /\ record_pair r = Some (a, s).
Proof.
  unfold communities_in. rewrite in_flat_map. split.
  - intros (r & Hr & Hs). destruct (record_pair r) as [[a s']|] eqn:E; [|destruct Hs].
    destruct Hs as [<-|[]]. eauto.
  - intros (r & a & Hr & Hp). exists r. rewrite Hp. simpl. auto.
Qed.

(** X1: whatever the records, the graph built from them is a well-formed
    undirected graph: no node twice, and every edge stored in both
    directions with the same weight. *)
Theorem build_bipartite_graph_well_formed (df : DataFrame W) :
  let G := build_bipartite_graph wadd wone df in
  wf_graph G = true /\
  forall u v, edge_weight G u v = edge_weight G v u.
Proof.
  cbv zeta. unfold build_bipartite_graph.
  pose proof (symmetric_build_from W wadd wone (iterrows df) empty_graph
                (symmetric_empty W)) as Hsym.
  split; [|exact Hsym].
  apply wf_graph_iff. split; [apply (build_invariants W wadd wone (iterrows df))|].
  intros u v. rewrite !has_edge_weight, (Hsym u v). trivial.
Qed.

(** X2: the nodes are the names the kept records use, as author or as
    community; two names are joined exactly when a kept record pairs them,
    and the weight of the edge is the sum, taken from left to right in input
    order, of the weights of those records. *)
Theorem build_bipartite_graph_contents (df : DataFrame W) :
  let G := build_bipartite_graph wadd wone df in
  let rows := iterrows df in
  (forall n, has_node G n = true <->
             In n (authors_in rows) \/ In n (communities_in rows)) /\
  (forall u v, edge_weight G u v =
               match pair_weights wone u v rows with
               | [] => None
               | w :: ws => Some (fold_left wadd ws w)
               end) /\
  (forall u v, has_edge G u v = true <->
               exists r a s, In r rows /\ record_pair r = Some (a, s) /\
                             same_pair u v a s = true).
Proof.
  cbv zeta. unfold build_bipartite_graph.
  assert (Hw : forall u v,
             edge_weight (build_from wadd wone empty_graph (iterrows df)) u v =
             match pair_weights wone u v (iterrows df) with
             | [] => None
             | w :: ws => Some (fold_left wadd ws w)
             end).
  { intros u v. rewrite edge_weight_build_from by apply symmetric_empty.
    rewrite fold_weight_step. change (edge_weight empty_graph u v) with (@None W).
    destruct (pair_weights wone u v (iterrows df)) as [|w ws]; [reflexivity|].
    simpl. apply fold_upsert_some. }
  split; [|split; [exact Hw|]].
  - intros n. rewrite has_node_build_from. simpl. rewrite existsb_exists.
    rewrite In_authors_in, In_communities_in. unfold mentions. split.
    + intros (r & Hr & Hm). destruct (record_pair r) as [[a s]|] eqn:E; [|discriminate].
      apply orb_true_iff in Hm. destruct Hm as [Hm|Hm]; apply String.eqb_eq in Hm; subst.
      * left. eauto.
      * right. eauto.
    + intros [(r & s & Hr & Hp)|(r & a & Hr & Hp)]; exists r; rewrite Hp;
        rewrite String.eqb_refl; auto using orb_true_r.
  - intros u v. rewrite has_edge_weight, Hw. unfold pair_weights. split.
    + destruct (flat_map _ (iterrows df)) as [|w ws] eqn:E; [discriminate|]. intros _.
      assert (Hin : In w (w :: ws)) by (left; reflexivity).
      rewrite <- E in Hin. apply in_flat_map in Hin. destruct Hin as (r & Hr & Hin).
      destruct (record_pair r) as [[a s]|] eqn:Ep; [|destruct Hin].
      destruct (same_pair u v a s) eqn:Es; [|destruct Hin].
      exists r, a, s. auto.
    + intros (r & a & s & Hr & Hp & Hs).
      destruct (flat_map _ (iterrows df)) as [|w ws] eqn:E; [|reflexivity].
      assert (Hin : In (row_weight wone r) []); [|destruct Hin].
      rewrite <- E. apply in_flat_map. exists r. split; [exact Hr|].
      rewrite Hp, Hs. left. reflexivity.
Qed.
End BuilderWhole.

(** ** When the projection returns *)

Lemma project_authors_returns {W : Type} (B : Graph W) :
  (exists s, role_of B s = Some r_subreddit) -> exists P, project_authors B = Ok P.
Proof.
  intros (s & Hs). unfold project_authors, nx.weighted_projected_graph.
  assert (Hlt : (List.length (authors_of B) < List.length B)%nat).
  { unfold role_of in Hs. destruct (dict_get B s) as [d|] eqn:E; [|discriminate].
    unfold authors_of. rewrite length_map.
    apply (filter_length_lt _ B (s, d)); [apply dict_get_Some_In, E|].
    simpl. rewrite Hs. reflexivity. }
  destruct (len B - len (authors_of B) <? 1) eqn:E.
  - apply Z.ltb_lt in E. unfold len in E. lia.
  - eexists. reflexivity.
Qed.

Section ProjectionReturns.
Variable W : Type.
Variable wadd : W -> W -> W.
Variable wone : W.
Implicit Types (rows : list (Row W)).

Lemma build_from_snoc rows r (G : Graph W) :
  build_from wadd wone G (rows ++ [r]) =
  add_record wadd wone (build_from wadd wone G rows) r.
Proof. unfold build_from. rewrite fold_left_app. reflexivity. Qed.

Lemma authors_in_app rows1 rows2 :
  authors_in (rows1 ++ rows2) = authors_in rows1 ++ authors_in rows2.
Proof. unfold authors_in. apply flat_map_app. Qed.

(** The community of the last kept record is still labelled subreddit at
    the end. *)
Lemma build_from_last_subreddit rows :
  authors_in rows <> [] ->
  exists s, role_of (build_from wadd wone empty_graph rows) s = Some r_subreddit.
Proof.
  induction rows as [|r rows IH] using rev_ind; [intros H; contradiction|].
  intros Hne. rewrite build_from_snoc.
  destruct (record_pair r) as [[a s]|] eqn:Ep.
  - exists s. rewrite role_of_add_record, Ep, String.eqb_refl. reflexivity.
  - rewrite add_record_skip by exact Ep. apply IH.
    rewrite authors_in_app in Hne. unfold authors_in at 2 in Hne. simpl in Hne.
    rewrite Ep in Hne. simpl in Hne. rewrite app_nil_r in Hne. exact Hne.
Qed.

Lemma build_from_all_skipped rows (G : Graph W) :
  authors_in rows = [] -> build_from wadd wone G rows = G.
Proof.
  unfold build_from. revert G.
  induction rows as [|r rows IH]; intros G H; simpl; [reflexivity|].
  unfold authors_in in H. simpl in H. apply app_eq_nil in H. destruct H as [H1 H2].
  assert (Ep : record_pair r = None).
  { destruct (record_pair r) as [[a s]|]; [discriminate | reflexivity]. }
  rewrite (add_record_skip W wadd wone G r Ep). apply IH, H2.
Qed.

(** X3: the projection of the graph built from the records returns exactly
    when at least one record is kept; when every record is skipped (or
    there is none) the bipartite graph is empty and
    [weighted_projected_graph] raises NetworkXAlgorithmError. *)
Theorem project_authors_returns_iff_kept (df : DataFrame W) :
  let B := build_bipartite_graph wadd wone df in
  (authors_in (iterrows df) = [] ->
   B = empty_graph /\ project_authors B = Raise NetworkXAlgorithmError) /\
  (authors_in (iterrows df) <> [] -> exists P, project_authors B = Ok P).
Proof.
  cbv zeta. unfold build_bipartite_graph. split.
  - intros H. rewrite (build_from_all_skipped _ _ H). split; reflexivity.
  - intros H. apply project_authors_returns, build_from_last_subreddit, H.
Qed.
End ProjectionReturns.

(** ** What every projection is *)

Lemma has_node_add_edges es : forall (G : Graph Z) n,
  has_node G n = true -> has_node (add_edges G es) n = true.
Proof.
  unfold add_edges. induction es as [|[[u v] w] es IH]; intros G n H; simpl; [exact H|].
  apply IH. rewrite has_node_add_edge, H. apply orb_true_r.
Qed.

Lemma has_node_copy_nodes {W : Type} (B : Graph W) ns : forall (G : Graph Z) n,
  has_node G n = true \/ In n ns ->
  has_node (fold_left (nx.copy_node B) ns G) n = true.
Proof.
  induction ns as [|m ns IH]; intros G n H; simpl.
  - destruct H as [H|[]]. exact H.
  - apply IH.
    assert (E : has_node (nx.copy_node B G m) n = String.eqb n m || has_node G n).
    { unfold nx.copy_node. destruct (dict_get B m); apply has_node_add_node. }
    rewrite E. destruct H as [H|[->|H]].
    + left. rewrite H. apply orb_true_r.
    + left. rewrite String.eqb_refl. reflexivity.
    + right. exact H.
Qed.

(** X4: whatever graph is projected, names used both ways included, a
    projection that is returned is a well-formed undirected graph that holds
    every author as a node and has no self-loop; its weights are counts, at
    least 0, and at least 1 when the projected graph is well-formed. *)
Theorem project_authors_shape {W : Type} (B : Graph W) (P : Graph Z) :
  project_authors B = Ok P ->
  wf_graph P = true /\
  (forall n, In n (authors_of B) -> has_node P n = true) /\
  (forall u, has_edge P u u = false) /\
  (forall u v w, edge_weight P u v = Some w -> 0 <= w) /\
  (wf_graph B = true -> forall u v w, edge_weight P u v = Some w -> 1 <= w).
Proof.
  intros HP. split; [eapply wf_project_authors, HP|].
  unfold project_authors, nx.weighted_projected_graph in HP.
  destruct (len B - len (authors_of B) <? 1); [discriminate|].
  injection HP as <-. rewrite fold_project_node.
  set (G0 := fold_left (nx.copy_node B) (authors_of B) (@empty_graph Z)).
  assert (HG0 : forall x y, edge_weight G0 x y = None).
  { intros x y. unfold edge_weight, G0. rewrite nbrs_copy_nodes. reflexivity. }
  assert (Hw : forall u v w,
             edge_weight (add_edges G0 (projected_edges B (authors_of B))) u v = Some w ->
             exists u' v', In v' (nx.nbrs2 B u') /\ w = len (nx.common B u' v')).
  { intros u v w E. apply edge_weight_add_edges in E.
    destruct E as [E|(e & He & _ & Hw)]; [rewrite HG0 in E; discriminate|].
    apply In_projected_edges in He. destruct He as (_ & Hv & Hlen).
    exists (fst (fst e)), (snd (fst e)). split; [exact Hv | congruence]. }
  split; [|split; [|split]].
  - intros n Hn. apply has_node_add_edges. unfold G0.
    apply has_node_copy_nodes. right. exact Hn.
  - intros u.
    destruct (has_edge (add_edges G0 (projected_edges B (authors_of B))) u u) eqn:E;
      [|reflexivity].
    rewrite has_edge_add_edges, has_edge_weight, HG0 in E. simpl in E.
    apply existsb_exists in E. destruct E as (e & He & Hp).
    apply In_projected_edges in He. destruct He as (_ & Hv & _).
    apply In_nbrs2 in Hv. destruct Hv as [Hne _].
    apply same_pair_eq in Hp. destruct Hp as [[E1 E2]|[E1 E2]]; congruence.
  - intros u v w E. destruct (Hw u v w E) as (u' & v' & _ & ->). unfold len. lia.
  - intros Hwf u v w E. destruct (Hw u v w E) as (u' & v' & Hv & ->).
    apply In_nbrs2 in Hv. destruct Hv as (_ & c & Hc & Hcv).
    assert (Hin : In c (nx.common B u' v')).
    { apply In_common. split; [exact Hc|]. apply (wf_mirror B Hwf), Hcv. }
    unfold len. destruct (nx.common B u' v'); [destruct Hin | simpl; lia].
Qed.

Lemma project_authors_shape_witness :
  project_authors (build_bipartite_graph_f df_chain)
  = Ok [("a", mkNode (Some r_author) [("c", 1)]);
        ("b", mkNode (Some r_author) []);
        ("c", mkNode None [("a", 1)])] /\
  forall u, has_edge [("a", mkNode (Some r_author) [("c", 1)]);
                      ("b", mkNode (Some r_author) []);
                      ("c", mkNode None [("a", 1)])] u u = false.
Proof.
  assert (E : project_authors (build_bipartite_graph_f df_chain)
              = Ok [("a", mkNode (Some r_author) [("c", 1)]);
                    ("b", mkNode (Some r_author) []);
                    ("c", mkNode None [("a", 1)])])
    by (vm_compute; reflexivity).
  split; [exact E|]. apply (project_authors_shape _ _ E).
Defined.

(** ** Clustering *)

Section Clustering.
Context {W : Type}.
Variable G : Graph W.

Lemma sumZ_zero (l : list Z) : (forall x, In x l -> x = 0) -> sumZ l = 0.
Proof.
  induction l as [|x l IH]; intros H; [reflexivity|].
  rewrite sumZ_cons, IH.
  - rewrite (H x (or_introl eq_refl)). reflexivity.
  - intros y Hy. apply H. right. exact Hy.
Qed.

Lemma two_members {A : Type} (l : list A) (x y : A) :
  In x l -> In y l -> x <> y -> (2 <= List.length l)%nat.
Proof.
  destruct l as [|a [|b l]]; simpl; try tauto; [|lia].
  intros [<-|[]] [<-|[]] H. contradiction.
Qed.

(** A node with a triangle has at least two neighbours, so the division is
    never by zero. *)
Lemma triangles_degree v :
  let '(d, t) := nx.triangles_and_degree G v in t <> 0 -> 2 <= d.
Proof.
  unfold nx.triangles_and_degree. intros Ht.
  set (vs := nx.vs_of G v) in *.
  assert (Hex : exists w x, In w vs /\ In x vs /\ In x (nx.vs_of G w)).
  { destruct (existsb (fun w => negb (len (filter (fun x => mem x (nx.vs_of G w)) vs) =? 0))
                      vs) eqn:E.
    - apply existsb_exists in E. destruct E as (w & Hw & Hlen).
      destruct (filter (fun x => mem x (nx.vs_of G w)) vs) as [|x l] eqn:Ef;
        [discriminate|].
      assert (Hx : In x (filter (fun x => mem x (nx.vs_of G w)) vs))
        by (rewrite Ef; left; reflexivity).
      apply filter_In in Hx. destruct Hx as [Hx Hm]. apply mem_In in Hm.
      exists w, x. auto.
    - exfalso. apply Ht. apply sumZ_zero. intros z Hz.
      apply in_map_iff in Hz. destruct Hz as (w & <- & Hw).
      assert (Hn : negb (len (filter (fun x => mem x (nx.vs_of G w)) vs) =? 0) = false).
      { destruct (negb (len (filter (fun x => mem x (nx.vs_of G w)) vs) =? 0)) eqn:En;
          [|reflexivity].
        rewrite <- E. symmetry. apply existsb_exists. exists w. auto. }
      apply negb_false_iff, Z.eqb_eq in Hn. exact Hn. }
  destruct Hex as (w & x & Hw & Hx & Hxw).
  unfold nx.vs_of in Hxw. apply in_remove in Hxw. destruct Hxw as [_ Hne].
  pose proof (two_members vs w x Hw Hx (fun E => Hne (eq_sym E))). unfold len. lia.
Qed.

Lemma clustering_of_ok vs :
  exists cs, nx.clustering_of G vs = Ok cs /\ List.length cs = List.length vs.
Proof.
  induction vs as [|v vs (cs & Hcs & Hlen)]; [exists []; auto|].
  cbn [nx.clustering_of].
  pose proof (triangles_degree v) as Ht.
  destruct (nx.triangles_and_degree G v) as [d t].
  destruct (t =? 0) eqn:E.
  - cbn [bind]. rewrite Hcs. cbn [bind]. eexists. split; [reflexivity|]. simpl. lia.
  - apply Z.eqb_neq in E. specialize (Ht E).
    destruct (truediv_ok t (d * (d - 1))) as [q Hq]; [nia|].
    rewrite Hq. cbn [bind]. rewrite Hcs. cbn [bind].
    eexists. split; [reflexivity|]. simpl. lia.
Qed.

Lemma average_clustering_ok :
  number_of_nodes G <> 0 -> exists c, nx.average_clustering G = Ok c.
Proof.
  intros Hn. unfold nx.average_clustering.
  destruct (clustering_of_ok (nodes G)) as (cs & Hcs & Hlen).
  rewrite Hcs. simpl.
  assert (E : (len cs =? 0) = false).
  { apply Z.eqb_neq. unfold len. rewrite Hlen, length_nodes.
    exact Hn. }
  rewrite E. eexists. reflexivity.
Qed.
End Clustering.

(** X5: avg_clustering is null on the graph without nodes and on no other:
    with at least one node the clustering coefficients are computed without
    a division by zero and their mean is stored. *)
Theorem avg_clustering_null_iff_empty {W : Type} (G : Graph W) :
  exists m,
    compute_metrics G = Ok m /\
    (dict_get m "avg_clustering" = Some PNone <-> number_of_nodes G = 0) /\
    (number_of_nodes G <> 0 ->
     exists c, nx.average_clustering G = Ok c /\
               dict_get m "avg_clustering" = Some (PFloat c)).
Proof.
  destruct (Z.eq_dec (number_of_nodes G) 0) as [E|E].
  - rewrite (dict_get_compute_metrics_empty G E). eexists. split; [reflexivity|].
    split; [split; [intros _; exact E | reflexivity] | contradiction].
  - destruct (compute_metrics_lookup G E) as (m & Hm & _ & _ & _ & _ & Ha).
    destruct (average_clustering_ok G E) as [c Hc].
    exists m. split; [exact Hm|]. rewrite Ha, Hc.
    split; [split; [discriminate | contradiction]|].
    intros _. exists c. auto.
Qed.

(** ** The shape of the metrics dict *)

Lemma keys_dict_set_congr {V : Type} (d1 d2 : dict V) k (v1 v2 : V) :
  keys d1 = keys d2 -> keys (dict_set d1 k v1) = keys (dict_set d2 k v2).
Proof.
  intros E. rewrite !keys_dict_set, E.
  assert (Hm : dict_mem d1 k = dict_mem d2 k).
  { destruct (dict_mem d1 k) eqn:E1, (dict_mem d2 k) eqn:E2; try reflexivity.
    - apply dict_mem_In in E1. rewrite E in E1. apply dict_mem_In in E1. congruence.
    - apply dict_mem_In in E2. rewrite <- E in E2. apply dict_mem_In in E2. congruence. }
  rewrite Hm. reflexivity.
Qed.

Lemma keys_clustering_block {W : Type} (G : Graph W) metrics :
  keys (clustering_block G metrics) =
  keys (dict_set metrics "avg_clustering" PNone).
Proof.
  unfold clustering_block. destruct (nx.average_clustering G);
    apply keys_dict_set_congr; reflexivity.
Qed.

Lemma dict_mem_set {V : Type} (d : dict V) k (v : V) k' :
  dict_mem (dict_set d k v) k' = (String.eqb k' k || dict_mem d k')%bool.
Proof.
  unfold dict_mem. rewrite dict_get_set. destruct (String.eqb k' k); reflexivity.
Qed.

Lemma keys_dict_set_present {V : Type} (d : dict V) k (v : V) :
  dict_mem d k = true -> keys (dict_set d k v) = keys d.
Proof. intros H. rewrite keys_dict_set, H. reflexivity. Qed.

Lemma keys_components_block {W : Type} (G : Graph W) metrics :
  keys (components_block G metrics) =
  keys (dict_set (dict_set (dict_set metrics "n_components" PNone)
                           "largest_component" PNone)
                 "avg_shortest_path" PNone).
Proof.
  unfold components_block, components_body.
  destruct (nx.connected_components G) as [|c cs].
  - simpl (1 <? 0). cbv iota. repeat apply keys_dict_set_congr. reflexivity.
  - destruct (1 <? _).
    + destruct (a <- nx.average_shortest_path_length _ ;; pyfloat a).
      * repeat apply keys_dict_set_congr. reflexivity.
      * apply keys_dict_set_congr.
        rewrite keys_dict_set_present by (rewrite !dict_mem_set; reflexivity).
        rewrite keys_dict_set_present by (rewrite !dict_mem_set; reflexivity).
        repeat apply keys_dict_set_congr. reflexivity.
    + repeat apply keys_dict_set_congr. reflexivity.
Qed.

Lemma keys_centrality_block {W : Type} (G : Graph W) metrics :
  keys (centrality_block G metrics) =
  keys (dict_set metrics "max_degree_centrality" PNone).
Proof.
  unfold centrality_block.
  destruct (dc <- nx.degree_centrality G;;
            match values dc with
            | [] => Ok 0%float
            | c :: cs => Ok (pymaxF c cs)
            end); apply keys_dict_set_congr; reflexivity.
Qed.

Lemma keys_dict_set_mem {V : Type} (d : dict V) k (v : V) :
  keys (dict_set d k v) = if mem k (keys d) then keys d else keys d ++ [k].
Proof.
  rewrite keys_dict_set. replace (mem k (keys d)) with (dict_mem d k); [reflexivity|].
  unfold mem. destruct (dict_mem d k) eqn:E.
  - symmetry. apply existsb_exists. exists k. split.
    + apply dict_mem_In. exact E.
    + apply String.eqb_refl.
  - symmetry. apply not_true_is_false. intros H.
    apply existsb_exists in H. destruct H as (x & Hx & Hk).
    apply String.eqb_eq in Hk. subst x. apply dict_mem_In in Hx. congruence.
Qed.

(** X7: the metrics dict has a fixed shape: the nine keys of [metric_keys],
    in that order, for a graph with nodes; for the graph without nodes the
    eight keys of [metric_keys_empty], max_degree_centrality left out. *)
Theorem compute_metrics_keys {W : Type} (G : Graph W) :
  exists m,
    compute_metrics G = Ok m /\
    keys m = if number_of_nodes G =? 0 then metric_keys_empty else metric_keys.
Proof.
  destruct (Z.eq_dec (number_of_nodes G) 0) as [E|E].
  - rewrite (dict_get_compute_metrics_empty G E). eexists. split; [reflexivity|].
    rewrite E. reflexivity.
  - destruct (compute_metrics_nonempty G E) as (mean & d & _ & _ & H).
    rewrite H. eexists. split; [reflexivity|].
    apply Z.eqb_neq in E. rewrite E.
    rewrite keys_centrality_block, keys_dict_set_mem, keys_components_block.
    rewrite !keys_dict_set_mem, keys_clustering_block. reflexivity.
Qed.


(** ** Connected components *)

Section Components.
Context {W : Type}.
Variable G : Graph W.
Hypothesis Hwf : wf_graph G = true.

Lemma reachable_refl u : has_node G u = true -> reachable G u u.
Proof. intros H. exists 0%nat. apply walk_here, H. Qed.

Lemma reachable_sym u v : reachable G u v -> reachable G v u.
Proof.
  intros [d H]. exists d.
  apply (walk_sym G (wf_closed G Hwf) (wf_symmetric G Hwf)), H.
Qed.

Lemma reachable_trans u v w : reachable G u v -> reachable G v w -> reachable G u w.
Proof. intros [n H1] [m H2]. exists (n + m)%nat. eapply walk_app; eassumption. Qed.

Lemma reachable_has_node u v : reachable G u v -> has_node G v = true.
Proof. intros [d H]. apply (walk_has_node G (wf_closed G Hwf) u v d H). Qed.

Lemma cc_loop_partition vs : forall seen,
  NoDup seen ->
  (forall x y, In x seen -> reachable G x y -> In y seen) ->
  (forall v, In v vs -> has_node G v = true) ->
  NoDup (seen ++ List.concat (nx.cc_loop G vs seen)) /\
  (forall x, In x (List.concat (nx.cc_loop G vs seen)) ->
             exists v, In v vs /\ reachable G v x) /\
  (forall v x, In v vs -> reachable G v x ->
               In x (seen ++ List.concat (nx.cc_loop G vs seen))).
Proof.
  induction vs as [|v vs IH]; intros seen ND Hclosed Hvs.
  - simpl. rewrite app_nil_r. split; [exact ND|]. split; [intros x []|intros v x []].
  - simpl. destruct (mem v seen) eqn:Em.
    + apply mem_In in Em.
      destruct (IH seen ND Hclosed (fun v' Hv' => Hvs v' (or_intror Hv')))
        as (H1 & H2 & H3).
      split; [exact H1|]. split.
      * intros x Hx. destruct (H2 x Hx) as (v' & Hv' & Hr). exists v'. simpl. auto.
      * intros v' x [<-|Hv'] Hr.
        -- apply in_or_app. left. apply (Hclosed v x Em Hr).
        -- apply (H3 v' x Hv' Hr).
    + apply mem_false in Em.
      assert (Hv : has_node G v = true) by (apply Hvs; left; reflexivity).
      destruct (bfs_from_spec G (wf_closed G Hwf) v Hv) as [NDc Hc].
      assert (ND' : NoDup (seen ++ nx.bfs_from G v)).
      { apply NoDup_app; [exact ND | exact NDc |].
        intros x Hx Hxc. apply Em. apply (Hclosed x v Hx).
        apply reachable_sym, Hc, Hxc. }
      assert (Hclosed' : forall x y, In x (seen ++ nx.bfs_from G v) ->
                                     reachable G x y -> In y (seen ++ nx.bfs_from G v)).
      { intros x y Hx Hr. apply in_app_or in Hx. apply in_or_app.
        destruct Hx as [Hx|Hx].
        - left. apply (Hclosed x y Hx Hr).
        - right. apply Hc. eapply reachable_trans; [apply Hc, Hx | exact Hr]. }
      destruct (IH _ ND' Hclosed' (fun v' Hv' => Hvs v' (or_intror Hv')))
        as (H1 & H2 & H3).
      cbn [List.concat]. split; [rewrite app_assoc; exact H1|]. split.
      * intros x Hx. apply in_app_or in Hx. destruct Hx as [Hx|Hx].
        -- exists v. split; [left; reflexivity | apply Hc, Hx].
        -- destruct (H2 x Hx) as (v' & Hv' & Hr). exists v'. simpl. auto.
      * intros v' x [<-|Hv'] Hr; rewrite app_assoc.
        -- apply in_or_app. left. apply in_or_app. right. apply Hc, Hr.
        -- apply (H3 v' x Hv' Hr).
Qed.

Lemma concat_connected_components :
  Permutation (List.concat (nx.connected_components G)) (nodes G).
Proof.
  destruct (cc_loop_partition (nodes G) [] (NoDup_nil _)
              (fun x y (H : In x []) _ => match H with end)
              (fun v Hv => proj2 (has_node_In G v) Hv)) as (H1 & H2 & H3).
  simpl in H1, H3. unfold nx.connected_components.
  apply NoDup_Permutation; [exact H1 | apply (wf_NoDup G Hwf)|].
  intros x. split.
  - intros Hx. destruct (H2 x Hx) as (v & _ & Hr).
    apply has_node_In, (reachable_has_node v x Hr).
  - intros Hx. apply (H3 x x Hx). apply reachable_refl, has_node_In, Hx.
Qed.

Lemma component_class c :
  In c (nx.connected_components G) ->
  c <> [] /\ forall u, In u c -> forall x, In x c <-> reachable G u x.
Proof.
  intros Hc. destruct (In_connected_components G c Hc) as (v & Hv & ->).
  destruct (bfs_from_spec G (wf_closed G Hwf) v Hv) as [_ Hs].
  split.
  - intros E. pose proof (proj2 (Hs v) (reachable_refl v Hv)) as Hin.
    rewrite E in Hin. exact Hin.
  - intros u Hu x. rewrite !Hs. apply Hs in Hu. split.
    + intros Hx. eapply reachable_trans; [apply reachable_sym, Hu | exact Hx].
    + intros Hx. eapply reachable_trans; eassumption.
Qed.
End Components.

(** X6: the connected components of a well-formed graph partition its
    nodes: listed one after the other they are the nodes of the graph, each
    once; no component is empty; and the members of a component are exactly
    the nodes that can be reached from any one of them. *)
Theorem connected_components_partition {W : Type} (G : Graph W) :
  wf_graph G = true ->
  Permutation (List.concat (nx.connected_components G)) (nodes G) /\
  forall c, In c (nx.connected_components G) ->
            c <> [] /\
            forall u, In u c -> forall x, In x c <-> reachable G u x.
Proof.
  intros Hwf. split.
  - apply concat_connected_components, Hwf.
  - intros c Hc. apply component_class; assumption.
Qed.

Lemma connected_components_partition_witness :
  wf_graph [("a", mkNode (Some r_author) [("c", 1)]);
            ("b", mkNode (Some r_author) []);
            ("c", mkNode None [("a", 1)])] = true /\
  Permutation
    (List.concat (nx.connected_components
               [("a", mkNode (Some r_author) [("c", 1)]);
                ("b", mkNode (Some r_author) []);
                ("c", mkNode None [("a", 1)])]))
    ["a"; "b"; "c"].
Proof.
  split; [reflexivity|].
  apply (connected_components_partition
           [("a", mkNode (Some r_author) [("c", 1)]);
            ("b", mkNode (Some r_author) []);
            ("c", mkNode None [("a", 1)])]).
  reflexivity.
Defined.


Lemma len_concat_lower (cs : list (list node)) c :
  In c cs ->
  (forall c', In c' cs -> c' <> []) ->
  len c + (len cs - 1) <= len (List.concat cs).
Proof.
  unfold len. induction cs as [|c0 cs IH]; [intros []|].
  intros Hin Hne. cbn [List.concat]. rewrite length_app.
  assert (Hall : forall l : list (list node),
             (forall c', In c' l -> c' <> []) ->
             Z.of_nat (List.length l) <= Z.of_nat (List.length (List.concat l))).
  { clear. induction l as [|x l IHl]; intros H; [simpl; lia|].
    cbn [List.concat]. rewrite length_app.
    specialize (IHl (fun c' Hc' => H c' (or_intror Hc'))).
    assert (x <> []) by (apply H; left; reflexivity).
    destruct x; [contradiction|]. simpl List.length. lia. }
  destruct Hin as [->|Hin].
  - specialize (Hall cs (fun c' Hc' => Hne c' (or_intror Hc'))).
    simpl List.length. lia.
  - specialize (IH Hin (fun c' Hc' => Hne c' (or_intror Hc'))).
    assert (c0 <> []) by (apply Hne; left; reflexivity).
    destruct c0; [contradiction|]. simpl List.length in *. lia.
Qed.

(** X8: for a well-formed graph with at least one node the metrics hold two
    integer counts, n_components and largest_component, both at least 1,
    and together at most n_nodes + 1: the components other than the largest
    one have a node each. *)
Theorem compute_metrics_component_counts {W : Type} (G : Graph W) :
  wf_graph G = true ->
  number_of_nodes G <> 0 ->
  exists m k l,
    compute_metrics G = Ok m /\
    dict_get m "n_components" = Some (PInt k) /\
    dict_get m "largest_component" = Some (PInt l) /\
    k = len (nx.connected_components G) /\
    1 <= k /\ 1 <= l /\ k + l <= number_of_nodes G + 1.
Proof.
  intros Hwf Hn.
  destruct (compute_metrics_lookup G Hn) as (m & Hm & _ & _ & Hl & Hk & _).
  pose proof (concat_connected_components G Hwf) as Hperm.
  pose proof (largest_cc_In G Hn) as Hin.
  assert (Hne : forall c', In c' (nx.connected_components G) -> c' <> [])
    by (intros c' Hc'; apply (component_class G Hwf c' Hc')).
  pose proof (len_concat_lower _ _ Hin Hne) as Hsum.
  assert (Hlen : len (List.concat (nx.connected_components G)) = number_of_nodes G).
  { unfold len, number_of_nodes. rewrite (Permutation_length Hperm).
    unfold nodes, keys. rewrite length_map. reflexivity. }
  assert (Hl1 : 1 <= len (largest_cc G)).
  { specialize (Hne _ Hin). unfold len.
    destruct (largest_cc G); [contradiction | simpl List.length; lia]. }
  assert (Hk1 : 1 <= len (nx.connected_components G)).
  { pose proof (connected_components_nonempty G Hn) as Hc. unfold len.
    destruct (nx.connected_components G); [contradiction | simpl List.length; lia]. }
  exists m, (len (nx.connected_components G)), (len (largest_cc G)).
  split; [exact Hm|].
  assert (Hv : (1 <? len (largest_cc G)) = true ->
               exists f, avg_path_value G = Ok f).
  { intros E. apply Z.ltb_lt in E.
    destruct (avg_path_value_wf G Hwf E) as (f & Hf & _). eauto. }
  destruct (1 <? len (largest_cc G)) eqn:E.
  - destruct (Hv eq_refl) as [f Hf]. rewrite Hf in Hl, Hk.
    repeat (split; [assumption || reflexivity || lia|]). lia.
  - repeat (split; [assumption || reflexivity || lia|]). lia.
Qed.

Lemma compute_metrics_component_counts_witness :
  exists m k l,
    compute_metrics
      [("a", mkNode (Some r_author) [("c", 1)]);
       ("b", mkNode (Some r_author) []);
       ("c", mkNode None [("a", 1)])] = Ok m /\
    dict_get m "n_components" = Some (PInt k) /\
    dict_get m "largest_component" = Some (PInt l) /\
    k = 2 /\ 1 <= k /\ 1 <= l /\ k + l <= 3 + 1.
Proof.
  apply (compute_metrics_component_counts
           [("a", mkNode (Some r_author) [("c", 1)]);
            ("b", mkNode (Some r_author) []);
            ("c", mkNode None [("a", 1)])]).
  - reflexivity.
  - discriminate.
Defined.


(** ** Who is ranked, and in which order *)

Lemma NoDup_firstn {A : Type} (l : list A) n : NoDup l -> NoDup (firstn n l).
Proof.
  intros H. rewrite <- (firstn_skipn n l) in H. apply NoDup_app_remove_r in H.
  exact H.
Qed.

Lemma dict_get_degree_weight (P : Graph Z) n :
  dict_get (degree_weight P) n =
  match dict_get P n with
  | Some d => Some (weighted_degree_of n d)
  | None => None
  end.
Proof.
  unfold degree_weight. induction P as [|[k d] P IH]; simpl; [reflexivity|].
  destruct (String.eqb n k) eqn:E; [|exact IH].
  apply String.eqb_eq in E. subst k. reflexivity.
Qed.

Lemma top_influencers_authors_eq (P : Graph Z) (topk : Z) l :
  top_influencers_by_centrality P topk = Ok l ->
  number_of_nodes P <> 0 ->
  exists dc,
    nx.degree_centrality P = Ok dc /\
    map author l =
    slice_to (sorted_reverse (fun x => get_default dc x 0%float) (nodes P)) topk /\
    forall e, In e l ->
              weighted_degree e =
              float_of_Z (get_default (degree_weight P) (author e) 0).
Proof.
  intros Hl Hn. unfold top_influencers_by_centrality in Hl.
  apply Z.eqb_neq in Hn. rewrite Hn in Hl.
  destruct (degree_centrality_ok P) as [dc Hdc]. rewrite Hdc in Hl.
  cbn [bind app] in Hl. injection Hl as <-.
  exists dc. split; [exact Hdc|]. split.
  - rewrite map_map. cbn [author]. apply map_id.
  - intros e He. apply in_map_iff in He. destruct He as (n & <- & _). reflexivity.
Qed.

(** X9: on a well-formed graph no author is ranked twice; with [topK] at
    least the number of nodes every node is ranked; and the weighted degree
    of an entry is that of its node in the graph: the sum of the weights of
    its edges, a self-loop counted twice. *)
Theorem top_influencers_authors (P : Graph Z) (topk : Z) l :
  wf_graph P = true ->
  top_influencers_by_centrality P topk = Ok l ->
  NoDup (map author l) /\
  (number_of_nodes P <= topk -> Permutation (map author l) (nodes P)) /\
  (forall e, In e l ->
             exists d, dict_get P (author e) = Some d /\
                       weighted_degree e =
                       float_of_Z (weighted_degree_of (author e) d)).
Proof.
  intros Hwf Hl. pose proof (wf_NoDup P Hwf) as ND.
  destruct (Z.eq_dec (number_of_nodes P) 0) as [E|E].
  - unfold top_influencers_by_centrality in Hl. rewrite E in Hl.
    injection Hl as <-. simpl. split; [constructor|]. split; [|intros e []].
    intros _. unfold number_of_nodes, len in E.
    destruct P; [reflexivity | discriminate].
  - destruct (top_influencers_authors_eq P topk l Hl E) as (dc & _ & Ha & Hw).
    pose proof (sorted_reverse_perm (fun x => get_default dc x 0%float) (nodes P))
      as Hp.
    assert (NDs : NoDup (sorted_reverse (fun x => get_default dc x 0%float) (nodes P)))
      by (eapply Permutation_NoDup; eassumption).
    split; [|split].
    + rewrite Ha. destruct (slice_to_firstn
                              (sorted_reverse (fun x => get_default dc x 0%float)
                                              (nodes P)) topk) as [n ->].
      apply NoDup_firstn, NDs.
    + intros Hk. rewrite Ha. unfold slice_to.
      assert (Hpos : 0 < number_of_nodes P)
        by (unfold number_of_nodes, len in *; lia).
      destruct (topk <? 0) eqn:E0; [apply Z.ltb_lt in E0; lia|].
      rewrite firstn_all2; [symmetry; exact Hp|].
      rewrite length_sorted_reverse. unfold number_of_nodes, len in Hk.
      unfold nodes, keys. rewrite length_map. lia.
    + intros e He. rewrite (Hw e He).
      assert (Hin : In (author e) (nodes P)).
      { assert (Hin : In (author e) (map author l)) by (apply in_map, He).
        rewrite Ha in Hin.
        destruct (slice_to_firstn
                    (sorted_reverse (fun x => get_default dc x 0%float) (nodes P))
                    topk) as [n Hs].
        rewrite Hs in Hin.
        apply (Permutation_in _ (Permutation_sym Hp)).
        rewrite <- (firstn_skipn n). apply in_or_app. left. exact Hin. }
      apply has_node_In in Hin. unfold has_node, dict_mem in Hin.
      destruct (dict_get P (author e)) as [d|] eqn:Ed; [|discriminate].
      exists d. split; [reflexivity|].
      unfold get_default. rewrite dict_get_degree_weight, Ed. reflexivity.
Qed.

Lemma top_influencers_authors_witness :
  exists l,
    top_influencers_by_centrality P_scenario 10 = Ok l /\
    NoDup (map author l) /\
    Permutation (map author l) (nodes P_scenario).
Proof.
  eexists. split; [vm_compute; reflexivity|].
  destruct (top_influencers_authors P_scenario 10 _ eq_refl eq_refl)
    as (H1 & H2 & _).
  split; [exact H1|]. apply H2. vm_compute. discriminate.
Defined.

Section Stable.
Context {A : Type} (key : A -> float).

Lemma before_In (x y : A) l : before x y l -> In y l.
Proof. induction 1; simpl; auto. Qed.

Lemma before_insert_desc (x y a : A) l :
  before x y l -> before x y (insert_desc key a l).
Proof.
  induction 1 as [l Hy|b l Hb IH]; simpl.
  - destruct (PrimFloat.ltb (key a) (key x)).
    + apply before_here. apply (Permutation_in _ (insert_desc_perm key a l)).
      right. exact Hy.
    + apply before_skip, before_here, Hy.
  - destruct (PrimFloat.ltb (key a) (key b)).
    + apply before_skip, IH.
    + apply before_skip, before_skip, Hb.
Qed.

Lemma insert_desc_front (a y : A) l :
  In y l ->
  before a y (insert_desc key a l) \/ PrimFloat.ltb (key a) (key y) = true.
Proof.
  induction l as [|z l IH]; intros Hy; [destruct Hy|]. simpl.
  destruct (PrimFloat.ltb (key a) (key z)) eqn:E.
  - destruct Hy as [->|Hy]; [right; exact E|].
    destruct (IH Hy) as [H|H]; [left; apply before_skip, H | right; exact H].
  - left. apply before_here, Hy.
Qed.

Lemma sorted_reverse_stable (x y : A) l :
  before x y l ->
  before x y (sorted_reverse key l) \/ PrimFloat.ltb (key x) (key y) = true.
Proof.
  induction 1 as [l Hy|b l Hb IH]; simpl.
  - apply insert_desc_front.
    apply (Permutation_in _ (sorted_reverse_perm key l)), Hy.
  - destruct IH as [H|H]; [left; apply before_insert_desc, H | right; exact H].
Qed.

Lemma before_firstn (x y : A) l : forall n,
  NoDup l -> before x y l -> In y (firstn n l) -> before x y (firstn n l).
Proof.
  intros n ND Hb. revert n ND.
  induction Hb as [l Hy|b l Hb IH]; intros n ND Hin.
  - destruct n as [|n]; [destruct Hin|]. simpl in *.
    apply before_here. destruct Hin as [<-|Hin]; [|exact Hin].
    inversion ND; contradiction.
  - destruct n as [|n]; [destruct Hin|]. simpl in *.
    inversion ND as [|? ? Hnb ND']; subst.
    apply before_skip, IH; [exact ND'|].
    destruct Hin as [<-|Hin]; [|exact Hin].
    exfalso. apply Hnb, (before_In _ _ _ Hb).
Qed.
End Stable.

(** X10: the ranking is stable.  Of two nodes of a well-formed graph, the
    one that comes later in the graph is ranked before the other only when
    its degree centrality is strictly larger; nodes with equal centrality
    keep the order the graph has them in (not the order of their names). *)
Theorem top_influencers_stable (P : Graph Z) (topk : Z) l dc :
  wf_graph P = true ->
  top_influencers_by_centrality P topk = Ok l ->
  nx.degree_centrality P = Ok dc ->
  forall x y,
    before x y (nodes P) ->
    In y (map author l) ->
    before x y (map author l) \/
    PrimFloat.ltb (get_default dc x 0%float) (get_default dc y 0%float) = true.
Proof.
  intros Hwf Hl Hdc x y Hb Hy. pose proof (wf_NoDup P Hwf) as ND.
  destruct (Z.eq_dec (number_of_nodes P) 0) as [E|E].
  - unfold top_influencers_by_centrality in Hl. rewrite E in Hl.
    injection Hl as <-. destruct Hy.
  - destruct (top_influencers_authors_eq P topk l Hl E) as (dc' & Hdc' & Ha & _).
    rewrite Hdc in Hdc'. injection Hdc' as <-.
    set (key := fun x : string => get_default dc x 0%float) in *.
    destruct (sorted_reverse_stable key x y (nodes P) Hb) as [H|H]; [|right; exact H].
    left. rewrite Ha in *.
    destruct (slice_to_firstn (sorted_reverse key (nodes P)) topk) as [n Hs].
    rewrite Hs in *. apply before_firstn; [|exact H|exact Hy].
    eapply Permutation_NoDup; [apply sorted_reverse_perm | exact ND].
Qed.


Lemma top_influencers_stable_witness :
  exists l dc,
    top_influencers_by_centrality P_scenario 10 = Ok l /\
    nx.degree_centrality P_scenario = Ok dc /\
    (before "a1" "a2" (map author l) \/
     PrimFloat.ltb (get_default dc "a1" 0%float) (get_default dc "a2" 0%float)
     = true).
Proof.
  eexists. eexists. split; [vm_compute; reflexivity|].
  split; [vm_compute; reflexivity|].
  apply (top_influencers_stable P_scenario 10 _ _ eq_refl eq_refl eq_refl).
  - apply before_here. left. reflexivity.
  - right. left. reflexivity.
Defined.


(** ** The categories *)

Lemma In_unique (l : list string) x : In x (unique l) <-> In x l.
Proof.
  induction l as [|y l IH]; simpl; [tauto|].
  rewrite filter_In, IH. split.
  - intros [H|[H _]]; auto.
  - intros [H|H]; [auto|].
    destruct (string_dec y x) as [E|E]; [auto|]. right. split; [exact H|].
    destruct (String.eqb x y) eqn:Ex; [|reflexivity].
    apply String.eqb_eq in Ex. congruence.
Qed.

Lemma NoDup_unique (l : list string) : NoDup (unique l).
Proof.
  induction l as [|y l IH]; simpl; constructor.
  - rewrite filter_In, String.eqb_refl. intros [_ H]. discriminate.
  - apply NoDup_filter, IH.
Qed.

Lemma insert_str_perm x l : Permutation (x :: l) (insert_str x l).
Proof.
  induction l as [|y l IH]; simpl; [reflexivity|].
  destruct (String.ltb x y); [reflexivity|].
  rewrite perm_swap. apply perm_skip, IH.
Qed.

Lemma sorted_str_perm l : Permutation l (sorted_str l).
Proof.
  induction l as [|x l IH]; simpl; [reflexivity|].
  rewrite <- insert_str_perm. apply perm_skip, IH.
Qed.

Lemma ltb_total_str (x y : string) :
  String.ltb x y = false -> x <> y -> String.ltb y x = true.
Proof.
  unfold String.ltb. intros H Hne.
  rewrite String.compare_antisym.
  destruct (String.compare x y) eqn:E; simpl; try reflexivity; try discriminate.
  apply String.compare_eq_iff in E. contradiction.
Qed.

Lemma Sorted_insert_str x l :
  ~ In x l ->
  Sorted (fun a b => String.ltb a b = true) l ->
  Sorted (fun a b => String.ltb a b = true) (insert_str x l).
Proof.
  induction l as [|y l IH]; intros Hx Hl; simpl.
  - repeat constructor.
  - inversion Hl as [|? ? Hs Hh]; subst.
    destruct (String.ltb x y) eqn:E.
    + constructor; [exact Hl|]. constructor. exact E.
    + assert (Hyx : String.ltb y x = true).
      { apply ltb_total_str; [exact E|]. intros ->. apply Hx. left. reflexivity. }
      constructor; [apply IH; [intros H; apply Hx; right; exact H | exact Hs]|].
      destruct l as [|z l]; simpl; [constructor; exact Hyx|].
      destruct (String.ltb x z); constructor; [exact Hyx|].
      inversion Hh; assumption.
Qed.

Lemma Sorted_sorted_str l :
  NoDup l -> Sorted (fun a b => String.ltb a b = true) (sorted_str l).
Proof.
  induction 1 as [|x l Hx _ IH]; simpl; [constructor|].
  apply Sorted_insert_str; [|exact IH].
  intros H. apply Hx. apply (Permutation_in _ (Permutation_sym (sorted_str_perm l))), H.
Qed.

(** X11: the categories the per-category loop runs over come in strictly
    ascending order, none twice.  With a content_type column they are the
    categories of the records, a null one read as "unknown"; without the
    column there is the single category "unknown". *)
Theorem content_types_sorted_distinct {W : Type} (df : DataFrame W) :
  Sorted (fun a b => String.ltb a b = true) (content_types df) /\
  NoDup (content_types df) /\
  (has_content_type df = true ->
   forall c, In c (content_types df) <->
             exists r, In r (iterrows df) /\
                       match content_type r with
                       | Some s => s
                       | None => "unknown"
                       end = c) /\
  (has_content_type df = false -> content_types df = ["unknown"]).
Proof.
  unfold content_types. split; [|split; [|split]].
  - apply Sorted_sorted_str, NoDup_unique.
  - eapply Permutation_NoDup; [apply sorted_str_perm | apply NoDup_unique].
  - intros E c. rewrite E. split.
    + intros H. apply (Permutation_in _ (Permutation_sym (sorted_str_perm _))) in H.
      apply (proj1 (In_unique _ _)) in H. unfold fillna in H. rewrite map_map in H.
      apply in_map_iff in H. destruct H as (r & Hc & Hr). eauto.
    + intros (r & Hr & Hc). apply (Permutation_in _ (sorted_str_perm _)).
      apply In_unique. unfold fillna. rewrite map_map. apply in_map_iff. eauto.
  - intros E. rewrite E. reflexivity.
Qed.


(** ** The tables of analyze_per_content *)

Section UpdateFacts.
Context {V : Type}.
Implicit Types (d : dict V) (kvs : list (string * V)).

Lemma dict_get_update_notin kvs : forall d k,
  ~ In k (map fst kvs) -> dict_get (update d kvs) k = dict_get d k.
Proof.
  unfold update. induction kvs as [|[k0 v0] kvs IH]; intros d k Hk; simpl; [reflexivity|].
  rewrite IH by (intros H; apply Hk; right; exact H).
  apply dict_get_set_other. intros ->. apply Hk. left. reflexivity.
Qed.

Lemma dict_get_update_in kvs : forall d k v,
  NoDup (map fst kvs) -> In (k, v) kvs -> dict_get (update d kvs) k = Some v.
Proof.
  induction kvs as [|[k0 v0] kvs IH]; intros d k v ND Hin; [destruct Hin|].
  simpl in ND. inversion ND as [|? ? Hn ND']; subst.
  destruct Hin as [[= -> ->]|Hin].
  - change (update d ((k, v) :: kvs)) with (update (dict_set d k v) kvs).
    rewrite dict_get_update_notin by exact Hn. apply dict_get_set_same.
  - change (update d ((k0, v0) :: kvs)) with (update (dict_set d k0 v0) kvs).
    apply IH; assumption.
Qed.

Lemma keys_update kvs : forall d,
  NoDup (map fst kvs) ->
  keys (update d kvs) =
  keys d ++ filter (fun k => negb (mem k (keys d))) (map fst kvs).
Proof.
  induction kvs as [|[k0 v0] kvs IH]; intros d ND.
  - simpl. rewrite app_nil_r. reflexivity.
  - simpl in ND. inversion ND as [|? ? Hn ND']; subst.
    change (update d ((k0, v0) :: kvs)) with (update (dict_set d k0 v0) kvs).
    rewrite (IH _ ND'), keys_dict_set_mem. cbn [map fst filter].
    destruct (mem k0 (keys d)) eqn:E; cbn [negb].
    + reflexivity.
    + rewrite <- app_assoc. cbn [app]. do 2 f_equal.
      apply filter_ext_in. intros k Hk. f_equal. unfold mem.
      rewrite existsb_app. cbn [existsb]. rewrite orb_false_r.
      destruct (String.eqb k k0) eqn:Ek; [|apply orb_false_r].
      apply String.eqb_eq in Ek. subst. contradiction.
Qed.
End UpdateFacts.

Lemma map_fst_combine {A B C : Type} (R : A -> B -> Prop) (f : B -> C) l rs :
  Forall2 R l rs -> map fst (combine l (map f rs)) = l.
Proof. induction 1; simpl; [reflexivity|]. f_equal. assumption. Qed.

Lemma Forall2_In_l {A B : Type} (R : A -> B -> Prop) l rs x :
  Forall2 R l rs -> In x l -> exists y, In y rs /\ R x y.
Proof.
  induction 1 as [|a b l rs Hab _ IH]; intros Hin; [destruct Hin|].
  destruct Hin as [<-|Hin].
  - exists b. split; [left; reflexivity | exact Hab].
  - destruct (IH Hin) as (y & Hy & HR). exists y. split; [right; exact Hy | exact HR].
Qed.

Lemma In_combine_map {A B C : Type} (f : B -> C) (l : list A) : forall rs c r,
  In (c, r) (combine l rs) -> In (c, f r) (combine l (map f rs)).
Proof.
  induction l as [|x l IH]; intros [|y rs] c r H; simpl in *; try contradiction.
  destruct H as [[= -> ->]|H]; [left; reflexivity | right; apply IH, H].
Qed.

Lemma NoDup_content_types {W : Type} (df : DataFrame W) : NoDup (content_types df).
Proof.
  unfold content_types.
  eapply Permutation_NoDup; [apply sorted_str_perm | apply NoDup_unique].
Qed.

Section AnalyzeFacts.
Variable W : Type.
Variable wadd : W -> W -> W.
Variable wone : W.
Implicit Types (df : DataFrame W) (acc res : Summary * list InfluencerRow).

Lemma analyze_one_pipeline label df acc :
  analyze_one wadd wone label df acc =
  (r <- pipeline wadd wone df ;;
   Ok (dict_set (fst acc) label (fst r), snd acc ++ tagged label r)).
Proof.
  unfold analyze_one, pipeline.
  destruct (project_authors _) as [P|e]; [|reflexivity]. cbn [bind].
  destruct (compute_metrics P) as [m|e]; [|reflexivity]. cbn [bind].
  destruct (top_influencers_by_centrality P 10) as [infl|e]; reflexivity.
Qed.

Lemma pipeline_returns df :
  authors_in (iterrows df) <> [] -> exists r, pipeline wadd wone df = Ok r.
Proof.
  intros H. unfold pipeline.
  destruct (project_authors_returns (build_bipartite_graph wadd wone df)
              (build_from_last_subreddit W wadd wone (iterrows df) H)) as [P HP].
  rewrite HP. cbn [bind].
  destruct (compute_metrics_total P) as [m Hm]. rewrite Hm. cbn [bind].
  destruct (top_influencers_total P 10) as [l Hl]. rewrite Hl. cbn [bind].
  eexists. reflexivity.
Qed.

Lemma pipeline_raises df :
  authors_in (iterrows df) = [] ->
  pipeline wadd wone df = Raise NetworkXAlgorithmError.
Proof.
  intros H. unfold pipeline, build_bipartite_graph.
  rewrite (build_from_all_skipped W wadd wone _ _ H). reflexivity.
Qed.

Lemma pipeline_returns_iff df :
  (exists r, pipeline wadd wone df = Ok r) <-> authors_in (iterrows df) <> [].
Proof.
  split; [|apply pipeline_returns].
  intros [r Hr] H. rewrite (pipeline_raises df H) in Hr. discriminate.
Qed.

Lemma kept_in_category df c sub :
  select_content_type df c = Ok sub ->
  (authors_in (iterrows sub) <> [] <->
   exists r, In r (iterrows df) /\ content_type r = Some c /\ record_pair r <> None).
Proof.
  unfold select_content_type. destruct (has_content_type df); [|discriminate].
  intros [= <-]. cbn [iterrows]. split.
  - intros H. destruct (authors_in _) as [|a l] eqn:E; [contradiction|].
    assert (Ha : In a (authors_in
                         (filter (fun r => match content_type r with
                                           | Some c0 => String.eqb c0 c
                                           | None => false
                                           end) (iterrows df))))
      by (rewrite E; left; reflexivity).
    apply In_authors_in in Ha. destruct Ha as (r & s & Hr & Hp).
    apply filter_In in Hr. destruct Hr as [Hr Hc].
    exists r. split; [exact Hr|]. split; [|congruence].
    destruct (content_type r) as [c0|]; [|discriminate].
    apply String.eqb_eq in Hc. congruence.
  - intros (r & Hr & Hc & Hp) H.
    destruct (record_pair r) as [[a s]|] eqn:Ep; [|contradiction].
    assert (Ha : In a (authors_in
                         (filter (fun r => match content_type r with
                                           | Some c0 => String.eqb c0 c
                                           | None => false
                                           end) (iterrows df)))).
    { apply In_authors_in. exists r, s. split; [|exact Ep].
      apply filter_In. split; [exact Hr|]. rewrite Hc. apply String.eqb_refl. }
    rewrite H in Ha. destruct Ha.
Qed.

Lemma analyze_loop_spec df cts : forall acc res,
  analyze_loop wadd wone df cts acc = Ok res ->
  exists rs,
    Forall2 (fun c r => exists sub, select_content_type df c = Ok sub /\
                                    pipeline wadd wone sub = Ok r) cts rs /\
    fst res = update (fst acc) (combine cts (map fst rs)) /\
    snd res = snd acc ++
              List.concat (map (fun cr => tagged (fst cr) (snd cr)) (combine cts rs)).
Proof.
  induction cts as [|c cts IH]; intros acc res H.
  - simpl in H. injection H as <-. exists []. split; [constructor|].
    simpl. rewrite app_nil_r. split; reflexivity.
  - cbn [analyze_loop] in H.
    destruct (select_content_type df c) as [sub|e] eqn:Es; [|discriminate].
    cbn [bind] in H. rewrite analyze_one_pipeline in H.
    destruct (pipeline wadd wone sub) as [r|e] eqn:Er; [|discriminate].
    cbn [bind] in H. destruct (IH _ _ H) as (rs & HF & H1 & H2).
    exists (r :: rs). split; [constructor; [eauto | exact HF]|].
    cbn [fst snd] in H1, H2. split.
    + rewrite H1. reflexivity.
    + rewrite H2. cbn [combine map List.concat fst snd]. rewrite app_assoc. reflexivity.
Qed.

Lemma analyze_loop_returns df cts : forall acc,
  (forall c, In c cts -> exists sub r, select_content_type df c = Ok sub /\
                                       pipeline wadd wone sub = Ok r) ->
  exists res, analyze_loop wadd wone df cts acc = Ok res.
Proof.
  induction cts as [|c cts IH]; intros acc H; [eexists; reflexivity|].
  cbn [analyze_loop].
  destruct (H c (or_introl eq_refl)) as (sub & r & -> & Hr). cbn [bind].
  rewrite analyze_one_pipeline, Hr. cbn [bind].
  apply IH. intros c' Hc'. apply H. right. exact Hc'.
Qed.

(** X12: the analysis returns exactly when the frame has a content_type
    column, some record has both an author and a community, and so has some
    record of every category it runs over.  (A category of null cells only,
    read as "unknown", has no such record: its subset is empty.) *)
Theorem analyze_per_content_returns_iff df :
  (exists res, analyze_per_content wadd wone df = Ok res) <->
  has_content_type df = true /\
  authors_in (iterrows df) <> [] /\
  forall c, In c (content_types df) ->
            exists r, In r (iterrows df) /\ content_type r = Some c /\
                      record_pair r <> None.
Proof.
  unfold analyze_per_content. rewrite analyze_one_pipeline. split.
  - intros [res H].
    destruct (pipeline wadd wone df) as [r|e] eqn:Er; [|discriminate].
    cbn [bind] in H.
    assert (Hcol : has_content_type df = true).
    { destruct (has_content_type df) eqn:E; [reflexivity|].
      unfold content_types in H. rewrite E in H. cbn in H.
      unfold select_content_type in H. rewrite E in H. discriminate. }
    split; [exact Hcol|]. split; [apply pipeline_returns_iff; eauto|].
    intros c Hc. destruct (analyze_loop_spec _ _ _ _ H) as (rs & HF & _).
    destruct (Forall2_In_l _ _ _ _ HF Hc) as (r' & _ & sub & Hs & Hp).
    apply (kept_in_category df c sub Hs). apply pipeline_returns_iff. eauto.
  - intros (Hcol & Hall & Hc).
    destruct (pipeline_returns df Hall) as [r ->]. cbn [bind].
    apply analyze_loop_returns. intros c Hin.
    assert (Hs : select_content_type df c =
                 Ok (mkDF true
                       (filter (fun r => match content_type r with
                                         | Some c0 => String.eqb c0 c
                                         | None => false
                                         end) (iterrows df))))
      by (unfold select_content_type; rewrite Hcol; reflexivity).
    destruct (pipeline_returns _ (proj2 (kept_in_category df c _ Hs) (Hc c Hin)))
      as [r' Hr'].
    eauto.
Qed.

(** X13: when the analysis returns, the summary has the row "all" first and
    then one row per category in ascending order; the row of a category holds
    the metrics of the projection of its own records (a category named "all"
    takes the place of the overall row), and the influencer rows are those of
    the whole frame followed by those of each category in turn. *)
Theorem analyze_per_content_tables df summary infl :
  analyze_per_content wadd wone df = Ok (summary, infl) ->
  exists all_r rs,
    pipeline wadd wone df = Ok all_r /\
    Forall2 (fun c r => exists sub, select_content_type df c = Ok sub /\
                                    pipeline wadd wone sub = Ok r)
            (content_types df) rs /\
    keys summary =
      "all" :: filter (fun c => negb (String.eqb c "all")) (content_types df) /\
    (forall c r, In (c, r) (combine (content_types df) rs) ->
                 dict_get summary c = Some (fst r)) /\
    (~ In "all" (content_types df) -> dict_get summary "all" = Some (fst all_r)) /\
    infl = tagged "all" all_r ++
           List.concat (map (fun cr => tagged (fst cr) (snd cr))
                            (combine (content_types df) rs)).
Proof.
  unfold analyze_per_content. rewrite analyze_one_pipeline. intros H.
  destruct (pipeline wadd wone df) as [all_r|e]; [|discriminate].
  cbn [bind] in H. destruct (analyze_loop_spec _ _ _ _ H) as (rs & HF & H1 & H2).
  cbn [fst snd app dict_set] in H1, H2. subst summary infl.
  pose proof (map_fst_combine _ fst _ _ HF) as Hk.
  assert (ND : NoDup (map fst (combine (content_types df) (map fst rs))))
    by (rewrite Hk; apply NoDup_content_types).
  exists all_r, rs. split; [reflexivity|]. split; [exact HF|].
  split; [|split; [|split; [|reflexivity]]].
  - rewrite (keys_update _ _ ND), Hk. cbn [keys map fst app]. f_equal.
    apply filter_ext. intros c. unfold mem. cbn [existsb].
    rewrite orb_false_r. reflexivity.
  - intros c r Hin. apply (dict_get_update_in _ _ _ _ ND).
    apply In_combine_map, Hin.
  - intros Hn. rewrite dict_get_update_notin by (rewrite Hk; exact Hn).
    reflexivity.
Qed.
End AnalyzeFacts.

Lemma analyze_per_content_tables_witness :
  exists summary infl,
    analyze_per_content_f df_null_category = Ok (summary, infl) /\
    keys summary = ["all"; "unknown"].
Proof.
  eexists. eexists. split; [vm_compute; reflexivity|].
  destruct (analyze_per_content_tables _ PrimFloat.add 1%float df_null_category
              _ _ eq_refl) as (all_r & rs & _ & _ & Hk & _).
  exact Hk.
Defined.


(** ** main on a frame without categories *)

Lemma unique_constant {A : Type} (x : string) (l : list A) :
  l <> [] -> unique (map (fun _ => x) l) = [x].
Proof.
  induction l as [|a l IH]; intros H; [contradiction|]. simpl.
  destruct l as [|b l]; [reflexivity|].
  rewrite IH by discriminate. simpl. rewrite String.eqb_refl. reflexivity.
Qed.

Section MainFacts.
Variable W : Type.
Variable wadd : W -> W -> W.
Variable wone : W.
Implicit Types (df : DataFrame W).

Lemma build_add_content_type df :
  build_bipartite_graph wadd wone (add_content_type df) =
  build_bipartite_graph wadd wone df.
Proof.
  unfold build_bipartite_graph, build_from, add_content_type. cbn [iterrows].
  generalize (@empty_graph W).
  induction (iterrows df) as [|r rows IH]; intros G; simpl; [reflexivity|].
  rewrite <- IH. reflexivity.
Qed.

Lemma pipeline_add_content_type df :
  pipeline wadd wone (add_content_type df) = pipeline wadd wone df.
Proof. unfold pipeline. rewrite build_add_content_type. reflexivity. Qed.

Lemma content_types_add_content_type df :
  iterrows df <> [] -> content_types (add_content_type df) = ["unknown"].
Proof.
  intros H. unfold content_types, add_content_type, fillna.
  cbn [has_content_type iterrows]. rewrite !map_map. cbn [content_type].
  rewrite (unique_constant "unknown" (iterrows df) H). reflexivity.
Qed.

Lemma select_add_content_type df :
  select_content_type (add_content_type df) "unknown" = Ok (add_content_type df).
Proof.
  unfold select_content_type, add_content_type. cbn [has_content_type iterrows].
  do 2 f_equal. induction (iterrows df) as [|r rows IH]; simpl; [reflexivity|].
  rewrite IH. reflexivity.
Qed.

(** X14: run on a frame without a content_type column, main gives every
    record the category "unknown" and the analysis then holds the overall
    result twice, under "all" and under "unknown", row for row; when no
    record has both an author and a community it raises
    NetworkXAlgorithmError.  The KeyError of the per-category selection is
    never met. *)
Theorem main_analysis_without_column df :
  has_content_type df = false ->
  (authors_in (iterrows df) = [] ->
   main_analysis wadd wone df = Raise NetworkXAlgorithmError) /\
  (authors_in (iterrows df) <> [] ->
   exists r,
     pipeline wadd wone df = Ok r /\
     main_analysis wadd wone df =
     Ok ([("all", fst r); ("unknown", fst r)],
         tagged "all" r ++ tagged "unknown" r)).
Proof.
  intros Hcol. unfold main_analysis. rewrite Hcol. cbv zeta.
  unfold analyze_per_content. rewrite analyze_one_pipeline, pipeline_add_content_type.
  split.
  - intros H. rewrite (pipeline_raises W wadd wone df H). reflexivity.
  - intros H. destruct (pipeline_returns W wadd wone df H) as [r Hr].
    exists r. split; [exact Hr|]. rewrite Hr. cbn [bind].
    rewrite content_types_add_content_type
      by (intros E; apply H; rewrite E; reflexivity).
    cbn [analyze_loop]. rewrite select_add_content_type. cbn [bind].
    rewrite analyze_one_pipeline, pipeline_add_content_type, Hr. reflexivity.
Qed.
End MainFacts.

Lemma main_analysis_without_column_witness :
  has_content_type df_scenario = false /\
  exists r,
    pipeline PrimFloat.add 1%float df_scenario = Ok r /\
    main_analysis PrimFloat.add 1%float df_scenario =
    Ok ([("all", fst r); ("unknown", fst r)],
        tagged "all" r ++ tagged "unknown" r).
Proof.
  split; [reflexivity|].
  apply (main_analysis_without_column _ PrimFloat.add 1%float df_scenario eq_refl).
  discriminate.
Defined.


(** ** The projection drawn by interactive_plotly.py *)

Lemma dict_set_same_value {V : Type} (d : dict V) k v :
  dict_get d k = Some v -> dict_set d k v = d.
Proof.
  induction d as [|[k0 v0] d IH]; simpl; [discriminate|].
  destruct (String.eqb k k0) eqn:E.
  - intros [= ->]. reflexivity.
  - intros H. rewrite (IH H). reflexivity.
Qed.

Lemma add_node_same {W : Type} (G : Graph W) n ro :
  role_of G n = Some ro -> add_node G n (Some ro) = G.
Proof.
  unfold role_of, add_node. destruct (dict_get G n) as [d|] eqn:E; [|discriminate].
  intros H. apply dict_set_same_value. rewrite E. destruct d as [b a].
  simpl in *. subst. reflexivity.
Qed.

Section AuthorProjectionFacts.
Variable W : Type.
Variable wadd : W -> W -> W.
Variable wone : W.
Implicit Types (G B : Graph W) (r : Row W) (rows : list (Row W)) (n : node).

Lemma add_record_add_weight G r :
  add_record wadd wone G r =
  match record_pair r with
  | Some (a, s) =>
      add_weight wadd
        (add_node (add_node G a (Some r_author)) s (Some r_subreddit))
        a s (row_weight wone r)
  | None => G
  end.
Proof.
  unfold add_record, record_pair, add_weight.
  destruct (user_username r), (subreddit r); reflexivity.
Qed.

Lemma add_record_once_skip G r :
  record_pair r = None -> add_record_once wadd wone G r = G.
Proof.
  unfold record_pair, add_record_once.
  destruct (user_username r), (subreddit r); try reflexivity. discriminate.
Qed.

Lemma fold_add_record_once_skipped rows : forall G,
  authors_in rows = [] -> fold_left (add_record_once wadd wone) rows G = G.
Proof.
  induction rows as [|r rows IH]; intros G H; simpl; [reflexivity|].
  unfold authors_in in H. simpl in H. apply app_eq_nil in H. destruct H as [H1 H2].
  rewrite add_record_once_skip; [apply IH, H2|].
  destruct (record_pair r) as [[a s]|]; [discriminate | reflexivity].
Qed.

Section SameLabels.
Variables isA isS : node -> bool.
Hypothesis Hdisj : forall n, isA n = true -> isS n = true -> False.

Lemma add_record_once_labelled G r :
  labelled isA isS G -> well_used isA isS r ->
  add_record_once wadd wone G r = add_record wadd wone G r.
Proof.
  intros HG Hr. rewrite add_record_add_weight.
  unfold add_record_once, record_pair.
  destruct (user_username r) as [a|] eqn:Eu, (subreddit r) as [s|] eqn:Es;
    try reflexivity.
  assert (Ep : record_pair r = Some (a, s))
    by (unfold record_pair; rewrite Eu, Es; reflexivity).
  destruct (Hr a s Ep) as [Ha Hs]. cbv zeta.
  assert (E1 : (if negb (has_node G a) then add_node G a (Some r_author) else G)
               = add_node G a (Some r_author)).
  { destruct (has_node G a) eqn:En; [|reflexivity]. cbn [negb].
    symmetry. apply add_node_same.
    destruct (HG a En) as [[_ H]|[H _]]; [exact H|].
    destruct (Hdisj a Ha H). }
  rewrite E1.
  assert (Hne : String.eqb s a = false).
  { destruct (String.eqb s a) eqn:E; [|reflexivity].
    apply String.eqb_eq in E. subst. destruct (Hdisj a Ha Hs). }
  assert (E2 : (if negb (has_node (add_node G a (Some r_author)) s)
                then add_node (add_node G a (Some r_author)) s (Some r_subreddit)
                else add_node G a (Some r_author))
               = add_node (add_node G a (Some r_author)) s (Some r_subreddit)).
  { destruct (has_node (add_node G a (Some r_author)) s) eqn:En; [|reflexivity].
    cbn [negb]. symmetry. apply add_node_same.
    rewrite role_of_add_node, Hne.
    rewrite has_node_add_node, Hne in En. cbn [orb] in En.
    destruct (HG s En) as [[H _]|[_ H]]; [|exact H].
    destruct (Hdisj s H Hs). }
  rewrite E2. reflexivity.
Qed.

Lemma fold_add_record_once_labelled rows :
  Forall (well_used isA isS) rows ->
  fold_left (add_record_once wadd wone) rows empty_graph =
  build_from wadd wone empty_graph rows.
Proof.
  induction rows as [|r rows IH] using rev_ind; intros H; [reflexivity|].
  apply Forall_app in H. destruct H as [Hrows Hr].
  inversion Hr as [|? ? Hr' _]; subst.
  rewrite fold_left_app. cbn [fold_left]. rewrite (IH Hrows).
  rewrite build_from_snoc. apply add_record_once_labelled; [|exact Hr'].
  apply (build_from_invariants W wadd wone isA isS rows empty_graph Hrows).
  - constructor.
  - intros u. constructor.
  - intros u v E. discriminate.
  - intros n E. discriminate.
  - intros u v E. discriminate.
Qed.
End SameLabels.

Lemma author_bipartite_collision_free (df : DataFrame W) :
  collision_free (iterrows df) = true ->
  author_bipartite wadd wone df = build_bipartite_graph wadd wone df.
Proof.
  intros Hfree. unfold author_bipartite, build_bipartite_graph.
  apply (fold_add_record_once_labelled
           (fun n => mem n (authors_in (iterrows df)))
           (fun n => mem n (communities_in (iterrows df)))).
  - intros n. apply collision_free_disjoint, Hfree.
  - apply well_used_rows.
Qed.

(** X15: when no record has both an author and a community, the plot's
    builder returns the graph without nodes, where analyze.py's
    [project_authors] on the same records raises. *)
Theorem build_author_projection_no_record (df : DataFrame W) :
  authors_in (iterrows df) = [] ->
  build_author_projection wadd wone df = Ok empty_graph /\
  project_authors (build_bipartite_graph wadd wone df)
  = Raise NetworkXAlgorithmError.
Proof.
  intros H. split.
  - unfold build_author_projection, author_bipartite.
    rewrite (fold_add_record_once_skipped _ _ H). reflexivity.
  - unfold build_bipartite_graph.
    rewrite (build_from_all_skipped W wadd wone _ _ H). reflexivity.
Qed.

(** X16: when no name is used both as an author and as a community and some
    record is kept, the plot's builder and analyze.py agree: they build the
    same bipartite graph and return the same projection. *)
Theorem build_author_projection_agrees (df : DataFrame W) :
  collision_free (iterrows df) = true ->
  authors_in (iterrows df) <> [] ->
  author_bipartite wadd wone df = build_bipartite_graph wadd wone df /\
  exists P,
    build_author_projection wadd wone df = Ok P /\
    project_authors (build_bipartite_graph wadd wone df) = Ok P.
Proof.
  intros Hfree Hne.
  pose proof (author_bipartite_collision_free df Hfree) as HB.
  split; [exact HB|].
  destruct (project_authors_returns (build_bipartite_graph wadd wone df)
              (build_from_last_subreddit W wadd wone (iterrows df) Hne)) as [P HP].
  exists P. split; [|exact HP].
  unfold build_author_projection. rewrite HB. cbv zeta.
  destruct (authors_of (build_bipartite_graph wadd wone df)) as [|a l] eqn:E;
    [|rewrite <- E; exact HP].
  exfalso.
  destruct (build_invariants W wadd wone (iterrows df)) as (ND & _ & _ & Hlab & _).
  destruct (authors_in (iterrows df)) as [|a l] eqn:Ea; [contradiction|].
  assert (Ha : In a (authors_in (iterrows df))) by (rewrite Ea; left; reflexivity).
  rewrite <- Ea in Hlab.
  assert (Hn : has_node (build_from wadd wone empty_graph (iterrows df)) a = true).
  { rewrite has_node_build_from. cbn [has_node empty_graph dict_mem dict_get orb].
    apply In_authors_in in Ha. destruct Ha as (r & s & Hr & Hp).
    apply existsb_exists. exists r. split; [exact Hr|].
    unfold mentions. rewrite Hp, String.eqb_refl. reflexivity. }
  assert (Hrole : role_of (build_from wadd wone empty_graph (iterrows df)) a
                  = Some r_author).
  { destruct (Hlab a Hn) as [[_ H]|[H _]]; [exact H|].
    exfalso. apply (collision_free_disjoint W (iterrows df) a Hfree);
      [apply mem_In; exact Ha | exact H]. }
  apply (In_authors_of _ a ND) in Hrole.
  unfold build_bipartite_graph in E. rewrite E in Hrole. destruct Hrole.
Qed.
End AuthorProjectionFacts.


Lemma build_author_projection_no_record_witness :
  build_author_projection PrimFloat.add 1%float
    (mkDF false [mkRow None (Some "s1") (Num 3%float) None;
                 mkRow (Some "a1") None NA None])
  = Ok empty_graph /\
  project_authors
    (build_bipartite_graph_f
       (mkDF false [mkRow None (Some "s1") (Num 3%float) None;
                    mkRow (Some "a1") None NA None]))
  = Raise NetworkXAlgorithmError.
Proof.
  apply (build_author_projection_no_record _ PrimFloat.add 1%float
           (mkDF false [mkRow None (Some "s1") (Num 3%float) None;
                        mkRow (Some "a1") None NA None])).
  reflexivity.
Defined.

Lemma build_author_projection_agrees_witness :
  author_bipartite PrimFloat.add 1%float df_scenario
  = build_bipartite_graph_f df_scenario /\
  exists P,
    build_author_projection PrimFloat.add 1%float df_scenario = Ok P /\
    project_authors (build_bipartite_graph_f df_scenario) = Ok P.
Proof.
  apply (build_author_projection_agrees _ PrimFloat.add 1%float df_scenario).
  - reflexivity.
  - discriminate.
Defined.

Section FirstLabel.
Variable W : Type.
Variable wadd : W -> W -> W.
Variable wone : W.
Implicit Types (G B : Graph W) (r : Row W) (rows : list (Row W)) (n : node).

Lemma role_of_absent G n : has_node G n = false -> role_of G n = None.
Proof.
  unfold has_node, dict_mem, role_of. destruct (dict_get G n); [discriminate|].
  reflexivity.
Qed.

Lemma has_node_add_weight B a s w n :
  has_node B a = true -> has_node B s = true ->
  has_node (add_weight wadd B a s w) n = has_node B n.
Proof.
  intros Ha Hs. unfold add_weight. destruct (has_edge B a s).
  - destruct (edge_weight B a s); [|reflexivity].
    rewrite !has_node_set_adj. reflexivity.
  - rewrite has_node_add_edge.
    destruct (String.eqb n a) eqn:E1.
    + apply String.eqb_eq in E1. subst. rewrite Ha. reflexivity.
    + destruct (String.eqb n s) eqn:E2; [|reflexivity].
      apply String.eqb_eq in E2. subst. rewrite Hs. reflexivity.
Qed.

Lemma role_of_add_weight B a s w n :
  has_node B a = true -> has_node B s = true ->
  role_of (add_weight wadd B a s w) n = role_of B n.
Proof.
  intros Ha Hs. unfold add_weight. destruct (has_edge B a s).
  - destruct (edge_weight B a s); [|reflexivity].
    rewrite !role_of_set_adj. reflexivity.
  - apply role_of_add_edge; assumption.
Qed.

Lemma add_record_once_view G r n :
  has_node (add_record_once wadd wone G r) n = has_node G n || mentions n r /\
  role_of (add_record_once wadd wone G r) n =
  if has_node G n then role_of G n
  else match record_pair r with
       | Some (a, s) =>
           if String.eqb n a then Some r_author
           else if String.eqb n s then Some r_subreddit
           else None
       | None => None
       end.
Proof.
  unfold add_record_once, mentions, record_pair.
  destruct (user_username r) as [a|], (subreddit r) as [s|];
    try (rewrite orb_false_r; split; [reflexivity|];
         destruct (has_node G n) eqn:E; [reflexivity | apply role_of_absent, E]).
  cbv zeta.
  set (G1 := if negb (has_node G a) then add_node G a (Some r_author) else G).
  set (G2 := if negb (has_node G1 s) then add_node G1 s (Some r_subreddit) else G1).
  assert (H1 : has_node G1 n = String.eqb n a || has_node G n).
  { unfold G1. destruct (has_node G a) eqn:E; cbn [negb].
    - destruct (String.eqb n a) eqn:En; [|reflexivity].
      apply String.eqb_eq in En. subst. exact E.
    - apply has_node_add_node. }
  assert (R1 : role_of G1 n =
               if has_node G n then role_of G n
               else if String.eqb n a then Some r_author else None).
  { unfold G1. destruct (has_node G a) eqn:E; cbn [negb].
    - destruct (has_node G n) eqn:En; [reflexivity|].
      destruct (String.eqb n a) eqn:Ea; [|apply role_of_absent, En].
      apply String.eqb_eq in Ea. subst. congruence.
    - rewrite role_of_add_node. destruct (String.eqb n a) eqn:Ea.
      + apply String.eqb_eq in Ea. subst. rewrite E. reflexivity.
      + destruct (has_node G n) eqn:En; [reflexivity | apply role_of_absent, En]. }
  assert (H2 : has_node G2 n = String.eqb n s || has_node G1 n).
  { unfold G2. destruct (has_node G1 s) eqn:E; cbn [negb].
    - destruct (String.eqb n s) eqn:En; [|reflexivity].
      apply String.eqb_eq in En. subst. exact E.
    - apply has_node_add_node. }
  assert (R2 : role_of G2 n =
               if has_node G1 n then role_of G1 n
               else if String.eqb n s then Some r_subreddit else None).
  { unfold G2. destruct (has_node G1 s) eqn:E; cbn [negb].
    - destruct (has_node G1 n) eqn:En; [reflexivity|].
      destruct (String.eqb n s) eqn:Es; [|apply role_of_absent, En].
      apply String.eqb_eq in Es. subst. congruence.
    - rewrite role_of_add_node. destruct (String.eqb n s) eqn:Es.
      + apply String.eqb_eq in Es. subst. rewrite E. reflexivity.
      + destruct (has_node G1 n) eqn:En; [reflexivity | apply role_of_absent, En]. }
  assert (Ha : has_node G2 a = true).
  { unfold G2. destruct (has_node G1 s) eqn:E; cbn [negb].
    - unfold G1. destruct (has_node G a) eqn:E'; cbn [negb]; [exact E'|].
      rewrite has_node_add_node, String.eqb_refl. reflexivity.
    - rewrite has_node_add_node. apply orb_true_iff. right.
      unfold G1. destruct (has_node G a) eqn:E'; cbn [negb]; [exact E'|].
      rewrite has_node_add_node, String.eqb_refl. reflexivity. }
  assert (Hs : has_node G2 s = true).
  { unfold G2. destruct (has_node G1 s) eqn:E; cbn [negb]; [exact E|].
    rewrite has_node_add_node, String.eqb_refl. reflexivity. }
  rewrite (has_node_add_weight G2 a s _ n Ha Hs).
  rewrite (role_of_add_weight G2 a s _ n Ha Hs).
  rewrite H2, R2, H1, R1. split.
  - destruct (String.eqb n a), (String.eqb n s), (has_node G n); reflexivity.
  - destruct (String.eqb n a), (String.eqb n s), (has_node G n); reflexivity.
Qed.

Lemma role_of_fold_once rows : forall G n,
  role_of (fold_left (add_record_once wadd wone) rows G) n =
  if has_node G n then role_of G n else first_role rows n.
Proof.
  induction rows as [|r rows IH]; intros G n; cbn [fold_left first_role].
  - destruct (has_node G n) eqn:E; [reflexivity | apply role_of_absent, E].
  - rewrite IH. destruct (add_record_once_view G r n) as [-> ->].
    unfold mentions. destruct (has_node G n); [reflexivity|]. cbn [orb].
    destruct (record_pair r) as [[a s]|]; [|reflexivity].
    destruct (String.eqb n a); [reflexivity|].
    destruct (String.eqb n s); reflexivity.
Qed.

(** X17: in the graph the plot's builder makes, a name keeps the label of
    its first use: author when the first kept record that uses it has it as
    author, subreddit otherwise.  (analyze.py's builder relabels a name at
    each use, the last use decides.) *)
Theorem author_bipartite_first_label (df : DataFrame W) n :
  role_of (author_bipartite wadd wone df) n = first_role (iterrows df) n.
Proof. unfold author_bipartite. rewrite role_of_fold_once. reflexivity. Qed.
End FirstLabel.


(** ** Counting edges *)

Lemma sumZ_map_add {A : Type} (f g : A -> Z) (l : list A) :
  sumZ (map (fun x => f x + g x) l) = sumZ (map f l) + sumZ (map g l).
Proof.
  induction l as [|x l IH]; simpl; [reflexivity|].
  rewrite !sumZ_cons, IH. lia.
Qed.

Lemma sumZ_indicator {A : Type} (p : A -> bool) (l : list A) :
  sumZ (map (fun x => if p x then 1 else 0) l) = len (filter p l).
Proof.
  unfold len. induction l as [|x l IH]; simpl; [reflexivity|].
  rewrite sumZ_cons, IH. destruct (p x); simpl List.length; lia.
Qed.

Lemma len_filter_le {A : Type} (p : A -> bool) (l : list A) :
  0 <= len (filter p l) <= len l.
Proof.
  unfold len. pose proof (filter_length_le p l). lia.
Qed.

Section Handshake.
Context {W : Type}.
Variable G : Graph W.
Hypothesis Hwf : wf_graph G = true.
Hypothesis Hadj : adj_nodup G.

Lemma degree_count u d :
  In (u, d) G ->
  degree_of u d =
  len (filter (has_edge G u) (nodes G)) + (if has_edge G u u then 1 else 0).
Proof.
  intros Hin. pose proof (wf_NoDup G Hwf) as ND.
  pose proof (In_dict_get G u d ND Hin) as Eu.
  assert (He : forall v, has_edge G u v = dict_mem (adj d) v)
    by (intros v; unfold has_edge, nbrs; rewrite Eu; reflexivity).
  unfold degree_of. rewrite <- (He u). f_equal.
  assert (HP : Permutation (keys (adj d)) (filter (has_edge G u) (nodes G))).
  { apply NoDup_Permutation.
    - specialize (Hadj u). unfold neighbors, nbrs in Hadj. rewrite Eu in Hadj.
      exact Hadj.
    - apply NoDup_filter, ND.
    - intros v. rewrite filter_In, He, <- dict_mem_In. split; [|tauto].
      intros Hv. split; [|exact Hv].
      apply has_node_In. rewrite <- He in Hv. apply (wf_closed G Hwf u v Hv). }
  pose proof (Permutation_length HP) as Hl. unfold keys in Hl.
  rewrite length_map in Hl. unfold len. f_equal. exact Hl.
Qed.

Lemma sum_degrees :
  sumZ (values (degree G)) =
  sumZ (map (fun u => len (filter (has_edge G u) (nodes G))
                      + (if has_edge G u u then 1 else 0)) (nodes G)).
Proof.
  unfold values, degree, nodes, keys. rewrite !map_map. cbn [snd fst].
  f_equal. apply map_ext_in. intros [u d] Hin. apply degree_count, Hin.
Qed.

Lemma pairs_double (L : list node) :
  sumZ (map (fun u => len (filter (has_edge G u) L)
                      + (if has_edge G u u then 1 else 0)) L)
  = 2 * edge_pairs G L.
Proof.
  induction L as [|x L IH]; [reflexivity|].
  cbn [map edge_pairs]. rewrite sumZ_cons.
  assert (E : sumZ (map (fun u => len (filter (has_edge G u) (x :: L))
                                  + (if has_edge G u u then 1 else 0)) L)
              = len (filter (has_edge G x) L)
                + sumZ (map (fun u => len (filter (has_edge G u) L)
                                      + (if has_edge G u u then 1 else 0)) L)).
  { rewrite <- (sumZ_indicator (has_edge G x) L), <- sumZ_map_add.
    f_equal. apply map_ext. intros u. cbn [filter].
    rewrite (wf_symmetric G Hwf x u).
    destruct (has_edge G u x); unfold len; simpl List.length; lia. }
  rewrite E, IH. cbn [filter].
  destruct (has_edge G x x); unfold len; simpl List.length; lia.
Qed.

Lemma handshake :
  sumZ (values (degree G)) = 2 * edge_pairs G (nodes G) /\
  number_of_edges G = edge_pairs G (nodes G).
Proof.
  assert (H : sumZ (values (degree G)) = 2 * edge_pairs G (nodes G))
    by (rewrite sum_degrees; apply pairs_double).
  split; [exact H|]. unfold number_of_edges. rewrite H.
  rewrite Z.mul_comm. apply Z.div_mul. discriminate.
Qed.

Lemma edge_pairs_bound (L : list node) :
  (forall u, has_edge G u u = false) ->
  0 <= edge_pairs G L /\ 2 * edge_pairs G L <= len L * (len L - 1).
Proof.
  intros Hno. induction L as [|x L IH]; [unfold len; simpl; lia|].
  cbn [edge_pairs]. rewrite Hno.
  pose proof (len_filter_le (has_edge G x) L) as Hf.
  assert (El : len (x :: L) = len L + 1) by (unfold len; simpl List.length; lia).
  rewrite El. nia.
Qed.
End Handshake.

(** X18: in a well-formed graph whose adjacency lists hold no name twice,
    the degrees sum to twice the number of edges, and the number of edges is
    the number of unordered pairs of nodes an edge joins, a self-loop
    counted once. *)
Theorem number_of_edges_handshake {W : Type} (G : Graph W) :
  wf_graph G = true ->
  adj_nodup G ->
  sumZ (values (degree G)) = 2 * number_of_edges G /\
  number_of_edges G = edge_pairs G (nodes G).
Proof.
  intros Hwf Hadj. destruct (handshake G Hwf Hadj) as [H1 H2].
  split; [rewrite H2; exact H1 | exact H2].
Qed.

Lemma adj_nodup_copy_nodes {W : Type} (B : Graph W) ns : forall G : Graph Z,
  adj_nodup G -> adj_nodup (fold_left (nx.copy_node B) ns G).
Proof.
  induction ns as [|n ns IH]; intros G HG; simpl; [exact HG|].
  apply IH. unfold nx.copy_node. destruct (dict_get B n); apply adj_nodup_add_node, HG.
Qed.

Lemma adj_nodup_add_edges es : forall G : Graph Z,
  adj_nodup G -> adj_nodup (add_edges G es).
Proof.
  unfold add_edges. induction es as [|e es IH]; intros G HG; simpl; [exact HG|].
  apply IH. unfold add_edge.
  auto using adj_nodup_set_adj, adj_nodup_add_node.
Qed.

Lemma project_authors_adj {W : Type} (B : Graph W) (P : Graph Z) :
  project_authors B = Ok P ->
  adj_nodup P /\ forall u, has_edge P u u = false.
Proof.
  intros HP. unfold project_authors, nx.weighted_projected_graph in HP.
  destruct (len B - len (authors_of B) <? 1); [discriminate|].
  injection HP as <-. rewrite fold_project_node. split.
  - apply adj_nodup_add_edges, adj_nodup_copy_nodes. intros u. constructor.
  - intros u.
    destruct (has_edge (add_edges (fold_left (nx.copy_node B) (authors_of B)
                                             (@empty_graph Z))
                                  (projected_edges B (authors_of B))) u u) eqn:E;
      [|reflexivity].
    rewrite has_edge_add_edges in E. unfold has_edge at 1 in E.
    rewrite nbrs_copy_nodes in E. cbn [nbrs empty_graph dict_get dict_mem orb] in E.
    apply existsb_exists in E. destruct E as (e & He & Hp).
    apply In_projected_edges in He. destruct He as (_ & Hv & _).
    apply In_nbrs2 in Hv. destruct Hv as [Hne _].
    apply same_pair_eq in Hp. destruct Hp as [[E1 E2]|[E1 E2]]; congruence.
Qed.

(** X19: every projection that is returned has between 0 and N(N-1)/2
    edges, N its number of nodes (so its density before rounding is at most
    1), and its degrees sum to twice its number of edges. *)
Theorem project_authors_edge_count {W : Type} (B : Graph W) (P : Graph Z) :
  project_authors B = Ok P ->
  0 <= number_of_edges P /\
  2 * number_of_edges P <= number_of_nodes P * (number_of_nodes P - 1) /\
  sumZ (values (degree P)) = 2 * number_of_edges P.
Proof.
  intros HP. pose proof (wf_project_authors B P HP) as Hwf.
  destruct (project_authors_adj B P HP) as [Hadj Hno].
  destruct (handshake P Hwf Hadj) as [H1 H2].
  destruct (edge_pairs_bound P (nodes P) Hno) as [H3 H4].
  assert (El : len (nodes P) = number_of_nodes P).
  { unfold number_of_nodes, len, nodes, keys. rewrite length_map. reflexivity. }
  rewrite El in H4. rewrite H2. split; [exact H3|]. split; [exact H4 | exact H1].
Qed.

Lemma number_of_edges_handshake_witness :
  sumZ (values (degree P_scenario)) = 2 * number_of_edges P_scenario /\
  number_of_edges P_scenario = edge_pairs P_scenario (nodes P_scenario).
Proof.
  apply (number_of_edges_handshake P_scenario).
  - reflexivity.
  - intros u. unfold neighbors, nbrs, P_scenario. cbn [dict_get].
    destruct (String.eqb u "a1"); [repeat constructor; simpl; tauto|].
    destruct (String.eqb u "a2"); repeat constructor; simpl; tauto.
Defined.

Lemma project_authors_edge_count_witness :
  project_authors (build_bipartite_graph_f df_scenario) = Ok P_scenario /\
  0 <= number_of_edges P_scenario /\
  2 * number_of_edges P_scenario
  <= number_of_nodes P_scenario * (number_of_nodes P_scenario - 1) /\
  sumZ (values (degree P_scenario)) = 2 * number_of_edges P_scenario.
Proof.
  assert (E : project_authors (build_bipartite_graph_f df_scenario) = Ok P_scenario)
    by (vm_compute; reflexivity).
  split; [exact E|]. apply (project_authors_edge_count _ _ E).
Defined.


(** ** The authors the plot keeps *)

Section SortedIntFacts.
Context {A : Type} (key : A -> Z).

Let at_least (x y : A) : Prop := key y <= key x.

Lemma insert_descZ_perm x l : Permutation (x :: l) (insert_descZ key x l).
Proof.
  induction l as [|y l IH]; simpl; [reflexivity|].
  destruct (key x <? key y); [|reflexivity].
  rewrite perm_swap. apply perm_skip, IH.
Qed.

Lemma sorted_reverseZ_perm l : Permutation l (sorted_reverseZ key l).
Proof.
  induction l as [|x l IH]; simpl; [reflexivity|].
  rewrite <- insert_descZ_perm. apply perm_skip, IH.
Qed.

Lemma StronglySorted_insert_descZ x l :
  StronglySorted at_least l -> StronglySorted at_least (insert_descZ key x l).
Proof.
  induction l as [|y l IH]; intros Hl; simpl.
  - repeat constructor.
  - inversion Hl as [|? ? Hs Hf]; subst.
    destruct (key x <? key y) eqn:E.
    + apply Z.ltb_lt in E. constructor; [apply IH, Hs|].
      apply Forall_forall. intros z Hz.
      apply (Permutation_in _ (Permutation_sym (insert_descZ_perm x l))) in Hz.
      destruct Hz as [<-|Hz]; [unfold at_least; lia|].
      rewrite Forall_forall in Hf. apply Hf, Hz.
    + apply Z.ltb_ge in E. constructor; [exact Hl|].
      constructor; [exact E|].
      apply Forall_forall. intros z Hz. rewrite Forall_forall in Hf.
      specialize (Hf z Hz). unfold at_least in *. lia.
Qed.

Lemma StronglySorted_sorted_reverseZ l :
  StronglySorted at_least (sorted_reverseZ key l).
Proof.
  induction l as [|x l IH]; simpl; [constructor|].
  apply StronglySorted_insert_descZ, IH.
Qed.

Lemma StronglySorted_app_le (l1 l2 : list A) x y :
  StronglySorted at_least (l1 ++ l2) -> In x l1 -> In y l2 -> key y <= key x.
Proof.
  induction l1 as [|a l1 IH]; intros Hs Hx Hy; [destruct Hx|].
  simpl in Hs. inversion Hs as [|? ? Hs' Hf]; subst.
  destruct Hx as [<-|Hx]; [|apply IH; assumption].
  rewrite Forall_forall in Hf. apply Hf, in_or_app. right. exact Hy.
Qed.
End SortedIntFacts.

Lemma keys_degree_weight (P : Graph Z) : keys (degree_weight P) = nodes P.
Proof. unfold degree_weight, keys, nodes, keys. rewrite map_map. reflexivity. Qed.

(** X20: of a well-formed projection with nodes the plot keeps
    [min(top_k, N)] nodes for [top_k >= 0], all of them nodes of the
    projection and none with a smaller weighted degree than a node left out,
    and between them exactly the edges the projection has. *)
Theorem make_plot_subP_top (P : Graph Z) (top_k : Z) :
  wf_graph P = true ->
  0 <= top_k ->
  number_of_nodes P <> 0 ->
  exists S,
    make_plot_subP P top_k = Some S /\
    number_of_nodes S = Z.min top_k (number_of_nodes P) /\
    (forall n, has_node S n = true -> has_node P n = true) /\
    (forall u v, has_node S u = true -> has_node P v = true ->
                 has_node S v = false ->
                 get_default (degree_weight P) v 0
                 <= get_default (degree_weight P) u 0) /\
    (forall u v, has_edge S u v = has_node S u && has_node S v && has_edge P u v).
Proof.
  intros Hwf Hk Hn. pose proof (wf_NoDup P Hwf) as ND.
  unfold make_plot_subP. apply Z.eqb_neq in Hn. rewrite Hn. cbv zeta.
  eexists. split; [reflexivity|].
  set (s := sorted_reverseZ snd (degree_weight P)).
  assert (Hslice : top_nodes P top_k = firstn (Z.to_nat top_k) s).
  { unfold top_nodes, slice_to. fold s.
    destruct (top_k <? 0) eqn:E; [apply Z.ltb_lt in E; lia | reflexivity]. }
  rewrite Hslice. set (k := Z.to_nat top_k).
  set (top := map fst (firstn k s)).
  pose proof (sorted_reverseZ_perm snd (degree_weight P)) as Hperm. fold s in Hperm.
  assert (Hkeys : Permutation (nodes P) (map fst s)).
  { rewrite <- keys_degree_weight. unfold keys. apply Permutation_map, Hperm. }
  assert (NDs : NoDup (map fst s)) by (eapply Permutation_NoDup; eassumption).
  assert (NDw : NoDup (keys (degree_weight P)))
    by (rewrite keys_degree_weight; exact ND).
  assert (NDtop : NoDup top).
  { unfold top. rewrite <- firstn_map. apply NoDup_firstn, NDs. }
  assert (Htop : forall n, In n top -> In n (nodes P)).
  { intros n Hin. apply (Permutation_in _ (Permutation_sym Hkeys)).
    unfold top in Hin. rewrite <- firstn_map in Hin.
    rewrite <- (firstn_skipn k (map fst s)). apply in_or_app. left. exact Hin. }
  assert (HS : forall n, has_node (subgraph P top) n = mem n top && has_node P n)
    by (intros n; apply has_node_subgraph).
  split; [|split; [|split]].
  - unfold number_of_nodes at 1.
    assert (Hp : Permutation (nodes (subgraph P top)) top).
    { rewrite nodes_subgraph. apply NoDup_Permutation;
        [apply NoDup_filter, ND | exact NDtop |].
      intros n. rewrite filter_In, mem_In. split; [tauto|].
      intros Hin. split; [apply Htop, Hin | exact Hin]. }
    pose proof (Permutation_length Hp) as Hl.
    unfold nodes, keys in Hl. rewrite length_map in Hl.
    unfold top in Hl. rewrite length_map, length_firstn in Hl.
    pose proof (Permutation_length Hperm) as Hl2.
    unfold degree_weight in Hl2. rewrite length_map in Hl2.
    unfold len, number_of_nodes, len.
    assert (E : List.length (subgraph P top) = Nat.min k (List.length P)).
    { unfold top. etransitivity; [exact Hl|]. f_equal. symmetry. exact Hl2. }
    transitivity (Z.of_nat (Nat.min k (List.length P)));
      [f_equal; exact E | unfold k; lia].
  - intros n H. rewrite HS in H. apply andb_true_iff in H. tauto.
  - intros u v Hu Hv Hnv. rewrite HS in Hu, Hnv. rewrite Hv, andb_true_r in Hnv.
    apply andb_true_iff in Hu. destruct Hu as [Hu _]. apply mem_In in Hu.
    apply mem_false in Hnv.
    unfold top in Hu. apply in_map_iff in Hu. destruct Hu as ([u' w] & Eu & Hu).
    simpl in Eu. subst u'.
    assert (Hus : In (u, w) s).
    { rewrite <- (firstn_skipn k s). apply in_or_app. left. exact Hu. }
    apply (Permutation_in _ (Permutation_sym Hperm)) in Hus.
    pose proof (In_dict_get _ _ _ NDw Hus) as Ew.
    unfold has_node, dict_mem in Hv.
    destruct (dict_get P v) as [d|] eqn:Ed; [|discriminate].
    assert (Ev : dict_get (degree_weight P) v = Some (weighted_degree_of v d))
      by (rewrite dict_get_degree_weight, Ed; reflexivity).
    pose proof (dict_get_Some_In _ _ _ Ev) as Hvs.
    apply (Permutation_in _ Hperm) in Hvs.
    rewrite <- (firstn_skipn k s) in Hvs. apply in_app_or in Hvs.
    destruct Hvs as [Hvs|Hvs].
    + exfalso. apply Hnv. unfold top. apply in_map_iff.
      exists (v, weighted_degree_of v d). split; [reflexivity | exact Hvs].
    + unfold get_default. rewrite Ew, Ev.
      pose proof (StronglySorted_sorted_reverseZ snd (degree_weight P)) as Hss.
      fold s in Hss. rewrite <- (firstn_skipn k s) in Hss.
      apply (StronglySorted_app_le snd _ _ (u, w) (v, weighted_degree_of v d) Hss Hu Hvs).
  - intros u v. rewrite has_edge_subgraph, !HS.
    destruct (has_edge P u v) eqn:E; [|rewrite !andb_false_r; reflexivity].
    destruct (wf_closed P Hwf u v E) as [-> ->].
    rewrite !andb_true_r. reflexivity.
Qed.

Lemma make_plot_subP_top_witness :
  exists S,
    make_plot_subP P_scenario 1 = Some S /\
    number_of_nodes S = Z.min 1 (number_of_nodes P_scenario).
Proof.
  destruct (make_plot_subP_top P_scenario 1) as (S & H1 & H2 & _).
  - reflexivity.
  - lia.
  - discriminate.
  - exists S. split; [exact H1 | exact H2].
Defined.


(** ** Binary64 addition *)





















(** ** The order of the records *)










